(** * qp_translator: query-parameter translation, embedded and verified

    Shallow embedding of [qp_translator/qp_translator.py],
    [qp_translator/schemes.py] and [qp_translator/str_parsers/str_parsers.py].

    Python values are modelled as follows.
    - [str] is a list of Unicode code points ([N]); the distinction between
      [str.isdigit] and the literals [int] accepts needs code points, not bytes.
    - a [dict] is an insertion-ordered association list with the update
      discipline of CPython ([dict_set] keeps the position of an existing key);
    - a [set] is a [gset]; the order in which a set is iterated (hash order in
      CPython) is a parameter, see [SetOrder];
    - an exception raised by a callee is a value of [exn]; a computation that
      may raise is an [outcome];
    - [parse] calls the descriptor callbacks [t_parser] and [q_func]; the
      calls it makes are recorded, in order, in a ghost log of [event]s, so that
      "is never invoked" is a statement about that log. *)

From Stdlib Require Import String Ascii DecimalString.
From stdpp Require Import base option list sets gmap.

Set Warnings "-register-all".

Local Open Scope Z_scope.
Local Open Scope list_scope.

(** ** Strings *)

Abbreviation str := (list N).

(** An ASCII literal as a Python [str]. *)
Definition lit (s : string) : str :=
  (fun a => N_of_ascii a) <$> list_ascii_of_string s.

(** [sep.join(l)] *)
Fixpoint str_join (sep : str) (l : list str) : str :=
  match l with
  | [] => []
  | [x] => x
  | x :: l' => x ++ sep ++ str_join sep l'
  end.

(** [needle in s] for strings. *)
Fixpoint str_prefix (p s : str) : bool :=
  match p, s with
  | [], _ => true
  | a :: p', b :: s' => bool_decide (a = b) && str_prefix p' s'
  | _ :: _, [] => false
  end.

Fixpoint str_contains (needle s : str) : bool :=
  str_prefix needle s ||
  match s with
  | [] => false
  | _ :: s' => str_contains needle s'
  end.

(** Decimal rendering of a natural number, as [str(n)] gives it. *)
Definition str_of_nat (n : nat) : str :=
  lit (NilZero.string_of_uint (Nat.to_uint n)).

(** *** The Unicode tables behind [str.isdigit] and [int]

    CPython's [unicodedata] (Unicode 14) has 62 runs of decimal digits
    (property Numeric_Type=Decimal); every run is a multiple of ten code
    points long and the value of a code point is its offset in its block of
    ten.  [decimal_zeros] lists the code point of every zero. *)
Definition decimal_zeros : list N :=
  [ 0x30; 0x660; 0x6f0; 0x7c0; 0x966; 0x9e6; 0xa66; 0xae6; 0xb66; 0xbe6;
    0xc66; 0xce6; 0xd66; 0xde6; 0xe50; 0xed0; 0xf20; 0x1040; 0x1090; 0x17e0;
    0x1810; 0x1946; 0x19d0; 0x1a80; 0x1a90; 0x1b50; 0x1bb0; 0x1c40; 0x1c50;
    0xa620; 0xa8d0; 0xa900; 0xa9d0; 0xa9f0; 0xaa50; 0xabf0; 0xff10; 0x104a0;
    0x10d30; 0x11066; 0x110f0; 0x11136; 0x111d0; 0x112f0; 0x11450; 0x114d0;
    0x11650; 0x116c0; 0x11730; 0x118e0; 0x11950; 0x11c50; 0x11d50; 0x11da0;
    0x16a60; 0x16ac0; 0x16b50;
    0x1d7ce; 0x1d7d8; 0x1d7e2; 0x1d7ec; 0x1d7f6;
    0x1e140; 0x1e2f0; 0x1e950; 0x1fbf0 ]%N.

(** Code points with Numeric_Type=Digit that are not decimal: superscripts,
    subscripts, circled and parenthesised digits and the like.  [str.isdigit]
    accepts them, [int] does not. *)
Definition digit_only_ranges : list (N * N) :=
  [ (0xb2, 0xb3); (0xb9, 0xb9); (0x1369, 0x1371); (0x19da, 0x19da);
    (0x2070, 0x2070); (0x2074, 0x2079); (0x2080, 0x2089); (0x2460, 0x2468);
    (0x2474, 0x247c); (0x2488, 0x2490); (0x24ea, 0x24ea); (0x24f5, 0x24fd);
    (0x24ff, 0x24ff); (0x2776, 0x277e); (0x2780, 0x2788); (0x278a, 0x2792);
    (0x10a40, 0x10a43); (0x10e60, 0x10e68); (0x11052, 0x1105a);
    (0x1f100, 0x1f10a) ]%N.

(** [Py_UNICODE_TODECIMAL]: the decimal value of a code point, if it has one. *)
Definition Py_UNICODE_TODECIMAL (c : N) : option N :=
  (fun z => c - z)%N <$>
    List.find (fun z => (z <=? c)%N && (c <? z + 10)%N) decimal_zeros.

(** [Py_UNICODE_ISDIGIT] *)
Definition Py_UNICODE_ISDIGIT (c : N) : bool :=
  match Py_UNICODE_TODECIMAL c with
  | Some _ => true
  | None => existsb (fun r => (r.1 <=? c)%N && (c <=? r.2)%N) digit_only_ranges
  end.

(** [s.isdigit()]: every character is a digit and there is at least one. *)
Definition isdigit (s : str) : bool :=
  match s with
  | [] => false
  | _ => forallb Py_UNICODE_ISDIGIT s
  end.

(** Truth value of a [str]: non-empty. *)
Definition str_truthy (s : str) : bool :=
  match s with [] => false | _ => true end.

(** ** Values, exceptions, outcomes *)

(** The Python values that travel through the translator. *)
Inductive pyval : Type :=
| VNone
| VBool (b : bool)
| VInt (z : Z)
| VStr (s : str)
| VList (l : list pyval)
| VDict (d : list (str * pyval)).

(** A predicate handed to the data-access layer: [dict[str, Any]]. *)
Abbreviation predicate := (list (str * pyval)).

(** Exceptions, by the classes the code distinguishes.  [ValueError] stands
    for any instance of [ValueError] and carries [str(e)]; [OtherException] is
    any other instance of [Exception]; [BaseExceptionOnly] is an instance of
    [BaseException] outside [Exception] (KeyboardInterrupt, SystemExit,
    asyncio.CancelledError). *)
Inductive exn : Type :=
| ValueError (msg : str)
| HTTPException (status_code : Z) (detail : str)
| Warning (msg : str)
| OtherException (cls : str) (msg : str)
| BaseExceptionOnly (cls : str).

Definition HTTP_400_BAD_REQUEST : Z := 400.

(** [isinstance(e, Exception)] *)
Definition is_Exception (e : exn) : bool :=
  match e with
  | BaseExceptionOnly _ => false
  | _ => true
  end.

(** The client-facing errors are exactly the [HTTPException]s. *)
Definition is_HTTPException (e : exn) : bool :=
  match e with
  | HTTPException _ _ => true
  | _ => false
  end.

Inductive outcome (A : Type) : Type :=
| Return (a : A)
| Raise (e : exn).
Arguments Return {A} a.
Arguments Raise {A} e.

(** [int(s)] in CPython 3.11, for the strings the translator passes to it,
    those with [s.isdigit()]: such a string has no sign, blank or underscore.
    [PyLong_FromString] first counts the decimal digits the string starts
    with, and refuses more than [sys.get_int_max_str_digits()] of them before
    it looks any further; otherwise the literal is valid exactly when every
    character is a decimal digit.  The message for an invalid literal is
    formatted with [%.200R]: it ends with the first 200 characters of the
    [repr] of the string, which for a string of digits is the string between
    single quotes. *)
Definition int_max_str_digits : nat := 4300.

(** The decimal digits a string starts with. *)
Fixpoint leading_decimals (s : str) : list N :=
  match s with
  | [] => []
  | c :: s' =>
      match Py_UNICODE_TODECIMAL c with
      | Some d => d :: leading_decimals s'
      | None => []
      end
  end.

Definition int_invalid_literal (s : str) : str :=
  lit "invalid literal for int() with base 10: " ++
  take 200 (lit "'" ++ s ++ lit "'").

Definition int_exceeds_limit (digits : nat) : str :=
  lit "Exceeds the limit (" ++ str_of_nat int_max_str_digits ++
  lit " digits) for integer string conversion: value has " ++
  str_of_nat digits ++
  lit " digits; use sys.set_int_max_str_digits() to increase the limit".

Definition int (s : str) : outcome Z :=
  let digits := length (leading_decimals s) in
  if bool_decide (int_max_str_digits < digits)%nat
  then Raise (ValueError (int_exceeds_limit digits))
  else
    match mapM Py_UNICODE_TODECIMAL s with
    | Some (d :: ds) =>
        Return (fold_left (fun acc x => 10 * acc + Z.of_N x) (d :: ds) 0)
    | _ => Raise (ValueError (int_invalid_literal s))
    end.

(** ** Dictionaries: insertion-ordered association lists *)

Section PyDict.
Context {V : Type}.

(** [d.get(k)] *)
Fixpoint dict_get (k : str) (d : list (str * V)) : option V :=
  match d with
  | [] => None
  | (k', v) :: d' => if decide (k = k') then Some v else dict_get k d'
  end.

(** [d[k] = v]: an existing key keeps its position, a new one goes last. *)
Fixpoint dict_set (k : str) (v : V) (d : list (str * V)) : list (str * V) :=
  match d with
  | [] => [(k, v)]
  | (k', v') :: d' =>
      if decide (k = k') then (k', v) :: d' else (k', v') :: dict_set k v d'
  end.

(** [d.update(other)], also the dict comprehension [{k: v for k, v in other}]
    when [d] is empty. *)
Definition dict_update (d other : list (str * V)) : list (str * V) :=
  fold_left (fun acc kv => dict_set kv.1 kv.2 acc) other d.

Definition dict_keys (d : list (str * V)) : list str := d.*1.
Definition dict_values (d : list (str * V)) : list V := d.*2.

(** [k in d] *)
Definition dict_contains (k : str) (d : list (str * V)) : bool :=
  bool_decide (k ∈ dict_keys d).
End PyDict.

(** ** Computations that call the descriptor callbacks *)

Inductive event : Type :=
| ParserCall (param : str) (arg : pyval)
| QFuncCall (param : str) (arg : pyval).

(** The parameter on whose behalf a callback was called. *)
Definition event_param (ev : event) : str :=
  match ev with
  | ParserCall p _ => p
  | QFuncCall p _ => p
  end.

(** The calls made so far, then how the computation ended. *)
Definition M (A : Type) : Type := (list event * outcome A)%type.

Definition ret {A} (a : A) : M A := ([], Return a).
Definition raise {A} (e : exn) : M A := ([], Raise e).
Definition lift {A} (o : outcome A) : M A := ([], o).

Definition bind {A B} (m : M A) (k : A -> M B) : M B :=
  match m with
  | (log, Return a) => let '(log', r) := k a in (log ++ log', r)
  | (log, Raise e) => (log, Raise e)
  end.

(** [try: m  except ...: h e] *)
Definition try_except {A} (m : M A) (h : exn -> M A) : M A :=
  match m with
  | (log, Raise e) => let '(log', r) := h e in (log ++ log', r)
  | _ => m
  end.

Notation "'let*' x ':=' m 'in' k" := (bind m (fun x => k))
  (at level 10, x pattern, m at level 100, k at level 200).

(** [[f(x) for x in l]] for a function that may raise. *)
Fixpoint for_each {A B} (f : A -> M B) (l : list A) : M (list B) :=
  match l with
  | [] => ret []
  | x :: l' =>
      let* y := f x in
      let* ys := for_each f l' in
      ret (y :: ys)
  end.

(** ** schemes.py *)

(** [Filter]: one descriptor.  [t_parser] receives what [qps.get] or an element
    of [qps.getlist] gives; both callbacks may raise. *)
Record Filter : Type := {
  q_func : pyval -> outcome predicate;
  t_parser : pyval -> outcome pyval;
  many : bool;
  exclusions : list str;
  is_required : bool;
  description : option str
}.

Record ParseResult : Type := {
  query_list : list predicate;
  sort : list str;
  limit : option Z;
  offset : option Z
}.

(** ** str_parsers.py *)

Definition bool_parser_message : str :=
  lit "Field with bool must be 'false' or 'true'".

Definition bool_parser (v : pyval) : outcome pyval :=
  match v with
  | VStr s =>
      if negb (bool_decide (s ∈ [lit "false"; lit "true"]))
      then Raise (ValueError bool_parser_message)
      else Return (VBool (negb (bool_decide (s = lit "false"))))
  | _ => Raise (ValueError bool_parser_message)
  end.

(** The default of [Filter.t_parser]: [lambda x: x]. *)
Definition default_t_parser (v : pyval) : outcome pyval := Return v.

(** ** starlette.datastructures.QueryParams

    An [ImmutableMultiDict] keeps the pairs as given in [_list] and builds
    [_dict = {k: v for k, v in _items}], so that a repeated key keeps the
    position of its first occurrence and the value of its last one.  A
    [QueryParams] is represented by its [_list]. *)
Abbreviation QueryParams := (list (str * str)).

Definition qp_dict (qps : QueryParams) : list (str * str) :=
  dict_update [] qps.

(** [qps.keys()] *)
Definition qp_keys (qps : QueryParams) : list str := dict_keys (qp_dict qps).

(** [qps.get(key)] *)
Definition qp_get (qps : QueryParams) (key : str) : option str :=
  dict_get key (qp_dict qps).

(** [qps.getlist(key)] *)
Definition qp_getlist (qps : QueryParams) (key : str) : list str :=
  (filter (fun kv => kv.1 = key) qps).*2.

(** [x] when [x] is [Some], Python's [None] otherwise. *)
Definition str_or_None (x : option str) : pyval :=
  match x with
  | Some s => VStr s
  | None => VNone
  end.

(** ** qp_translator.py: the metaclass *)

(** What [QPTranslatorMetaclass.__new__] looks at in a base class: whether it
    has a [__filters__] attribute, and its value.  A class made by the
    metaclass always has one. *)
Inductive base_class : Type :=
| WithoutFilters
| WithFilters (fs : list (str * Filter)).

(** The attributes the metaclass computes ([__docs__], which no other code
    reads, is left out). *)
Record QPTranslatorClass : Type := {
  __filters__ : list (str * Filter);
  __required_filter_set__ : gset str
}.

Definition as_base (cls : QPTranslatorClass) : base_class :=
  WithFilters (__filters__ cls).

(** [namespace.get("__filters__", {})]: [None] when the class body declares
    no [__filters__]. *)
Definition namespace_filters (declared : option (list (str * Filter)))
  : list (str * Filter) :=
  default [] declared.

(** The loop over [bases], lines 22-24. *)
Definition merge_bases (bases : list base_class) (filters : list (str * Filter))
  : list (str * Filter) :=
  fold_left
    (fun filters base =>
       match base with
       | WithFilters fs => dict_update filters fs
       | WithoutFilters => filters
       end)
    bases filters.

Definition QPTranslatorMetaclass_new
    (bases : list base_class) (declared : option (list (str * Filter)))
  : QPTranslatorClass :=
  let filters := merge_bases bases [] in
  let filters := dict_update filters (namespace_filters declared) in
  let required_filter_set : gset str :=
    list_to_set
      (filter (fun nf => is_required nf.2) (namespace_filters declared)).*1 in
  {| __filters__ := filters;
     __required_filter_set__ := required_filter_set |}.

(** [class QPTranslator(metaclass=QPTranslatorMetaclass): __filters__ = {}] *)
Definition QPTranslator : QPTranslatorClass :=
  QPTranslatorMetaclass_new [] (Some []).

(** ** qp_translator.py: parse *)

(** The order in which CPython iterates a set of strings depends on their
    hashes; all the code relies on is that every element comes once. *)
Class SetOrder : Type := {
  set_iter : gset str -> list str;
  set_iter_perm : forall X, set_iter X ≡ₚ elements X
}.

Definition reserved_keys : list str :=
  [lit "limit"; lit "offset"; lit "sort_by"].

Definition is_reserved (param : str) : bool :=
  bool_decide (param ∈ reserved_keys).

(** [int(v) if v and v.isdigit() else None], for [v = qps.get(...)]. *)
Definition pagination (v : option str) : outcome (option Z) :=
  match v with
  | Some s =>
      if str_truthy s && isdigit s
      then match int s with
           | Return z => Return (Some z)
           | Raise e => Raise e
           end
      else Return None
  | None => Return None
  end.

Definition call_t_parser (param : str) (f : Filter) (arg : pyval) : M pyval :=
  ([ParserCall param arg], t_parser f arg).

Definition call_q_func (param : str) (f : Filter) (value : pyval)
  : M predicate :=
  ([QFuncCall param value], q_func f value).

Definition t_parser_warning : str :=
  lit "t_parser can only raise a ValueError".

(** The two [except] clauses of lines 89-95, as the exception that leaves
    the [try] statement; an exception that is not an [Exception] passes
    through both clauses. *)
Definition parser_handler (e : exn) : exn :=
  match e with
  | ValueError msg => HTTPException HTTP_400_BAD_REQUEST msg
  | _ => if is_Exception e then Warning t_parser_warning else e
  end.

(** The [try] statement of lines 84-95. *)
Definition parse_value (f : Filter) (qps : QueryParams) (param : str)
  : M pyval :=
  try_except
    (if many f
     then let* vs := for_each (fun p => call_t_parser param f (VStr p))
                              (qp_getlist qps param) in
          ret (VList vs)
     else call_t_parser param f (str_or_None (qp_get qps param)))
    (fun e => raise (parser_handler e)).

(** The [for exclusion in f.exclusions] loop of lines 79-82 reaches its
    [break]. *)
Definition excluded (f : Filter) (qps : QueryParams) : bool :=
  existsb (fun exclusion => bool_decide (exclusion ∈ qp_keys qps))
          (exclusions f).

(** The state of the loop: [query] and [invalid_qps]. *)
Abbreviation loop_state := (list (str * predicate) * gset str)%type.

(** One iteration of the loop of lines 72-96. *)
Definition process_param (cls : QPTranslatorClass) (qps : QueryParams)
    (param : str) (st : loop_state) : M loop_state :=
  let '(query, invalid_qps) := st in
  if is_reserved param || dict_contains param query then ret st
  else
    match dict_get param (__filters__ cls) with
    | None => ret (query, invalid_qps ∪ {[param]})
    | Some f =>
        if excluded f qps
        then ret (dict_set param [] query, invalid_qps)
        else
          let* value := parse_value f qps param in
          let* q := call_q_func param f value in
          ret (dict_set param q query, invalid_qps)
    end.

Fixpoint parse_loop (cls : QPTranslatorClass) (qps : QueryParams)
    (params : list str) (st : loop_state) : M loop_state :=
  match params with
  | [] => ret st
  | param :: rest =>
      let* st' := process_param cls qps param st in
      parse_loop cls qps rest st'
  end.

Section Parse.
Context `{SetOrder}.

Definition invalid_detail (invalid_qps : gset str) : str :=
  lit "Invalid query params: " ++ str_join (lit ", ") (set_iter invalid_qps).

Definition required_detail (undefined_required_filters : gset str) : str :=
  lit "Required query params: " ++
  str_join (lit ", ") (set_iter undefined_required_filters).

Definition _check_required_filters (cls : QPTranslatorClass)
    (existing_filters : list str) : outcome unit :=
  if bool_decide (__required_filter_set__ cls = ∅) then Return tt
  else
    let undefined_required_filters :=
      __required_filter_set__ cls ∖ list_to_set existing_filters in
    if bool_decide (undefined_required_filters ≠ ∅)
    then Raise (HTTPException HTTP_400_BAD_REQUEST
                  (required_detail undefined_required_filters))
    else Return tt.

(** Lines 62-96 of [parse]: pagination, sort keys and the loop over the
    request keys. *)
Definition parse_keys (cls : QPTranslatorClass) (qps : QueryParams)
  : M (ParseResult * loop_state) :=
  let limit := qp_get qps (lit "limit") in
  let offset := qp_get qps (lit "offset") in
  let* limit := lift (pagination limit) in
  let* offset := lift (pagination offset) in
  let filter_params :=
    {| query_list := []; sort := qp_getlist qps (lit "sort_by");
       limit := limit; offset := offset |} in
  let* st := parse_loop cls qps (qp_keys qps) ([], ∅) in
  ret (filter_params, st).

(** [parse]: [parse_keys], then lines 97-104. *)
Definition parse (cls : QPTranslatorClass) (qps : QueryParams)
  : M ParseResult :=
  let* (filter_params, (query, invalid_qps)) := parse_keys cls qps in
  if bool_decide (invalid_qps ≠ ∅)
  then raise (HTTPException HTTP_400_BAD_REQUEST (invalid_detail invalid_qps))
  else
    let* _ := lift (_check_required_filters cls (dict_keys query)) in
    ret {| query_list := dict_values query; sort := sort filter_params;
           limit := limit filter_params; offset := offset filter_params |}.

End Parse.

(** A fixed iteration order, to run the definitions on concrete requests. *)
#[export] Instance elements_order : SetOrder :=
  {| set_iter := elements; set_iter_perm := fun X => reflexivity _ |}.

(** * Notions used in the statements *)

(** The descriptor a base class holds under a name. *)
Definition base_get (n : str) (b : base_class) : option Filter :=
  match b with
  | WithFilters fs => dict_get n fs
  | WithoutFilters => None
  end.

(** The descriptor a name inherits from a list of bases: the one of the
    last-listed base that has the name. *)
Fixpoint inherited (n : str) (bases : list base_class) : option Filter :=
  match bases with
  | [] => None
  | b :: bs =>
      match inherited n bs with
      | Some f => Some f
      | None => base_get n b
      end
  end.

(** The [__filters__] of a base is a Python dict: its keys are distinct. *)
Definition wf_base (b : base_class) : Prop :=
  match b with
  | WithFilters fs => NoDup (dict_keys fs)
  | WithoutFilters => True
  end.

(** The value of a call that returns. *)
Definition returned {A} (o : outcome A) : option A :=
  match o with
  | Return y => Some y
  | Raise _ => None
  end.

(** The arguments [parse_value] calls [t_parser] on, in order: every value under the key for a
    [many] descriptor, the value [qps.get] gives otherwise. *)
Definition parser_args (f : Filter) (qps : QueryParams) (param : str)
  : list pyval :=
  if many f then VStr <$> qp_getlist qps param
  else [str_or_None (qp_get qps param)].

(** What [parse_value] hands to [q_func] when every call of [t_parser]
    returns: the list of the parsed values for a [many] descriptor, the
    parsed value otherwise. *)
Definition parsed_value (f : Filter) (qps : QueryParams) (param : str)
  : option pyval :=
  if many f
  then VList <$>
         mapM (fun p => returned (t_parser f (VStr p))) (qp_getlist qps param)
  else returned (t_parser f (str_or_None (qp_get qps param))).

(** The five ways an iteration of the loop can go. *)
Inductive step_view (cls : QPTranslatorClass) (qps : QueryParams)
    (param : str) (query : list (str * predicate)) (invalid_qps : gset str)
  : M loop_state -> Prop :=
| step_skip :
    is_reserved param || dict_contains param query = true ->
    step_view cls qps param query invalid_qps
      ([], Return (query, invalid_qps))
| step_unknown :
    is_reserved param = false ->
    dict_contains param query = false ->
    dict_get param (__filters__ cls) = None ->
    step_view cls qps param query invalid_qps
      ([], Return (query, invalid_qps ∪ {[param]}))
| step_excluded f :
    is_reserved param = false ->
    dict_contains param query = false ->
    dict_get param (__filters__ cls) = Some f ->
    excluded f qps = true ->
    step_view cls qps param query invalid_qps
      ([], Return (dict_set param [] query, invalid_qps))
| step_parsed f v :
    is_reserved param = false ->
    dict_contains param query = false ->
    dict_get param (__filters__ cls) = Some f ->
    excluded f qps = false ->
    parsed_value f qps param = Some v ->
    Forall (fun x => is_Some (returned (t_parser f x)))
           (parser_args f qps param) ->
    step_view cls qps param query invalid_qps
      ((ParserCall param <$> parser_args f qps param) ++ [QFuncCall param v],
       match q_func f v with
       | Return q => Return (dict_set param q query, invalid_qps)
       | Raise e => Raise e
       end)
| step_rejected f pre a post e :
    is_reserved param = false ->
    dict_contains param query = false ->
    dict_get param (__filters__ cls) = Some f ->
    excluded f qps = false ->
    parser_args f qps param = pre ++ a :: post ->
    Forall (fun x => is_Some (returned (t_parser f x))) pre ->
    t_parser f a = Raise e ->
    parsed_value f qps param = None ->
    step_view cls qps param query invalid_qps
      (ParserCall param <$> (pre ++ [a]), Raise (parser_handler e)).

(** A call the loop can make: on behalf of a key that is not reserved, whose
    descriptor is not excluded, with an argument taken from the request (for
    [t_parser]) or the value parsed from it (for [q_func]). *)
Definition event_legit (cls : QPTranslatorClass) (qps : QueryParams)
    (ev : event) : Prop :=
  is_reserved (event_param ev) = false
  /\ exists f,
       dict_get (event_param ev) (__filters__ cls) = Some f
       /\ excluded f qps = false
       /\ match ev with
          | ParserCall p a => a ∈ parser_args f qps p
          | QFuncCall p v => parsed_value f qps p = Some v
          end.

(** The callback called at [ev] returned. *)
Definition event_returns (cls : QPTranslatorClass) (ev : event) : Prop :=
  exists f,
    dict_get (event_param ev) (__filters__ cls) = Some f
    /\ match ev with
       | ParserCall _ a => is_Some (returned (t_parser f a))
       | QFuncCall _ v => is_Some (returned (q_func f v))
       end.

(** The callback called at [ev] raised, and [e] left the iteration. *)
Definition event_raises (cls : QPTranslatorClass) (ev : event) (e : exn)
  : Prop :=
  exists f,
    dict_get (event_param ev) (__filters__ cls) = Some f
    /\ match ev with
       | ParserCall _ a =>
           exists e0, t_parser f a = Raise e0 /\ e = parser_handler e0
       | QFuncCall _ v => q_func f v = Raise e
       end.

(** A run either returns after calls that all returned, or raises at its last
    call, every earlier call having returned. *)
Inductive run_shape (cls : QPTranslatorClass) {A : Type} : M A -> Prop :=
| run_returns tr (a : A) :
    Forall (event_returns cls) tr -> run_shape cls (tr, Return a)
| run_raises tr ev e :
    Forall (event_returns cls) tr -> event_raises cls ev e ->
    run_shape cls (tr ++ [ev], Raise e).

(** The predicate recorded for a key whose descriptor is [f], when its
    iteration returns: the empty one if [f] is excluded, what [q_func] makes of
    the parsed value otherwise. *)
Definition expected_predicate (f : Filter) (qps : QueryParams) (param : str)
  : option predicate :=
  if excluded f qps then Some []
  else match parsed_value f qps param with
       | Some v => returned (q_func f v)
       | None => None
       end.

(** Lines 97-104, on the state the loop returned. *)
Definition parse_finish `{SetOrder} (cls : QPTranslatorClass)
    (filter_params : ParseResult)
    (query : list (str * predicate)) (invalid_qps : gset str)
  : outcome ParseResult :=
  if bool_decide (invalid_qps <> ∅)
  then Raise (HTTPException HTTP_400_BAD_REQUEST (invalid_detail invalid_qps))
  else match _check_required_filters cls (dict_keys query) with
       | Return _ =>
           Return {| query_list := dict_values query;
                     sort := sort filter_params;
                     limit := limit filter_params;
                     offset := offset filter_params |}
       | Raise e => Raise e
       end.

(** A descriptor that keeps to the contract of the data model: its parser
    fails with [ValueError] only, and its predicate builder does not fail. *)
Definition honours_contract (f : Filter) : Prop :=
  (forall a e, t_parser f a = Raise e -> exists msg, e = ValueError msg)
  /\ (forall v, is_Some (returned (q_func f v))).

(** ** A registry to run the definitions on

    [status] is required and boolean; [id] takes several values and is
    excluded by [status]; [page] is excluded by the reserved key [limit];
    [name] takes one value; the parser of [broken] raises a [TypeError]. *)
Definition field_predicate (name : str) (v : pyval) : outcome predicate :=
  Return [(name, v)].

Definition status_filter : Filter :=
  {| q_func := field_predicate (lit "status"); t_parser := bool_parser;
     many := false; exclusions := []; is_required := true;
     description := None |}.

Definition id_filter : Filter :=
  {| q_func := field_predicate (lit "id"); t_parser := default_t_parser;
     many := true; exclusions := [lit "status"]; is_required := false;
     description := None |}.

Definition page_filter : Filter :=
  {| q_func := field_predicate (lit "page"); t_parser := default_t_parser;
     many := false; exclusions := [lit "limit"]; is_required := false;
     description := None |}.

Definition name_filter : Filter :=
  {| q_func := field_predicate (lit "name"); t_parser := default_t_parser;
     many := false; exclusions := []; is_required := false;
     description := None |}.

Definition broken_filter : Filter :=
  {| q_func := field_predicate (lit "broken");
     t_parser := fun _ => Raise (OtherException (lit "TypeError") []);
     many := false; exclusions := []; is_required := false;
     description := None |}.

Definition BaseTranslator : QPTranslatorClass :=
  QPTranslatorMetaclass_new [as_base QPTranslator]
    (Some [(lit "status", status_filter); (lit "id", id_filter)]).

(** A subtype that adds descriptors and redeclares none. *)
Definition sub_declared : list (str * Filter) :=
  [(lit "page", page_filter); (lit "name", name_filter);
   (lit "broken", broken_filter)].

Definition SubTranslator : QPTranslatorClass :=
  QPTranslatorMetaclass_new [as_base BaseTranslator] (Some sub_declared).

(** A request from its pairs, written in ASCII. *)
Definition request (pairs : list (string * string)) : QueryParams :=
  (fun kv => (lit kv.1, lit kv.2)) <$> pairs.

(** * More of the code *)

(** ** str_parsers.py: the parser factories *)

(** A callable [_type]: its [__name__], and what [_type(v)] gives on a
    string. *)
Record pytype : Type := {
  type_name : str;
  type_call : str -> outcome pyval
}.

Definition type_parser_message (_type : pytype) (v : str) : str :=
  lit "Value " ++ v ++ lit " is not correct for type " ++ type_name _type.

(** [get_type_parser(_type)], applied to a string.  [except Exception] lets
    through what is not an [Exception]. *)
Definition get_type_parser (_type : pytype) (v : str) : outcome pyval :=
  match type_call _type v with
  | Return x => Return x
  | Raise e =>
      if is_Exception e
      then Raise (ValueError (type_parser_message _type v))
      else Raise e
  end.

Definition datetime_parser_message : str :=
  lit "Field with date must be in ISO format".

(** [datetime_parser], with [datetime.fromisoformat] as an argument. *)
Definition datetime_parser (fromisoformat : str -> outcome pyval) (v : str)
  : outcome pyval :=
  match fromisoformat v with
  | Return x => Return x
  | Raise e =>
      if is_Exception e then Raise (ValueError datetime_parser_message)
      else Raise e
  end.

(** An enumeration class: the [__name__] of its first base, and its
    members as iteration gives them (name and value, in definition order,
    aliases left out). *)
Record pyenum : Type := {
  enum_base_name : str;
  enum_members : list (str * pyval)
}.

(** [type(v).__name__] *)
Definition pyval_type_name (v : pyval) : str :=
  match v with
  | VNone => lit "NoneType"
  | VBool _ => lit "bool"
  | VInt _ => lit "int"
  | VStr _ => lit "str"
  | VList _ => lit "list"
  | VDict _ => lit "dict"
  end.

Definition join_type_error (i : nat) (v : pyval) : exn :=
  OtherException (lit "TypeError")
    (lit "sequence item " ++ str_of_nat i ++
     lit ": expected str instance, " ++ pyval_type_name v ++ lit " found").

(** The strings of a list of values, or the [TypeError] of [str.join] at the
    first item that is no string, [i] being the index of the head. *)
Fixpoint str_items (i : nat) (items : list pyval) : outcome (list str) :=
  match items with
  | [] => Return []
  | VStr s :: items' =>
      match str_items (S i) items' with
      | Return l => Return (s :: l)
      | Raise e => Raise e
      end
  | v :: _ => Raise (join_type_error i v)
  end.

(** [sep.join(items)] for a list of arbitrary values. *)
Definition str_join_values (sep : str) (items : list pyval) : outcome str :=
  match str_items 0 items with
  | Return l => Return (str_join sep l)
  | Raise e => Raise e
  end.

(** [value == v] for a string [v]: only a string equals a string. *)
Definition is_str_value (value : pyval) (v : str) : bool :=
  match value with
  | VStr s => bool_decide (s = v)
  | _ => false
  end.

(** [f"{enum.__bases__[0].__name__ }({enum_values})"] *)
Definition enum_type_info (enum : pyenum) : outcome str :=
  match str_join_values (lit ", ") (enum_members enum).*2 with
  | Return enum_values =>
      Return (enum_base_name enum ++ lit "(" ++ enum_values ++ lit ")")
  | Raise e => Raise e
  end.

Definition enum_parser_message (v : str) (type_info : str) : str :=
  lit "Value '" ++ v ++ lit "' is not a valid member of " ++ type_info.

(** [get_enum_parser(enum)], applied to a string: [enum(v)] is the member
    whose value is [v], or a [ValueError], which the handler replaces. *)
Definition get_enum_parser (enum : pyenum) (v : str)
  : outcome (str * pyval) :=
  match List.find (fun m => is_str_value m.2 v) (enum_members enum) with
  | Some m => Return m
  | None =>
      match enum_type_info enum with
      | Return type_info =>
          Raise (ValueError (enum_parser_message v type_info))
      | Raise e => Raise e
      end
  end.

(** ** qp_translator.py: the documentation string *)

(** A type argument of a [Filter[T]], by what [issubclass(T, Enum)] does
    with it: an enumeration; another class (or what [issubclass] takes for
    one, such as [list[int]]), of which the [__name__] is used; or an
    argument that is no class ([Optional[int]], [int | None], a type
    variable, [None]), on which [issubclass] raises a [TypeError]. *)
Inductive type_arg : Type :=
| EnumArg (enum : pyenum)
| ClassArg (name : str)
| NonClassArg.

Definition issubclass_type_error : exn :=
  OtherException (lit "TypeError") (lit "issubclass() arg 1 must be a class").

Definition tuple_index_error : exn :=
  OtherException (lit "IndexError") (lit "tuple index out of range").

(** [f"{b}"] for a boolean. *)
Definition str_of_bool (b : bool) : str :=
  if b then lit "True" else lit "False".

Section Docs.
(** [f.__pydantic_generic_metadata__["args"]], which [Filter] does not
    record. *)
Variable generic_args : Filter -> list type_arg.

(** [filter_info], lines 34-44. *)
Definition filter_info (f : Filter) : outcome str :=
  match generic_args f with
  | [] => Raise tuple_index_error
  | type_info :: _ =>
      match match type_info with
            | EnumArg enum => enum_type_info enum
            | ClassArg name => Return name
            | NonClassArg => Raise issubclass_type_error
            end
      with
      | Raise e => Raise e
      | Return type_info =>
          Return
            ((match description f with
              | Some d => if str_truthy d then d ++ lit "<br><br>" else []
              | None => []
              end) ++
             lit "**ValueType:** " ++ type_info ++
             lit "<br>**Many:** " ++ str_of_bool (many f) ++
             lit "<br>**Is Required:** " ++ str_of_bool (is_required f) ++
             (match exclusions f with
              | [] => []
              | _ => lit "<br>**Exclusions:** " ++
                     str_join (lit ", ") (exclusions f)
              end))
      end
  end.

(** The items the generator of lines 47-48 yields, up to the first
    descriptor [filter_info] fails on. *)
Fixpoint docs_items (filters : list (str * Filter)) : outcome (list str) :=
  match filters with
  | [] => Return []
  | (n, f) :: filters' =>
      match filter_info f with
      | Raise e => Raise e
      | Return info =>
          match docs_items filters' with
          | Raise e => Raise e
          | Return items =>
              Return ((lit "<br><h3>" ++ n ++ lit "</h3>" ++ info) :: items)
          end
      end
  end.

(** [namespace["__docs__"]], lines 31-49. *)
Definition make_docs (filters : list (str * Filter)) : outcome str :=
  match filters with
  | [] => Return []
  | _ =>
      match docs_items filters with
      | Raise e => Raise e
      | Return items =>
          Return (lit "<h2>Filters:</h2>" ++ str_join (lit "<br>") items)
      end
  end.

(** [QPTranslatorMetaclass.__new__] with its documentation string: the class
    is made only if the string is. *)
Definition QPTranslatorMetaclass_new_docs
    (bases : list base_class) (declared : option (list (str * Filter)))
  : outcome (QPTranslatorClass * str) :=
  let cls := QPTranslatorMetaclass_new bases declared in
  match make_docs (__filters__ cls) with
  | Return docs => Return (cls, docs)
  | Raise e => Raise e
  end.

(** [get_docs], on a class made with its documentation string. *)
Definition get_docs (cls : QPTranslatorClass * str) : str := cls.2.

End Docs.

(** ** Notions for the statements about [parse] *)

(** The callback calls of the iteration on a key, when it returns. *)
Definition key_events (cls : QPTranslatorClass) (qps : QueryParams)
    (param : str) : list event :=
  if is_reserved param then []
  else match dict_get param (__filters__ cls) with
       | None => []
       | Some f =>
           if excluded f qps then []
           else match parsed_value f qps param with
                | Some v =>
                    (ParserCall param <$> parser_args f qps param)
                    ++ [QFuncCall param v]
                | None => []
                end
       end.

(** What the iteration on a key adds to [query], when it returns. *)
Definition resolved_entry (cls : QPTranslatorClass) (qps : QueryParams)
    (param : str) : list (str * predicate) :=
  if is_reserved param then []
  else match dict_get param (__filters__ cls) with
       | None => []
       | Some f =>
           match expected_predicate f qps param with
           | Some q => [(param, q)]
           | None => []
           end
       end.

(** The iteration without the test [param in query] of line 73. *)
Definition process_param_unguarded (cls : QPTranslatorClass)
    (qps : QueryParams) (param : str) (st : loop_state) : M loop_state :=
  let '(query, invalid_qps) := st in
  if is_reserved param then ret st
  else
    match dict_get param (__filters__ cls) with
    | None => ret (query, invalid_qps ∪ {[param]})
    | Some f =>
        if excluded f qps
        then ret (dict_set param [] query, invalid_qps)
        else
          let* value := parse_value f qps param in
          let* q := call_q_func param f value in
          ret (dict_set param q query, invalid_qps)
    end.

Fixpoint parse_loop_unguarded (cls : QPTranslatorClass) (qps : QueryParams)
    (params : list str) (st : loop_state) : M loop_state :=
  match params with
  | [] => ret st
  | param :: rest =>
      let* st' := process_param_unguarded cls qps param st in
      parse_loop_unguarded cls qps rest st'
  end.

(** Where an exception [parse] raises comes from. *)
Inductive raised_by `{SetOrder} (cls : QPTranslatorClass) (qps : QueryParams)
    (tr : list event) (e : exn) : Prop :=
| raised_by_pagination :
    tr = [] ->
    pagination (qp_get qps (lit "limit")) = Raise e
    \/ pagination (qp_get qps (lit "offset")) = Raise e ->
    raised_by cls qps tr e
| raised_by_parser pre P a f e0 :
    tr = pre ++ [ParserCall P a] ->
    dict_get P (__filters__ cls) = Some f ->
    t_parser f a = Raise e0 ->
    e = parser_handler e0 ->
    raised_by cls qps tr e
| raised_by_builder pre P v f :
    tr = pre ++ [QFuncCall P v] ->
    dict_get P (__filters__ cls) = Some f ->
    q_func f v = Raise e ->
    raised_by cls qps tr e
| raised_by_unknown invalid_qps :
    invalid_qps <> ∅ ->
    (forall k, k ∈ invalid_qps <->
               k ∈ qp_keys qps /\ is_reserved k = false
               /\ dict_get k (__filters__ cls) = None) ->
    e = HTTPException HTTP_400_BAD_REQUEST (invalid_detail invalid_qps) ->
    raised_by cls qps tr e
| raised_by_required missing :
    missing <> ∅ ->
    (forall n, n ∈ missing <->
               n ∈ __required_filter_set__ cls
               /\ ~ (n ∈ qp_keys qps /\ is_reserved n = false)) ->
    e = HTTPException HTTP_400_BAD_REQUEST (required_detail missing) ->
    raised_by cls qps tr e.

(** ** More descriptors to run the definitions on

    [a] and [b] exclude each other; [count] is parsed by a type parser,
    [level] by the parser of an enumeration with integer values, [day] by
    the date parser; [limit] is a required descriptor under a reserved
    name. *)
Definition a_filter : Filter :=
  {| q_func := field_predicate (lit "a"); t_parser := default_t_parser;
     many := false; exclusions := [lit "b"]; is_required := false;
     description := None |}.

Definition b_filter : Filter :=
  {| q_func := field_predicate (lit "b"); t_parser := default_t_parser;
     many := false; exclusions := [lit "a"]; is_required := false;
     description := Some (lit "the other one") |}.

(** A class whose constructor takes strings of decimal digits. *)
Definition natural_type : pytype :=
  {| type_name := lit "Natural";
     type_call := fun s =>
       if isdigit s
       then match int s with
            | Return z => Return (VInt z)
            | Raise e => Raise e
            end
       else Raise (OtherException (lit "TypeError") (lit "not a number")) |}.

(** [class Level(IntEnum): LOW = 1; HIGH = 2] *)
Definition level_enum : pyenum :=
  {| enum_base_name := lit "IntEnum";
     enum_members := [(lit "LOW", VInt 1); (lit "HIGH", VInt 2)] |}.

(** A parser of strings as a [t_parser]; [parse] only calls it on strings. *)
Definition on_str {A} (p : str -> outcome A) (inj : A -> pyval) (v : pyval)
  : outcome pyval :=
  match v with
  | VStr s =>
      match p s with
      | Return x => Return (inj x)
      | Raise e => Raise e
      end
  | _ => Raise (OtherException (lit "TypeError") [])
  end.

Definition count_filter : Filter :=
  {| q_func := field_predicate (lit "count");
     t_parser := on_str (get_type_parser natural_type) id;
     many := false; exclusions := []; is_required := false;
     description := None |}.

Definition level_filter : Filter :=
  {| q_func := field_predicate (lit "level");
     t_parser := on_str (get_enum_parser level_enum) snd;
     many := false; exclusions := []; is_required := false;
     description := None |}.

(** A stand-in for [datetime.fromisoformat] that accepts nothing. *)
Definition no_isoformat (v : str) : outcome pyval :=
  Raise (ValueError (lit "Invalid isoformat string")).

Definition day_filter : Filter :=
  {| q_func := field_predicate (lit "day");
     t_parser := on_str (datetime_parser no_isoformat) id;
     many := false; exclusions := []; is_required := false;
     description := None |}.

Definition more_declared : list (str * Filter) :=
  [(lit "a", a_filter); (lit "b", b_filter); (lit "count", count_filter);
   (lit "level", level_filter); (lit "day", day_filter)].

Definition MoreTranslator : QPTranslatorClass :=
  QPTranslatorMetaclass_new [as_base QPTranslator] (Some more_declared).

Definition LimitTranslator : QPTranslatorClass :=
  QPTranslatorMetaclass_new [as_base QPTranslator]
    (Some [(lit "limit", status_filter)]).

(** Type arguments for the descriptors above: [str] for all of them. *)
Definition str_args (f : Filter) : list type_arg := [ClassArg (lit "str")].


(** [owner] is required, and excluded by [public]. *)
Definition owner_filter : Filter :=
  {| q_func := field_predicate (lit "owner"); t_parser := default_t_parser;
     many := false; exclusions := [lit "public"]; is_required := true;
     description := None |}.

Definition public_filter : Filter :=
  {| q_func := field_predicate (lit "public"); t_parser := bool_parser;
     many := false; exclusions := []; is_required := false;
     description := None |}.

Definition OwnerTranslator : QPTranslatorClass :=
  QPTranslatorMetaclass_new [as_base QPTranslator]
    (Some [(lit "owner", owner_filter); (lit "public", public_filter)]).

(** A second base, which registers [id] as [BaseTranslator] does but with
    another descriptor, and [name]; and a subtype of both bases that declares
    [name] again, with a parser and a predicate builder of its own. *)
Definition single_id_filter : Filter :=
  {| q_func := field_predicate (lit "_id"); t_parser := default_t_parser;
     many := false; exclusions := []; is_required := false;
     description := None |}.

Definition OtherTranslator : QPTranslatorClass :=
  QPTranslatorMetaclass_new [as_base QPTranslator]
    (Some [(lit "id", single_id_filter); (lit "name", name_filter)]).

Definition has_name_filter : Filter :=
  {| q_func := field_predicate (lit "has_name"); t_parser := bool_parser;
     many := false; exclusions := []; is_required := false;
     description := None |}.

Definition merged_declared : list (str * Filter) :=
  [(lit "name", has_name_filter)].

Definition MergedTranslator : QPTranslatorClass :=
  QPTranslatorMetaclass_new [as_base BaseTranslator; as_base OtherTranslator]
    (Some merged_declared).

(** * Properties *)

(** Decides a closed decidable proposition by evaluation. *)
Ltac by_compute := apply (bool_decide_unpack _); vm_compute; exact I.

(** ** Dictionaries *)

Section PyDictFacts.
Context {V : Type}.
Implicit Types (d other : list (str * V)) (k : str) (v : V).

Lemma dict_get_None k d : dict_get k d = None <-> k ∉ dict_keys d.
Proof.
  induction d as [|[k' v'] d IH]; simpl.
  - split; [intros _; apply not_elem_of_nil | done].
  - destruct (decide (k = k')) as [->|Hne].
    + split; [done | intros Hn; exfalso; apply Hn; left].
    + rewrite IH. unfold dict_keys. simpl. rewrite not_elem_of_cons. tauto.
Qed.

Lemma dict_get_Some_elem k v d : dict_get k d = Some v -> (k, v) ∈ d.
Proof.
  induction d as [|[k' v'] d IH]; simpl; [done|].
  destruct (decide (k = k')) as [->|Hne].
  - intros [= ->]. left.
  - intros Hg. right. auto.
Qed.

Lemma dict_get_is_Some k d : is_Some (dict_get k d) <-> k ∈ dict_keys d.
Proof.
  rewrite <- not_eq_None_Some, dict_get_None.
  destruct (decide (k ∈ dict_keys d)); tauto.
Qed.

Lemma dict_elem_get k v d :
  NoDup (dict_keys d) -> (k, v) ∈ d -> dict_get k d = Some v.
Proof.
  unfold dict_keys.
  induction d as [|[k' v'] d IH]; simpl; intros Hnd Hin.
  - by apply elem_of_nil in Hin.
  - apply NoDup_cons in Hnd as [Hk' Hnd].
    apply elem_of_cons in Hin as [[= -> ->]|Hin]; simpl.
    + by case_decide.
    + destruct (decide (k = k')) as [->|Hne]; [|auto].
      exfalso. apply Hk'. apply list_elem_of_fmap. by exists (k', v).
Qed.

Lemma dict_get_set k k' v d :
  dict_get k (dict_set k' v d) =
  if decide (k = k') then Some v else dict_get k d.
Proof.
  induction d as [|[k0 v0] d IH]; simpl.
  - done.
  - destruct (decide (k' = k0)) as [->|Hne]; simpl.
    + by destruct (decide (k = k0)).
    + rewrite IH. destruct (decide (k = k0)) as [->|]; [|done].
      by case_decide.
Qed.

Lemma dict_keys_set k v d :
  dict_keys (dict_set k v d) =
  if decide (k ∈ dict_keys d) then dict_keys d else dict_keys d ++ [k].
Proof.
  unfold dict_keys.
  induction d as [|[k0 v0] d IH].
  - destruct (decide (k ∈ [].*1)) as [Hin|_]; [|done].
    by apply elem_of_nil in Hin.
  - destruct (decide (k ∈ ((k0, v0) :: d).*1)) as [Hin|Hnin];
      cbn [dict_set]; destruct (decide (k = k0)) as [->|Hne]; cbn [fmap list_fmap fst].
    + done.
    + rewrite IH. apply elem_of_cons in Hin as [?|Hin]; [done|].
      destruct (decide (k ∈ d.*1)); done.
    + exfalso. apply Hnin. left.
    + rewrite IH. destruct (decide (k ∈ d.*1)) as [Hin|_]; [|done].
      exfalso. apply Hnin. by right.
Qed.

Lemma elem_of_dict_keys_set k k' v d :
  k ∈ dict_keys (dict_set k' v d) <-> k = k' \/ k ∈ dict_keys d.
Proof.
  rewrite dict_keys_set. destruct (decide (k' ∈ dict_keys d)).
  - split; [tauto | intros [->|]; done].
  - rewrite elem_of_app, list_elem_of_singleton. tauto.
Qed.

Lemma dict_set_NoDup k v d :
  NoDup (dict_keys d) -> NoDup (dict_keys (dict_set k v d)).
Proof.
  intros Hnd. rewrite dict_keys_set. destruct (decide (k ∈ dict_keys d)).
  - done.
  - apply NoDup_app. split_and!; [done | | apply NoDup_singleton].
    intros x Hx Hx'. apply list_elem_of_singleton in Hx'. by subst.
Qed.

Lemma dict_update_NoDup d other :
  NoDup (dict_keys d) -> NoDup (dict_keys (dict_update d other)).
Proof.
  unfold dict_update. revert d.
  induction other as [|[k v] other IH]; simpl; intros d Hnd; [done|].
  apply IH. by apply dict_set_NoDup.
Qed.

Lemma elem_of_dict_keys_update k d other :
  k ∈ dict_keys (dict_update d other) <->
  k ∈ dict_keys d \/ k ∈ dict_keys other.
Proof.
  unfold dict_update. revert d.
  induction other as [|[k0 v0] other IH]; simpl; intros d.
  - rewrite elem_of_nil. tauto.
  - rewrite IH, elem_of_dict_keys_set, elem_of_cons. tauto.
Qed.

(** After [d.update(other)] a key has the value of its last binding in
    [other], or else the one it had in [d]. *)
Lemma dict_get_update_last k d other :
  dict_get k (dict_update d other) =
  match dict_get k (reverse other) with
  | Some v => Some v
  | None => dict_get k d
  end.
Proof.
  unfold dict_update. revert d.
  induction other as [|[k0 v0] other IH] using rev_ind; intros d.
  - done.
  - rewrite fold_left_app, reverse_app. simpl.
    rewrite dict_get_set. destruct (decide (k = k0)); [done | apply IH].
Qed.

Lemma dict_get_reverse k d :
  NoDup (dict_keys d) -> dict_get k (reverse d) = dict_get k d.
Proof.
  intros Hnd. destruct (dict_get k d) as [v|] eqn:Hg.
  - apply dict_elem_get.
    + unfold dict_keys. by rewrite fmap_reverse, reverse_Permutation.
    + apply elem_of_reverse. by apply dict_get_Some_elem.
  - apply dict_get_None. apply dict_get_None in Hg.
    unfold dict_keys in *. by rewrite fmap_reverse, elem_of_reverse.
Qed.

Lemma dict_get_update k d other :
  NoDup (dict_keys other) ->
  dict_get k (dict_update d other) =
  match dict_get k other with
  | Some v => Some v
  | None => dict_get k d
  end.
Proof. intros Hnd. by rewrite dict_get_update_last, dict_get_reverse. Qed.

End PyDictFacts.

(** ** QueryParams *)

Lemma qp_keys_NoDup (qps : QueryParams) : NoDup (qp_keys qps).
Proof. apply dict_update_NoDup. apply NoDup_nil_2. Qed.

Lemma elem_of_qp_keys (qps : QueryParams) (k : str) :
  k ∈ qp_keys qps <-> k ∈ qps.*1.
Proof.
  unfold qp_keys, qp_dict. rewrite elem_of_dict_keys_update.
  unfold dict_keys. simpl. rewrite elem_of_nil. tauto.
Qed.

(** [qps.get(key)] is the value of the last pair with that key. *)
Lemma qp_get_last (qps : QueryParams) (k : str) :
  qp_get qps k = last (qp_getlist qps k).
Proof.
  unfold qp_get, qp_dict, qp_getlist. rewrite dict_get_update_last. simpl.
  transitivity (dict_get k (reverse qps)); [by destruct (dict_get _ _)|].
  induction qps as [|[k0 v0] qps IH] using rev_ind; [done|].
  rewrite reverse_app, filter_app, fmap_app. simpl.
  destruct (decide (k = k0)) as [->|Hne].
  - rewrite filter_cons_True by done. simpl. by rewrite last_snoc.
  - rewrite filter_cons_False by (simpl; congruence).
    rewrite filter_nil. simpl. by rewrite app_nil_r.
Qed.

Lemma qp_get_is_Some (qps : QueryParams) (k : str) :
  k ∈ qp_keys qps -> is_Some (qp_get qps k).
Proof. intros Hk. by apply dict_get_is_Some. Qed.

(** ** The boolean parser *)

(** C8.  The boolean parser returns true on exactly the string "true", false
    on exactly the string "false", and on every other string it raises a
    ValueError whose message names both accepted literals. *)
Theorem bool_parser_spec (s : str) :
  bool_parser (VStr s) =
    (if decide (s = lit "true") then Return (VBool true)
     else if decide (s = lit "false") then Return (VBool false)
     else Raise (ValueError bool_parser_message))
  /\ (bool_parser (VStr s) = Return (VBool true) <-> s = lit "true")
  /\ (bool_parser (VStr s) = Return (VBool false) <-> s = lit "false")
  /\ str_contains (lit "'true'") bool_parser_message = true
  /\ str_contains (lit "'false'") bool_parser_message = true.
Proof.
  assert (Hne : lit "true" <> lit "false") by (vm_compute; discriminate).
  assert (Heq : bool_parser (VStr s) =
    (if decide (s = lit "true") then Return (VBool true)
     else if decide (s = lit "false") then Return (VBool false)
     else Raise (ValueError bool_parser_message))).
  { unfold bool_parser.
    destruct (decide (s = lit "true")) as [->|Ht];
      [|destruct (decide (s = lit "false")) as [->|Hf]].
    - rewrite (bool_decide_true (_ ∈ _)) by (right; left).
      by rewrite (bool_decide_false (_ = _)).
    - rewrite (bool_decide_true (_ ∈ _)) by left.
      by rewrite (bool_decide_true (_ = _)).
    - rewrite bool_decide_false; [done|].
      intros Hin. apply elem_of_cons in Hin as [?|Hin]; [done|].
      apply elem_of_cons in Hin as [?|Hin]; [done|].
      by apply elem_of_nil in Hin. }
  split; [exact Heq|]. rewrite Heq.
  split_and!; [| |by vm_compute..].
  - destruct (decide (s = lit "true")); [done|].
    destruct (decide (s = lit "false")); split; done.
  - destruct (decide (s = lit "true")) as [->|]; [split; done|].
    destruct (decide (s = lit "false")); split; done.
Qed.

(** ** The registry built by the metaclass *)

Lemma inherited_snoc (n : str) (bases : list base_class) (b : base_class) :
  inherited n (bases ++ [b]) =
  match base_get n b with
  | Some f => Some f
  | None => inherited n bases
  end.
Proof.
  induction bases as [|b0 bases IH]; simpl.
  - by destruct (base_get n b).
  - rewrite IH. by destruct (base_get n b).
Qed.

Lemma merge_bases_NoDup bases (filters : list (str * Filter)) :
  NoDup (dict_keys filters) -> NoDup (dict_keys (merge_bases bases filters)).
Proof.
  unfold merge_bases. revert filters.
  induction bases as [|b bases IH]; simpl; intros filters Hnd; [done|].
  apply IH. destruct b; [done | by apply dict_update_NoDup].
Qed.

Lemma merge_bases_get (n : str) bases (filters : list (str * Filter)) :
  Forall wf_base bases ->
  dict_get n (merge_bases bases filters) =
  match inherited n bases with
  | Some f => Some f
  | None => dict_get n filters
  end.
Proof.
  unfold merge_bases. intros Hwf. revert filters.
  induction Hwf as [|b bases Hb Hwf IH]; simpl; intros filters; [done|].
  rewrite IH. destruct (inherited n bases); [done|].
  destruct b as [|fs]; simpl; [done|]. by apply dict_get_update.
Qed.

Lemma elem_of_required_filter_set
    (bases : list base_class) (declared : option (list (str * Filter)))
    (n : str) :
  n ∈ __required_filter_set__ (QPTranslatorMetaclass_new bases declared) <->
  exists f, (n, f) ∈ namespace_filters declared /\ is_required f = true.
Proof.
  unfold QPTranslatorMetaclass_new. simpl.
  rewrite elem_of_list_to_set, list_elem_of_fmap. split.
  - intros [[n' f] [-> Hin]]. apply list_elem_of_filter in Hin as [Hreq Hin].
    exists f. split; [done|]. simpl in Hreq. by apply Is_true_true.
  - intros (f & Hin & Hreq). exists (n, f). split; [done|].
    apply list_elem_of_filter. split; [|done]. simpl. by apply Is_true_true.
Qed.

Section Required.
Context `{SetOrder}.

Lemma elem_of_set_iter (X : gset str) (n : str) : n ∈ set_iter X <-> n ∈ X.
Proof. by rewrite set_iter_perm, elem_of_elements. Qed.

Lemma set_iter_NoDup (X : gset str) : NoDup (set_iter X).
Proof. rewrite set_iter_perm. apply NoDup_elements. Qed.

(** [_check_required_filters] raises exactly when a required name is not
    among the existing ones. *)
Lemma check_required_filters_cases
    (cls : QPTranslatorClass) (existing : list str) :
  let missing := __required_filter_set__ cls ∖ list_to_set existing in
  _check_required_filters cls existing =
  if decide (missing = ∅) then Return tt
  else Raise (HTTPException HTTP_400_BAD_REQUEST (required_detail missing)).
Proof.
  intros missing. unfold _check_required_filters. fold missing.
  destruct (decide (missing = ∅)) as [He|Hne].
  - rewrite (bool_decide_false (missing <> ∅)) by tauto.
    by destruct (bool_decide _).
  - rewrite (bool_decide_true (missing <> ∅)) by done.
    rewrite bool_decide_false; [done|].
    intros He. apply Hne. unfold missing. rewrite He.
    apply set_eq. intros x. rewrite elem_of_difference, elem_of_empty. tauto.
Qed.

End Required.

(** ** One iteration of the loop *)

Lemma bind_ret_l {A B} (a : A) (k : A -> M B) : bind (ret a) k = k a.
Proof. unfold bind, ret. by destruct (k a). Qed.

Lemma bind_Return {A B} (tr : list event) (a : A) (k : A -> M B) :
  bind (tr, Return a) k = (tr ++ (k a).1, (k a).2).
Proof. unfold bind. by destruct (k a). Qed.

Lemma bind_Raise {A B} (tr : list event) (e : exn) (k : A -> M B) :
  bind (tr, Raise e) k = (tr, Raise e).
Proof. done. Qed.

(** The list comprehension of line 86 either parses every value, or stops at
    the first value [t_parser] rejects. *)
Lemma for_each_t_parser (param : str) (f : Filter) (l : list str) :
  (exists ys,
      mapM (fun p => returned (t_parser f (VStr p))) l = Some ys
      /\ for_each (fun p => call_t_parser param f (VStr p)) l =
         (ParserCall param <$> (VStr <$> l), Return ys))
  \/ (exists pre s post e,
         l = pre ++ s :: post
         /\ Forall (fun x => is_Some (returned (t_parser f (VStr x)))) pre
         /\ t_parser f (VStr s) = Raise e
         /\ for_each (fun p => call_t_parser param f (VStr p)) l =
            (ParserCall param <$> (VStr <$> pre ++ [s]), Raise e)).
Proof.
  induction l as [|x l IH].
  - left. by exists [].
  - cbn [for_each]. unfold call_t_parser at 1 3.
    destruct (t_parser f (VStr x)) as [y|e] eqn:Hx.
    + destruct IH as [(ys & Hys & Hrun)|(pre & s & post & e & -> & Hpre & Hs & Hrun)].
      * left. exists (y :: ys). split.
        { apply mapM_Some. constructor; [by rewrite Hx | by apply mapM_Some]. }
        rewrite bind_Return, Hrun. cbn. by rewrite app_nil_r.
      * right. exists (x :: pre), s, post, e. split_and!; [done | | done |].
        { constructor; [by rewrite Hx | done]. }
        rewrite bind_Return, Hrun. by cbn.
    + right. exists [], x, l, e. split_and!; [done | constructor | done | done].
Qed.

Lemma parser_args_many (f : Filter) (qps : QueryParams) (param : str) :
  many f = true -> parser_args f qps param = VStr <$> qp_getlist qps param.
Proof. unfold parser_args. by intros ->. Qed.

Lemma parser_args_single (f : Filter) (qps : QueryParams) (param : str) :
  many f = false ->
  parser_args f qps param = [str_or_None (last (qp_getlist qps param))].
Proof. unfold parser_args. intros ->. by rewrite qp_get_last. Qed.

(** The [try] statement either parses every argument and yields the value for
    [q_func], or leaves through a handler at the first argument [t_parser]
    rejects. *)
Lemma parse_value_cases (f : Filter) (qps : QueryParams) (param : str) :
  (exists v,
      parsed_value f qps param = Some v
      /\ parse_value f qps param =
         (ParserCall param <$> parser_args f qps param, Return v))
  \/ (exists pre a post e,
         parser_args f qps param = pre ++ a :: post
         /\ Forall (fun x => is_Some (returned (t_parser f x))) pre
         /\ t_parser f a = Raise e
         /\ parsed_value f qps param = None
         /\ parse_value f qps param =
            (ParserCall param <$> (pre ++ [a]), Raise (parser_handler e))).
Proof.
  unfold parse_value, parsed_value, parser_args.
  destruct (many f).
  - destruct (for_each_t_parser param f (qp_getlist qps param))
      as [(ys & Hys & Hrun)|(pre & s & post & e & Hl & Hpre & Hs & Hrun)].
    + left. exists (VList ys). rewrite Hys, Hrun. split; [done|].
      cbn. by rewrite app_nil_r.
    + right. exists (VStr <$> pre), (VStr s), (VStr <$> post), e.
      rewrite Hrun, Hl. split_and!.
      * by rewrite fmap_app.
      * by apply Forall_fmap.
      * done.
      * assert (Hn : mapM (fun p => returned (t_parser f (VStr p)))
                          (pre ++ s :: post) = None).
        { apply mapM_None. apply Exists_app. right. left. by rewrite Hs. }
        by rewrite Hn.
      * cbn. by rewrite app_nil_r, fmap_app.
  - unfold call_t_parser.
    destruct (t_parser f (str_or_None (qp_get qps param))) as [y|e] eqn:Hp.
    + left. by exists y.
    + right. exists [], (str_or_None (qp_get qps param)), [], e.
      split_and!; [done | constructor | done | done | done].
Qed.

Section Step.
Context (cls : QPTranslatorClass) (qps : QueryParams).
Implicit Types (param : str) (query : list (str * predicate))
  (invalid_qps : gset str).

(** A reserved key, or one already in [query], leaves the state as it is. *)
Lemma process_param_skip param query invalid_qps :
  is_reserved param || dict_contains param query = true ->
  process_param cls qps param (query, invalid_qps) =
  ([], Return (query, invalid_qps)).
Proof. unfold process_param. by intros ->. Qed.

(** A key without descriptor is recorded and the loop goes on. *)
Lemma process_param_unknown param query invalid_qps :
  is_reserved param = false ->
  dict_contains param query = false ->
  dict_get param (__filters__ cls) = None ->
  process_param cls qps param (query, invalid_qps) =
  ([], Return (query, invalid_qps ∪ {[param]})).
Proof. unfold process_param. by intros -> -> ->. Qed.

(** A key whose descriptor is excluded gets the empty predicate; no callback
    is called and nothing is raised. *)
Lemma process_param_excluded param query invalid_qps f :
  is_reserved param = false ->
  dict_contains param query = false ->
  dict_get param (__filters__ cls) = Some f ->
  excluded f qps = true ->
  process_param cls qps param (query, invalid_qps) =
  ([], Return (dict_set param [] query, invalid_qps)).
Proof. unfold process_param. by intros -> -> -> ->. Qed.

(** Every argument is parsed: [q_func] is called on the parsed value. *)
Lemma process_param_parsed param query invalid_qps f v :
  is_reserved param = false ->
  dict_contains param query = false ->
  dict_get param (__filters__ cls) = Some f ->
  excluded f qps = false ->
  parsed_value f qps param = Some v ->
  process_param cls qps param (query, invalid_qps) =
  ((ParserCall param <$> parser_args f qps param) ++ [QFuncCall param v],
   match q_func f v with
   | Return q => Return (dict_set param q query, invalid_qps)
   | Raise e => Raise e
   end).
Proof.
  unfold process_param. intros -> -> -> -> Hv. cbn.
  destruct (parse_value_cases f qps param)
    as [(v' & Hv' & ->)|(? & ? & ? & ? & _ & _ & _ & Hn & _)];
    [|congruence].
  assert (v' = v) as -> by congruence.
  rewrite bind_Return. unfold call_q_func.
  destruct (q_func f v); cbn; by rewrite ?app_nil_r.
Qed.

(** [t_parser] rejects an argument: the iteration stops there. *)
Lemma process_param_rejected param query invalid_qps f pre a post e :
  is_reserved param = false ->
  dict_contains param query = false ->
  dict_get param (__filters__ cls) = Some f ->
  excluded f qps = false ->
  parser_args f qps param = pre ++ a :: post ->
  Forall (fun x => is_Some (returned (t_parser f x))) pre ->
  t_parser f a = Raise e ->
  process_param cls qps param (query, invalid_qps) =
  (ParserCall param <$> (pre ++ [a]), Raise (parser_handler e)).
Proof.
  unfold process_param. intros -> -> -> -> Hargs Hpre Ha. cbn.
  destruct (parse_value_cases f qps param)
    as [(v' & Hv' & Hrun)|(pre' & a' & post' & e' & Hargs' & Hpre' & Ha' & _ & ->)].
  - exfalso. unfold parsed_value, parser_args in *.
    destruct (many f).
    + apply fmap_Some in Hv' as (ys & Hys & _).
      assert (Hall : Forall (fun x => is_Some (returned (t_parser f x)))
                            (VStr <$> qp_getlist qps param)).
      { apply Forall_fmap. apply mapM_is_Some_1. by rewrite Hys. }
      rewrite Hargs in Hall. apply Forall_app in Hall as [_ Hall].
      apply Forall_cons in Hall as [[y Hy] _]. by rewrite Ha in Hy.
    + destruct pre as [|? pre]; [|by destruct pre].
      injection Hargs as Hargs _. rewrite Hargs, Ha in Hv'. done.
  - rewrite Hargs in Hargs'.
    assert (Hfirst : forall (l1 l2 r1 r2 : list pyval) x1 x2,
      l1 ++ x1 :: r1 = l2 ++ x2 :: r2 ->
      Forall (fun x => is_Some (returned (t_parser f x))) l1 ->
      Forall (fun x => is_Some (returned (t_parser f x))) l2 ->
      returned (t_parser f x1) = None -> returned (t_parser f x2) = None ->
      l1 = l2 /\ x1 = x2).
    { clear. induction l1 as [|y l1 IH];
        intros [|z l2] r1 r2 x1 x2 Heq H1 H2 N1 N2; cbn in Heq.
      - by injection Heq as -> _.
      - injection Heq as -> _.
        apply Forall_cons in H2 as [[? Hs] _]. congruence.
      - injection Heq as -> _.
        apply Forall_cons in H1 as [[? Hs] _]. congruence.
      - injection Heq as -> Heq.
        apply Forall_cons in H1 as [_ H1]. apply Forall_cons in H2 as [_ H2].
        destruct (IH _ _ _ _ _ Heq H1 H2 N1 N2) as [-> ->]. done. }
    destruct (Hfirst _ _ _ _ _ _ Hargs' Hpre Hpre') as [-> ->].
    + by rewrite Ha.
    + by rewrite Ha'.
    + assert (e' = e) as -> by congruence. done.
Qed.

End Step.

Lemma parsed_value_args (f : Filter) (qps : QueryParams) (param : str) v :
  parsed_value f qps param = Some v ->
  Forall (fun x => is_Some (returned (t_parser f x))) (parser_args f qps param).
Proof.
  unfold parsed_value, parser_args. destruct (many f).
  - intros Hv. apply fmap_Some in Hv as (ys & Hys & _).
    apply Forall_fmap. apply mapM_is_Some_1. by rewrite Hys.
  - intros Hv. constructor; [by rewrite Hv | constructor].
Qed.

Lemma process_param_view cls qps param query invalid_qps :
  step_view cls qps param query invalid_qps
    (process_param cls qps param (query, invalid_qps)).
Proof.
  destruct (is_reserved param || dict_contains param query) eqn:Hskip.
  { rewrite process_param_skip by done. by constructor. }
  apply orb_false_iff in Hskip as [Hres Hcont].
  destruct (dict_get param (__filters__ cls)) as [f|] eqn:Hf.
  2: { rewrite process_param_unknown by done. by constructor. }
  destruct (excluded f qps) eqn:Hex.
  { rewrite (process_param_excluded _ _ _ _ _ f) by done.
    by eapply step_excluded. }
  destruct (parse_value_cases f qps param)
    as [(v & Hv & _)|(pre & a & post & e & Hargs & Hpre & Ha & Hn & _)].
  - rewrite (process_param_parsed _ _ _ _ _ f v) by done.
    eapply step_parsed; eauto using parsed_value_args.
  - rewrite (process_param_rejected _ _ _ _ _ f pre a post e) by done.
    by eapply step_rejected.
Qed.

(** ** Runs of the loop *)

Section Runs.
Context (cls : QPTranslatorClass) (qps : QueryParams).
Implicit Types (param : str) (query : list (str * predicate))
  (invalid_qps : gset str) (ev : event) (tr : list event).

Lemma run_shape_bind {A B} (m : M A) (k : A -> M B) :
  run_shape cls m -> (forall a, run_shape cls (k a)) ->
  run_shape cls (bind m k).
Proof.
  intros Hm Hk. destruct Hm as [tr a Htr|tr ev e Htr Hev].
  - rewrite bind_Return. specialize (Hk a).
    destruct (k a) as [tr' r']. cbn.
    inversion Hk as [tr0 b Htr0|tr0 ev e Htr0 Hev]; subst.
    + constructor. by apply Forall_app.
    + rewrite app_assoc. constructor; [by apply Forall_app | done].
  - rewrite bind_Raise. by constructor.
Qed.

Lemma Forall_bind_log {A B} (P : event -> Prop) (m : M A) (k : A -> M B) :
  Forall P m.1 -> (forall a, Forall P (k a).1) -> Forall P (bind m k).1.
Proof.
  destruct m as [tr [a|e]]; cbn; intros Hm Hk; [|done].
  specialize (Hk a). destruct (k a). cbn in *. by apply Forall_app.
Qed.

Lemma process_param_shape param query invalid_qps :
  run_shape cls (process_param cls qps param (query, invalid_qps)).
Proof.
  destruct (process_param_view cls qps param query invalid_qps)
    as [|? ? ?|f ? ? Hf ?|f v ? ? Hf ? Hv Hall|f pre a post e ? ? Hf ? Hargs Hpre Ha ?];
    try (constructor; constructor).
  - assert (Hcalls : Forall (event_returns cls)
                       (ParserCall param <$> parser_args f qps param)).
    { apply Forall_fmap. eapply Forall_impl; [exact Hall|].
      intros x Hx. by exists f. }
    destruct (q_func f v) as [q|e] eqn:Hq.
    + constructor. apply Forall_app. split; [done|].
      constructor; [|constructor]. exists f. split; [done|]. cbn. by rewrite Hq.
    + constructor; [done|]. by exists f.
  - rewrite fmap_app. constructor.
    + apply Forall_fmap. eapply Forall_impl; [exact Hpre|].
      intros x Hx. by exists f.
    + exists f. split; [done|]. by exists e.
Qed.

Lemma parse_loop_shape (params : list str) (st : loop_state) :
  run_shape cls (parse_loop cls qps params st).
Proof.
  revert st. induction params as [|param rest IH]; intros [query invalid_qps].
  - constructor. constructor.
  - cbn [parse_loop]. apply run_shape_bind; [|done].
    apply process_param_shape.
Qed.

Lemma process_param_legit param query invalid_qps :
  Forall (fun ev => event_param ev = param /\ event_legit cls qps ev)
         (process_param cls qps param (query, invalid_qps)).1.
Proof.
  destruct (process_param_view cls qps param query invalid_qps)
    as [|? ? ?|f ? ? Hf ?|f v Hr ? Hf Hex Hv Hall|f pre a post e Hr ? Hf Hex Hargs Hpre Ha ?];
    cbn [fst]; try constructor.
  - apply Forall_app. split.
    + apply Forall_fmap. apply Forall_forall. intros x Hx.
      split; [done|]. split; [done|]. by exists f.
    + constructor; [|constructor].
      split; [done|]. split; [done|]. by exists f.
  - apply Forall_fmap. apply Forall_forall. intros x Hx.
    split; [done|]. split; [done|]. exists f. split_and!; [done..|].
    cbn. rewrite Hargs. apply elem_of_app in Hx as [Hx|Hx].
    + apply elem_of_app. by left.
    + apply list_elem_of_singleton in Hx as ->.
      apply elem_of_app. right. left.
Qed.

(** Every call the loop makes is legitimate, and made for one of the keys it
    iterates over. *)
Lemma parse_loop_legit (params : list str) (st : loop_state) :
  Forall (fun ev => event_param ev ∈ params /\ event_legit cls qps ev)
         (parse_loop cls qps params st).1.
Proof.
  revert st. induction params as [|param rest IH]; intros [query invalid_qps].
  - constructor.
  - cbn [parse_loop]. apply Forall_bind_log.
    + eapply Forall_impl; [apply process_param_legit|].
      intros ev [<- Hl]. split; [left | done].
    + intros st'. eapply Forall_impl; [apply IH|].
      intros ev [Hin Hl]. split; [by right | done].
Qed.

(** Once the loop has raised, the keys that remain are not processed. *)
Lemma parse_loop_raise_app (params rest : list str) (st : loop_state) tr e :
  parse_loop cls qps params st = (tr, Raise e) ->
  parse_loop cls qps (params ++ rest) st = (tr, Raise e).
Proof.
  revert st tr. induction params as [|param params IH]; intros st tr.
  - discriminate.
  - cbn [parse_loop app].
    destruct (process_param cls qps param st) as [tr1 [st1|e1]].
    + rewrite !bind_Return.
      destruct (parse_loop cls qps params st1) as [tr2 r2] eqn:Hl.
      cbn. intros [= <- ->]. by rewrite (IH _ _ Hl).
    + by rewrite !bind_Raise.
Qed.

End Runs.

(** ** The state the loop returns *)

Section LoopState.
Context (cls : QPTranslatorClass) (qps : QueryParams).
Implicit Types (param : str) (query : list (str * predicate))
  (invalid_qps : gset str).

Lemma dict_contains_false {V} (k : str) (d : list (str * V)) :
  dict_contains k d = false <-> dict_get k d = None.
Proof.
  unfold dict_contains. rewrite bool_decide_eq_false. by rewrite dict_get_None.
Qed.

Lemma process_param_return param query invalid_qps tr query1 invalid1 :
  process_param cls qps param (query, invalid_qps) =
    (tr, Return (query1, invalid1)) ->
  (query1 = query /\ invalid1 = invalid_qps
   /\ is_reserved param || dict_contains param query = true)
  \/ (query1 = query /\ invalid1 = invalid_qps ∪ {[param]}
      /\ is_reserved param = false /\ dict_contains param query = false
      /\ dict_get param (__filters__ cls) = None)
  \/ (exists f q,
        query1 = dict_set param q query /\ invalid1 = invalid_qps
        /\ is_reserved param = false /\ dict_contains param query = false
        /\ dict_get param (__filters__ cls) = Some f
        /\ expected_predicate f qps param = Some q).
Proof.
  destruct (process_param_view cls qps param query invalid_qps)
    as [|? ? ?|f ? ? Hf Hex|f v ? ? Hf Hex Hv Hall|f pre a post e ? ? Hf ? Hargs Hpre Ha ?].
  - intros [= <- <- <-]. by left.
  - intros [= <- <- <-]. right. by left.
  - intros [= <- <- <-]. right. right. exists f, [].
    split_and!; try done. unfold expected_predicate. by rewrite Hex.
  - destruct (q_func f v) as [q|e] eqn:Hq; [|discriminate].
    intros [= <- <- <-]. right. right. exists f, q.
    split_and!; try done. unfold expected_predicate. by rewrite Hex, Hv, Hq.
  - discriminate.
Qed.

(** What the loop has done when it returns, started in a state whose [query]
    only holds keys that have a descriptor. *)
Lemma parse_loop_return (params : list str) :
  forall query invalid_qps tr query' invalid',
    (forall k, k ∈ dict_keys query -> is_Some (dict_get k (__filters__ cls))) ->
    parse_loop cls qps params (query, invalid_qps) =
      (tr, Return (query', invalid')) ->
    (forall k, k ∈ dict_keys query' -> is_Some (dict_get k (__filters__ cls)))
    /\ (forall k,
          k ∈ invalid' <->
          k ∈ invalid_qps
          \/ (k ∈ params /\ is_reserved k = false
              /\ dict_get k (__filters__ cls) = None))
    /\ (forall k v, dict_get k query = Some v -> dict_get k query' = Some v)
    /\ (forall k f,
          k ∈ params -> is_reserved k = false ->
          dict_get k (__filters__ cls) = Some f ->
          dict_get k query = None ->
          exists q, expected_predicate f qps k = Some q
                    /\ dict_get k query' = Some q)
    /\ (forall k,
          k ∈ dict_keys query' ->
          k ∈ dict_keys query
          \/ (k ∈ params /\ is_reserved k = false)).
Proof.
  induction params as [|param rest IH];
    intros query invalid_qps tr query' invalid' Hinv.
  - intros [= <- <- <-]. split_and!; try done.
    + intros k. rewrite elem_of_nil. tauto.
    + intros k f Hk. by apply elem_of_nil in Hk.
    + intros k Hk. by left.
  - cbn [parse_loop].
    destruct (process_param cls qps param (query, invalid_qps))
      as [tr1 [[query1 invalid1]|e1]] eqn:Hstep; [|discriminate].
    rewrite bind_Return.
    destruct (parse_loop cls qps rest (query1, invalid1))
      as [tr2 r2] eqn:Hloop. cbn. intros [= <- ->].
    apply process_param_return in Hstep.
    assert (Hinv1 : forall k, k ∈ dict_keys query1 ->
                              is_Some (dict_get k (__filters__ cls))).
    { destruct Hstep as [(-> & _)|[(-> & _)|(f & q & -> & _ & _ & _ & Hf & _)]];
        [done..|].
      intros k Hk. apply elem_of_dict_keys_set in Hk as [->|Hk]; [|by auto].
      by rewrite Hf. }
    destruct (IH _ _ _ _ _ Hinv1 Hloop) as (Hi & Hinvalid & Hkeep & Hnew & Hdom).
    split; [done|].
    destruct Hstep as [(-> & -> & Hskip)|[(-> & -> & Hr & Hc & Hf)
                      |(f & q & -> & -> & Hr & Hc & Hf & Hq)]].
    + (* skipped *)
      split_and!.
      * intros k. rewrite Hinvalid, elem_of_cons.
        split; [intros [?|(? & ? & ?)]; by auto|].
        intros [?|([->|?] & Hkr & Hkf)]; [by auto| |by auto].
        exfalso. rewrite Hkr in Hskip. cbn in Hskip.
        apply bool_decide_eq_true in Hskip. apply Hinv in Hskip.
        rewrite Hkf in Hskip. by destruct Hskip.
      * done.
      * intros k f [->|Hk]%elem_of_cons Hkr Hkf Hkq; [|by eauto].
        exfalso. rewrite Hkr in Hskip. cbn in Hskip.
        apply bool_decide_eq_true, dict_get_is_Some in Hskip.
        rewrite Hkq in Hskip. by destruct Hskip.
      * intros k Hk. destruct (Hdom k Hk) as [?|[? ?]]; [by left|].
        right. split; [by right | done].
    + (* recorded as invalid *)
      split_and!.
      * intros k. rewrite Hinvalid, elem_of_union, elem_of_singleton, elem_of_cons.
        split; [intros [[?| ->]|(? & ? & ?)]; by auto|].
        intros [?|([->|?] & ? & ?)]; by auto.
      * done.
      * intros k f [->|Hk]%elem_of_cons Hkr Hkf Hkq; [congruence | by eauto].
      * intros k Hk. destruct (Hdom k Hk) as [?|[? ?]]; [by left|].
        right. split; [by right | done].
    + (* resolved *)
      apply dict_contains_false in Hc.
      split_and!.
      * intros k. rewrite Hinvalid, elem_of_cons.
        split; [intros [?|(? & ? & ?)]; by auto|].
        intros [?|([->|?] & ? & ?)]; [by auto | congruence | by auto].
      * intros k v Hk. apply Hkeep. rewrite dict_get_set.
        destruct (decide (k = param)) as [->|]; [congruence | done].
      * intros k g [->|Hk]%elem_of_cons Hkr Hkf Hkq.
        { assert (g = f) as -> by congruence. exists q. split; [done|].
          apply Hkeep. rewrite dict_get_set. by case_decide. }
        destruct (decide (k = param)) as [->|Hne].
        { assert (g = f) as -> by congruence. exists q. split; [done|].
          apply Hkeep. rewrite dict_get_set. by case_decide. }
        apply Hnew; try done. rewrite dict_get_set. by case_decide.
      * intros k Hk. destruct (Hdom k Hk) as [Hk'|[? ?]].
        { apply elem_of_dict_keys_set in Hk' as [->|?]; [|by left].
          right. split; [left | done]. }
        right. split; [by right | done].
Qed.

End LoopState.

(** ** The whole of [parse] *)

Section ParseFacts.
Context `{SetOrder}.
Context (cls : QPTranslatorClass) (qps : QueryParams).

Lemma parse_after_keys tr filter_params query invalid_qps :
  parse_keys cls qps = (tr, Return (filter_params, (query, invalid_qps))) ->
  parse cls qps = (tr, parse_finish cls filter_params query invalid_qps).
Proof.
  unfold parse, parse_finish. intros ->. rewrite bind_Return.
  destruct (bool_decide (invalid_qps <> ∅)); cbn; [by rewrite app_nil_r|].
  destruct (_check_required_filters cls (dict_keys query));
    cbn; by rewrite app_nil_r.
Qed.

Lemma parse_keys_raise tr e :
  parse_keys cls qps = (tr, Raise e) -> parse cls qps = (tr, Raise e).
Proof. unfold parse. by intros ->. Qed.

(** [parse_keys] either fails on a pagination value before any key is looked
    at, or runs the loop over the request keys from the empty state. *)
Lemma parse_keys_cases :
  (exists e, parse_keys cls qps = ([], Raise e)
             /\ (pagination (qp_get qps (lit "limit")) = Raise e
                 \/ pagination (qp_get qps (lit "offset")) = Raise e))
  \/ (exists l o,
        pagination (qp_get qps (lit "limit")) = Return l
        /\ pagination (qp_get qps (lit "offset")) = Return o
        /\ parse_keys cls qps =
           ((parse_loop cls qps (qp_keys qps) ([], ∅)).1,
            match (parse_loop cls qps (qp_keys qps) ([], ∅)).2 with
            | Return st =>
                Return ({| query_list := [];
                           sort := qp_getlist qps (lit "sort_by");
                           limit := l; offset := o |}, st)
            | Raise e => Raise e
            end)).
Proof.
  unfold parse_keys.
  destruct (pagination (qp_get qps (lit "limit"))) as [l|e] eqn:Hl.
  2: { left. exists e. split; [done | by left]. }
  destruct (pagination (qp_get qps (lit "offset"))) as [o|e] eqn:Ho.
  2: { left. exists e. split; [done | by right]. }
  right. exists l, o. split_and!; [done..|].
  unfold lift. rewrite !bind_Return. cbn.
  destruct (parse_loop cls qps (qp_keys qps) ([], ∅)) as [tr [st|e]]; cbn;
    by rewrite ?app_nil_r.
Qed.

Lemma parse_log : (parse cls qps).1 = (parse_keys cls qps).1.
Proof.
  destruct (parse_keys cls qps) as [tr [[fp [query invalid_qps]]|e]] eqn:Hk.
  - by rewrite (parse_after_keys _ _ _ _ Hk).
  - by rewrite (parse_keys_raise _ _ Hk).
Qed.

Lemma parse_keys_log :
  (parse_keys cls qps).1 = []
  \/ (parse_keys cls qps).1 = (parse_loop cls qps (qp_keys qps) ([], ∅)).1.
Proof.
  destruct parse_keys_cases as [(e & -> & _)|(l & o & _ & _ & ->)];
    [by left | by right].
Qed.

(** Every callback call [parse] makes is a legitimate call of the loop, for a
    key of the request. *)
Lemma parse_legit :
  Forall (fun ev => event_param ev ∈ qp_keys qps /\ event_legit cls qps ev)
         (parse cls qps).1.
Proof.
  rewrite parse_log. destruct parse_keys_log as [->| ->]; [constructor|].
  apply parse_loop_legit.
Qed.

(** [parse_keys] returns exactly when the pagination values are accepted
    and the loop returns. *)
Lemma parse_keys_return tr filter_params st :
  parse_keys cls qps = (tr, Return (filter_params, st)) ->
  parse_loop cls qps (qp_keys qps) ([], ∅) = (tr, Return st)
  /\ pagination (qp_get qps (lit "limit")) = Return (limit filter_params)
  /\ pagination (qp_get qps (lit "offset")) = Return (offset filter_params)
  /\ sort filter_params = qp_getlist qps (lit "sort_by").
Proof.
  destruct parse_keys_cases as [(e & -> & _)|(l & o & Hl & Ho & ->)];
    [discriminate|].
  destruct (parse_loop cls qps (qp_keys qps) ([], ∅)) as [tr' [st'|e]];
    cbn; [|discriminate].
  by intros [= <- <- <-].
Qed.

(** A run of [parse_keys] has the shape of a run of the loop, unless it
    failed on a pagination value, in which case no call was made. *)
Lemma parse_keys_shape :
  (parse_keys cls qps).1 = [] \/ run_shape cls (parse_keys cls qps).
Proof.
  destruct parse_keys_cases as [(e & -> & _)|(l & o & _ & _ & ->)];
    [by left | right].
  pose proof (parse_loop_shape cls qps (qp_keys qps) ([], ∅)) as Hs.
  destruct (parse_loop cls qps (qp_keys qps) ([], ∅)) as [tr r]. cbn.
  inversion Hs; subst; by constructor.
Qed.

End ParseFacts.

(** ** The required names *)

Section RequiredNames.
Context `{SetOrder}.

(** C1.  The required-name set of a type holds exactly the names of the
    descriptors declared on the type itself whose required flag is set.  A
    name the type does not declare is therefore not in it, whatever the
    bases say: it is never among the missing names [_check_required_filters]
    computes and reports; and a type that declares no required descriptor
    passes the check on every request, so that [parse] returns its result
    whenever the loop has gone through the keys without finding an unknown
    name, whichever inherited names the request lacks. *)
Theorem required_set_direct_only
    (bases : list base_class) (declared : option (list (str * Filter))) :
  let cls := QPTranslatorMetaclass_new bases declared in
  (forall n,
      n ∈ __required_filter_set__ cls <->
      exists f, (n, f) ∈ namespace_filters declared /\ is_required f = true)
  /\ (forall n,
         n ∉ dict_keys (namespace_filters declared) ->
         (n ∉ __required_filter_set__ cls)
         /\ (forall existing,
              (n ∉ set_iter
                     (__required_filter_set__ cls ∖ list_to_set existing))
              /\ (_check_required_filters cls existing = Return tt
                  \/ _check_required_filters cls existing =
                     Raise (HTTPException HTTP_400_BAD_REQUEST
                              (required_detail
                                 (__required_filter_set__ cls
                                    ∖ list_to_set existing))))))
  /\ ((forall n f, (n, f) ∈ namespace_filters declared ->
                   is_required f = false) ->
      (forall existing, _check_required_filters cls existing = Return tt)
      /\ (forall qps tr filter_params query,
             parse_keys cls qps = (tr, Return (filter_params, (query, ∅))) ->
             parse cls qps =
             (tr, Return {| query_list := dict_values query;
                            sort := sort filter_params;
                            limit := limit filter_params;
                            offset := offset filter_params |}))).
Proof.
  intros cls.
  assert (Hreq : forall n,
      n ∈ __required_filter_set__ cls <->
      exists f, (n, f) ∈ namespace_filters declared /\ is_required f = true)
    by apply elem_of_required_filter_set.
  split_and!.
  - exact Hreq.
  - intros n Hn.
    assert (Hnot : n ∉ __required_filter_set__ cls).
    { rewrite Hreq. intros (f & Hin & _). apply Hn.
      apply list_elem_of_fmap. by exists (n, f). }
    split; [done|]. intros existing. split.
    + rewrite elem_of_set_iter, elem_of_difference. tauto.
    + rewrite (check_required_filters_cases cls existing). cbv zeta.
      destruct (decide (_ = ∅)); [by left | by right].
  - intros Hnone.
    assert (He : __required_filter_set__ cls = ∅).
    { apply set_eq. intros n. rewrite Hreq, elem_of_empty.
      split; [|done]. intros (f & Hin & Hr). apply Hnone in Hin.
      congruence. }
    assert (Hcheck : forall existing,
               _check_required_filters cls existing = Return tt).
    { intros existing. unfold _check_required_filters.
      by rewrite bool_decide_true. }
    split; [done|]. intros qps tr fp query Hkeys.
    rewrite (parse_after_keys _ _ _ _ _ _ Hkeys). unfold parse_finish.
    rewrite bool_decide_false by (intros Hne; by apply Hne).
    by rewrite Hcheck.
Qed.

End RequiredNames.

(** ** Failing parsers *)

Lemma parse_loop_app (cls : QPTranslatorClass) (qps : QueryParams)
    (params rest : list str) (st : loop_state) :
  parse_loop cls qps (params ++ rest) st =
  bind (parse_loop cls qps params st) (parse_loop cls qps rest).
Proof.
  revert st. induction params as [|param params IH]; intros st.
  - cbn [app parse_loop]. by rewrite bind_ret_l.
  - cbn [app parse_loop].
    destruct (process_param cls qps param st) as [tr1 [st1|e1]]; [|done].
    rewrite !bind_Return, IH.
    destruct (parse_loop cls qps params st1) as [tr2 [st2|e2]].
    + cbn [fst snd]. rewrite !bind_Return. cbn. by rewrite app_assoc.
    + done.
Qed.

(** A call of [t_parser] that raises cannot be among calls that returned. *)
Lemma failing_call_not_returned (cls : QPTranslatorClass)
    (tr : list event) (P : str) (a : pyval) (f : Filter) (e0 : exn) :
  Forall (event_returns cls) tr ->
  dict_get P (__filters__ cls) = Some f ->
  t_parser f a = Raise e0 ->
  ParserCall P a ∉ tr.
Proof.
  intros Hall Hf Ha Hin. rewrite Forall_forall in Hall.
  destruct (Hall _ Hin) as (f' & Hf' & Hret). cbn in Hf', Hret.
  assert (f' = f) as -> by congruence. rewrite Ha in Hret. by destruct Hret.
Qed.

(** In a run, a call of [t_parser] that raises is the last call, and what
    leaves the run is what the handlers make of the exception. *)
Lemma run_shape_failing_call (cls : QPTranslatorClass) {A} (m : M A)
    (P : str) (a : pyval) (f : Filter) (e0 : exn) :
  run_shape cls m ->
  ParserCall P a ∈ m.1 ->
  dict_get P (__filters__ cls) = Some f ->
  t_parser f a = Raise e0 ->
  m.2 = Raise (parser_handler e0)
  /\ exists pre, m.1 = pre ++ [ParserCall P a] /\ Forall (event_returns cls) pre.
Proof.
  intros Hs Hin Hf Ha. destruct Hs as [tr b Htr|tr ev e Htr Hev]; cbn in *.
  - by destruct (failing_call_not_returned cls tr P a f e0).
  - apply elem_of_app in Hin as [Hin|Hin].
    { by destruct (failing_call_not_returned cls tr P a f e0). }
    apply list_elem_of_singleton in Hin as <-.
    destruct Hev as (f' & Hf' & e0' & Ha' & ->). cbn in Hf'.
    assert (f' = f) as -> by congruence.
    assert (e0' = e0) as -> by congruence.
    split; [done|]. by exists tr.
Qed.

Lemma parser_handler_ValueError msg :
  parser_handler (ValueError msg) = HTTPException HTTP_400_BAD_REQUEST msg.
Proof. done. Qed.

(** Whatever is not a [ValueError] leaves the handlers as something that is
    not an [HTTPException]. *)
Lemma parser_handler_internal e0 :
  (forall msg, e0 <> ValueError msg) ->
  is_HTTPException (parser_handler e0) = false.
Proof. intros Hne. destruct e0; cbn; try done. by destruct (Hne msg). Qed.

Section FailingParser.
Context `{SetOrder}.

(** C4.  In any call of [parse], if a call of a descriptor's parser raises
    [e0], that call is the last callback call made, [parse] ends by raising
    what the handlers make of [e0], and the loop run on the keys up to that
    one alone ends the same way: the keys after it are not processed.  For
    a ValueError the result is the client error (status 400) whose detail is
    the parser's message, never one batched with unknown names; for anything
    else what is raised is not an HTTPException, so it cannot be
    mistaken for one of the three client errors. *)
Theorem parser_failure_propagates
    (cls : QPTranslatorClass) (qps : QueryParams)
    (tr : list event) (r : outcome ParseResult)
    (P : str) (a : pyval) (f : Filter) (e0 : exn) :
  parse cls qps = (tr, r) ->
  ParserCall P a ∈ tr ->
  dict_get P (__filters__ cls) = Some f ->
  t_parser f a = Raise e0 ->
  r = Raise (parser_handler e0)
  /\ (exists pre,
         tr = pre ++ [ParserCall P a] /\ Forall (event_returns cls) pre)
  /\ (forall before after,
         qp_keys qps = before ++ P :: after ->
         parse_loop cls qps (before ++ [P]) ([], ∅) =
         (tr, Raise (parser_handler e0)))
  /\ (forall msg,
         e0 = ValueError msg ->
         r = Raise (HTTPException HTTP_400_BAD_REQUEST msg))
  /\ ((forall msg, e0 <> ValueError msg) ->
      exists e', r = Raise e' /\ is_HTTPException e' = false).
Proof.
  intros Hparse Hin Hf Ha.
  assert (Hlog : (parse_keys cls qps).1 = tr).
  { by rewrite <- parse_log, Hparse. }
  destruct (parse_keys_cases cls qps)
    as [(e & Hk & _)|(l & o & _ & _ & Hk)].
  { rewrite Hk in Hlog. cbn in Hlog. subst tr. by apply elem_of_nil in Hin. }
  pose proof (parse_loop_shape cls qps (qp_keys qps) ([], ∅)) as Hshape.
  rewrite Hk in Hlog. cbn in Hlog.
  destruct (run_shape_failing_call cls _ P a f e0 Hshape)
    as (Hres & pre & Hpre & Hret); [by rewrite Hlog | done | done |].
  rewrite Hlog in Hpre.
  rewrite Hres in Hk.
  assert (Hr : r = Raise (parser_handler e0)).
  { rewrite Hlog in Hk. apply parse_keys_raise in Hk. congruence. }
  split; [done|]. split; [by exists pre|]. split_and!.
  - intros before after Hkeys.
    assert (Hloop : parse_loop cls qps (qp_keys qps) ([], ∅) =
                    (tr, Raise (parser_handler e0))).
    { destruct (parse_loop cls qps (qp_keys qps) ([], ∅)); cbn in *.
      congruence. }
    replace (before ++ P :: after) with ((before ++ [P]) ++ after) in Hkeys
      by (by rewrite <- app_assoc).
    rewrite Hkeys, parse_loop_app in Hloop.
    pose proof (parse_loop_shape cls qps (before ++ [P]) ([], ∅)) as Hs1.
    destruct (parse_loop cls qps (before ++ [P]) ([], ∅))
      as [tr1 [st1|e1]] eqn:Hl1; [|by rewrite bind_Raise in Hloop].
    exfalso. rewrite bind_Return in Hloop.
    pose proof (parse_loop_legit cls qps after st1) as Hlegit.
    destruct (parse_loop cls qps after st1) as [tr2 r2]. cbn in *.
    injection Hloop as <- _.
    apply elem_of_app in Hin as [Hin|Hin].
    + inversion Hs1 as [? ? Hall|]; subst.
      by destruct (failing_call_not_returned cls tr1 P a f e0).
    + rewrite Forall_forall in Hlegit. destruct (Hlegit _ Hin) as [HP _].
      cbn in HP. pose proof (qp_keys_NoDup qps) as Hnd.
      rewrite Hkeys in Hnd. apply NoDup_app in Hnd as (_ & Hdisj & _).
      apply (Hdisj P); [|done]. apply elem_of_app. right. left.
  - intros msg ->. by rewrite Hr.
  - intros Hne. exists (parser_handler e0). split; [done|].
    by apply parser_handler_internal.
Qed.

End FailingParser.

(** ** Unknown names *)

Section Unknown.
Context `{SetOrder}.

(** C5.  An iteration on a key that is not reserved and has no descriptor
    records the name and returns, so that the loop goes on.  When the loop
    has gone through all the keys, the recorded names are exactly the
    request keys that are not reserved and have no descriptor; if there is
    any, [parse] raises one client error (status 400) whose detail is
    'Invalid query params: ' followed by those names, each once, joined with
    ', '. *)
Theorem unknown_params_batched
    (cls : QPTranslatorClass) (qps : QueryParams) (tr : list event)
    (filter_params : ParseResult) (query : list (str * predicate))
    (invalid_qps : gset str) :
  parse_keys cls qps = (tr, Return (filter_params, (query, invalid_qps))) ->
  (forall k rest query0 invalid0,
      is_reserved k = false ->
      dict_get k (__filters__ cls) = None ->
      dict_contains k query0 = false ->
      process_param cls qps k (query0, invalid0) =
        ([], Return (query0, invalid0 ∪ {[k]}))
      /\ parse_loop cls qps (k :: rest) (query0, invalid0) =
         parse_loop cls qps rest (query0, invalid0 ∪ {[k]}))
  /\ (forall k,
         k ∈ invalid_qps <->
         k ∈ qp_keys qps /\ is_reserved k = false
         /\ dict_get k (__filters__ cls) = None)
  /\ (invalid_qps <> ∅ ->
      parse cls qps =
        (tr, Raise (HTTPException HTTP_400_BAD_REQUEST
                      (lit "Invalid query params: " ++
                       str_join (lit ", ") (set_iter invalid_qps))))
      /\ NoDup (set_iter invalid_qps)
      /\ (forall k,
             k ∈ set_iter invalid_qps <->
             k ∈ qp_keys qps /\ is_reserved k = false
             /\ dict_get k (__filters__ cls) = None)).
Proof.
  intros Hkeys.
  assert (Hinv : forall k,
             k ∈ invalid_qps <->
             k ∈ qp_keys qps /\ is_reserved k = false
             /\ dict_get k (__filters__ cls) = None).
  { apply parse_keys_return in Hkeys as (Hloop & _).
    apply parse_loop_return in Hloop as (_ & Hinvalid & _).
    - intros k. rewrite Hinvalid, elem_of_empty. tauto.
    - intros k Hk. by apply elem_of_nil in Hk. }
  split_and!.
  - intros k rest query0 invalid0 Hr Hf Hc.
    assert (Hstep : process_param cls qps k (query0, invalid0) =
                    ([], Return (query0, invalid0 ∪ {[k]})))
      by by apply process_param_unknown.
    split; [done|]. cbn [parse_loop]. rewrite Hstep. apply bind_ret_l.
  - exact Hinv.
  - intros Hne. split_and!.
    + rewrite (parse_after_keys _ _ _ _ _ _ Hkeys). unfold parse_finish.
      by rewrite bool_decide_true.
    + apply set_iter_NoDup.
    + intros k. by rewrite elem_of_set_iter.
Qed.

End Unknown.

(** ** Exclusions *)

Lemma excluded_true (f : Filter) (qps : QueryParams) :
  excluded f qps = true <->
  exists x, x ∈ exclusions f /\ x ∈ qp_keys qps.
Proof.
  unfold excluded. rewrite existsb_exists. split.
  - intros (x & Hx & Hk). exists x. split; [by apply list_elem_of_In|].
    by apply bool_decide_eq_true in Hk.
  - intros (x & Hx & Hk). exists x. split; [by apply list_elem_of_In|].
    by apply bool_decide_eq_true.
Qed.

Section Exclusions.
Context `{SetOrder}.

(** What exclusion does to a key the loop looks up. *)
Lemma excluded_param_suppressed
    (cls : QPTranslatorClass) (qps : QueryParams) (P : str) (f : Filter) :
  P ∈ qp_keys qps ->
  is_reserved P = false ->
  dict_get P (__filters__ cls) = Some f ->
  excluded f qps = true ->
  (forall query invalid_qps,
      dict_contains P query = false ->
      process_param cls qps P (query, invalid_qps) =
      ([], Return (dict_set P [] query, invalid_qps)))
  /\ (forall ev, ev ∈ (parse cls qps).1 -> event_param ev <> P)
  /\ (forall tr filter_params query invalid_qps,
         parse_keys cls qps =
           (tr, Return (filter_params, (query, invalid_qps))) ->
         dict_get P query = Some []
         /\ P ∉ __required_filter_set__ cls ∖ list_to_set (dict_keys query)).
Proof.
  intros HP Hr Hf Hex. split_and!.
  - intros query invalid_qps Hc. by eapply process_param_excluded.
  - intros ev Hev HevP.
    pose proof (parse_legit cls qps) as Hlegit.
    rewrite Forall_forall in Hlegit.
    destruct (Hlegit _ Hev) as (_ & _ & f' & Hf' & Hex' & _).
    rewrite HevP in Hf'. congruence.
  - intros tr fp query invalid_qps Hkeys.
    apply parse_keys_return in Hkeys as (Hloop & _).
    apply parse_loop_return in Hloop as (_ & _ & _ & Hnew & _).
    2: { intros k Hk. by apply elem_of_nil in Hk. }
    destruct (Hnew P f HP Hr Hf eq_refl) as (q & Hq & Hget).
    unfold expected_predicate in Hq. rewrite Hex in Hq.
    injection Hq as <-. split; [done|].
    rewrite elem_of_difference, elem_of_list_to_set.
    intros [_ Hn]. apply Hn. apply dict_get_is_Some. by rewrite Hget.
Qed.

(** C9.  The exclusion test looks for each exclusion among all the request
    keys, the reserved ones included.  So for a key P the loop looks up, whose
    descriptor lists a reserved key that the request holds: the descriptor is
    excluded, its iteration assigns P the empty predicate without calling
    anything, no call of [parse] calls its parser, and P holds the empty
    predicate when the loop is through; while the iteration on the reserved
    key itself returns the state unchanged, whatever the registry holds under
    that name. *)
Theorem reserved_key_excludes
    (cls : QPTranslatorClass) (qps : QueryParams) (P : str) (f : Filter)
    (reserved : str) :
  P ∈ qp_keys qps ->
  is_reserved P = false ->
  dict_get P (__filters__ cls) = Some f ->
  reserved ∈ reserved_keys ->
  reserved ∈ exclusions f ->
  reserved ∈ qp_keys qps ->
  excluded f qps = true
  /\ (forall st,
         process_param cls qps reserved st = ([], Return st))
  /\ (forall query invalid_qps,
         dict_contains P query = false ->
         process_param cls qps P (query, invalid_qps) =
         ([], Return (dict_set P [] query, invalid_qps)))
  /\ (forall a, ParserCall P a ∉ (parse cls qps).1)
  /\ (forall tr filter_params query invalid_qps,
         parse_keys cls qps =
           (tr, Return (filter_params, (query, invalid_qps))) ->
         dict_get P query = Some []).
Proof.
  intros HP Hr Hf Hres Hx Hxk.
  assert (Hex : excluded f qps = true) by (apply excluded_true; eauto).
  destruct (excluded_param_suppressed cls qps P f HP Hr Hf Hex)
    as (Hstep & Hlog & Hfinal).
  split_and!; [done | | done | |].
  - intros [query invalid_qps]. apply process_param_skip.
    unfold is_reserved. by rewrite bool_decide_true.
  - intros a Hin. by apply (Hlog _ Hin).
  - intros tr fp query invalid_qps Hkeys.
    by destruct (Hfinal _ _ _ _ Hkeys).
Qed.

End Exclusions.

(** ** Which values are parsed *)

Lemma returned_Some {A} (o : outcome A) (y : A) :
  returned o = Some y <-> o = Return y.
Proof. destruct o; cbn; split; congruence. Qed.

Lemma parsed_value_many (f : Filter) (qps : QueryParams) (P : str) v :
  many f = true ->
  parsed_value f qps P = Some v <->
  exists ys, v = VList ys
             /\ Forall2 (fun s y => t_parser f (VStr s) = Return y)
                        (qp_getlist qps P) ys.
Proof.
  intros Hm. unfold parsed_value. rewrite Hm, fmap_Some. split.
  - intros (ys & Hys & ->). exists ys. split; [done|].
    apply mapM_Some in Hys. eapply Forall2_impl; [exact Hys|].
    intros s y. by rewrite returned_Some.
  - intros (ys & -> & Hys). exists ys. split; [|done].
    apply mapM_Some. eapply Forall2_impl; [exact Hys|].
    intros s y. by rewrite returned_Some.
Qed.

Section ParsedValues.
Context `{SetOrder}.

(** C3 as the code has it.  For a key P the loop looks up, whose descriptor
    is not excluded: with [many] set, the parser is called on every value
    supplied under P, in order of appearance, each call on its own, and the
    predicate builder receives the list of the results in that order; with
    [many] unset, the parser is called once, on the value of the last
    occurrence of P, and the predicate builder receives that result.  This
    is what the iteration on P does, and no call of [parse] calls the
    callbacks of P on anything else. *)
Theorem values_parsed_by_multiplicity
    (cls : QPTranslatorClass) (qps : QueryParams) (P : str) (f : Filter) :
  P ∈ qp_keys qps ->
  is_reserved P = false ->
  dict_get P (__filters__ cls) = Some f ->
  excluded f qps = false ->
  (many f = true ->
   parser_args f qps P = VStr <$> qp_getlist qps P
   /\ forall v,
        parsed_value f qps P = Some v <->
        exists ys, v = VList ys
                   /\ Forall2 (fun s y => t_parser f (VStr s) = Return y)
                              (qp_getlist qps P) ys)
  /\ (many f = false ->
      exists s, last (qp_getlist qps P) = Some s
                /\ parser_args f qps P = [VStr s]
                /\ forall v,
                     parsed_value f qps P = Some v <->
                     t_parser f (VStr s) = Return v)
  /\ (forall v query invalid_qps,
         parsed_value f qps P = Some v ->
         dict_contains P query = false ->
         process_param cls qps P (query, invalid_qps) =
         ((ParserCall P <$> parser_args f qps P) ++ [QFuncCall P v],
          match q_func f v with
          | Return q => Return (dict_set P q query, invalid_qps)
          | Raise e => Raise e
          end))
  /\ (forall a, ParserCall P a ∈ (parse cls qps).1 -> a ∈ parser_args f qps P)
  /\ (forall v,
         QFuncCall P v ∈ (parse cls qps).1 -> parsed_value f qps P = Some v).
Proof.
  intros HP Hr Hf Hex.
  pose proof (parse_legit cls qps) as Hlegit. rewrite Forall_forall in Hlegit.
  split_and!.
  - intros Hm. split; [by apply parser_args_many|].
    intros v. by apply parsed_value_many.
  - intros Hm. destruct (qp_get_is_Some qps P HP) as [s Hs].
    exists s. split; [by rewrite <- qp_get_last|].
    unfold parser_args, parsed_value. rewrite Hm, Hs. split; [done|].
    intros v. apply returned_Some.
  - intros v query invalid_qps Hv Hc. by apply process_param_parsed.
  - intros a Hin. destruct (Hlegit _ Hin) as (_ & _ & f' & Hf' & _ & Ha).
    cbn in Hf'. by assert (f' = f) as -> by congruence.
  - intros v Hin. destruct (Hlegit _ Hin) as (_ & _ & f' & Hf' & _ & Hv).
    cbn in Hf'. by assert (f' = f) as -> by congruence.
Qed.

End ParsedValues.

(** ** Pagination *)

Lemma pagination_absent : pagination None = Return None.
Proof. done. Qed.

(** A value that is not all digits, the empty one included, is ignored. *)
Lemma pagination_not_isdigit (s : str) :
  isdigit s = false -> pagination (Some s) = Return None.
Proof. unfold pagination. intros ->. by rewrite andb_false_r. Qed.

(** Whenever a pagination field is set, it is not negative. *)
Lemma pagination_nonneg (v : option str) (z : Z) :
  pagination v = Return (Some z) -> 0 <= z.
Proof.
  unfold pagination. destruct v as [s|]; [|discriminate].
  destruct (str_truthy s && isdigit s); [|discriminate].
  unfold int. destruct (bool_decide _); [discriminate|].
  destruct (mapM Py_UNICODE_TODECIMAL s) as [[|d ds]|]; try discriminate.
  intros [= <-].
  assert (Hfold : forall (l : list N) acc,
             0 <= acc ->
             0 <= fold_left (fun acc x => 10 * acc + Z.of_N x) l acc).
  { induction l as [|x l IH]; intros acc Hacc; [done|].
    cbn. apply IH. lia. }
  apply Hfold. lia.
Qed.

Lemma leading_decimals_length (s : str) :
  (length (leading_decimals s) <= length s)%nat.
Proof.
  induction s as [|c s IH]; cbn [leading_decimals length]; [done|].
  destruct (Py_UNICODE_TODECIMAL c); cbn [length]; lia.
Qed.

(** In a string of decimal digits, every character is a leading one. *)
Lemma leading_decimals_all (s : str) (ds : list N) :
  mapM Py_UNICODE_TODECIMAL s = Some ds -> leading_decimals s = ds.
Proof.
  intros Hds. apply mapM_Some in Hds.
  induction Hds as [|c d s ds Hc _ IH]; cbn [leading_decimals]; [done|].
  by rewrite Hc, IH.
Qed.

Lemma TODECIMAL_ascii (c : N) :
  (0x30 <= c <= 0x39)%N -> Py_UNICODE_TODECIMAL c = Some (c - 0x30)%N.
Proof.
  intros Hc.
  assert (Hcases : c ∈ [48; 49; 50; 51; 52; 53; 54; 55; 56; 57]%N).
  { assert (exists n, c = (48 + N.of_nat n)%N /\ (n < 10)%nat) as (n & -> & Hn).
    { exists (N.to_nat (c - 48)). lia. }
    do 10 (destruct n as [|n]; [by_compute|]). lia. }
  repeat (apply elem_of_cons in Hcases as [->|Hcases]; [reflexivity|]).
  by apply elem_of_nil in Hcases.
Qed.

(** A non-empty value made of decimal digits, within the length [int]
    accepts, sets the field to the number it denotes. *)
Lemma pagination_decimal (s : str) :
  s <> [] ->
  Forall (fun c => is_Some (Py_UNICODE_TODECIMAL c)) s ->
  (length s <= int_max_str_digits)%nat ->
  exists ds,
    mapM Py_UNICODE_TODECIMAL s = Some ds
    /\ pagination (Some s) =
       Return (Some (fold_left (fun acc x => 10 * acc + Z.of_N x) ds 0)).
Proof.
  intros Hne Hdec Hlen.
  destruct (mapM_is_Some_2 Py_UNICODE_TODECIMAL s Hdec) as [ds Hds].
  exists ds. split; [done|].
  assert (Hdigit : isdigit s = true).
  { unfold isdigit. destruct s as [|c s]; [done|].
    apply forallb_forall. intros x Hx. apply list_elem_of_In in Hx.
    rewrite Forall_forall in Hdec. destruct (Hdec x Hx) as [d Hd].
    unfold Py_UNICODE_ISDIGIT. by rewrite Hd. }
  unfold pagination. rewrite Hdigit.
  destruct s as [|c s]; [done|]. cbn [str_truthy andb].
  unfold int. rewrite bool_decide_false, Hds.
  - by destruct ds as [|d ds]; [apply length_mapM in Hds|].
  - pose proof (leading_decimals_length (c :: s)). lia.
Qed.

Section Pagination.
Context `{SetOrder}.

(** C6 fails on the code.  The superscript two (U+00B2) is a digit for
    [str.isdigit] but no literal for [int]: on the request [limit=²] the
    conversion raises a ValueError, which nothing catches, and [parse] ends
    with it for every translator, before the loop has looked at any key.
    The same happens under [offset]. *)
Theorem pagination_superscript_raises (cls : QPTranslatorClass) :
  isdigit [0xb2%N] = true
  /\ parse cls [(lit "limit", [0xb2%N])] =
     ([], Raise (ValueError (int_invalid_literal [0xb2%N])))
  /\ parse cls [(lit "offset", [0xb2%N])] =
     ([], Raise (ValueError (int_invalid_literal [0xb2%N]))).
Proof. split_and!; reflexivity. Qed.

End Pagination.

(** ** An invalid value next to an unknown name *)

Section InvalidBeforeUnknown.
Context `{SetOrder}.

(** The loop cannot return when an argument of a looked-up, non-excluded key
    is rejected by its parser. *)
Lemma parse_keys_rejected_raises
    (cls : QPTranslatorClass) (qps : QueryParams)
    (P : str) (f : Filter) (a : pyval) (e0 : exn) :
  P ∈ qp_keys qps ->
  is_reserved P = false ->
  dict_get P (__filters__ cls) = Some f ->
  excluded f qps = false ->
  a ∈ parser_args f qps P ->
  t_parser f a = Raise e0 ->
  exists tr e, parse_keys cls qps = (tr, Raise e).
Proof.
  intros HP Hr Hf Hex Ha Hraise.
  destruct (parse_keys cls qps) as [tr [[fp [query invalid_qps]]|e]] eqn:Hk;
    [|by eauto].
  exfalso. apply parse_keys_return in Hk as (Hloop & _).
  apply parse_loop_return in Hloop as (_ & _ & _ & Hnew & _).
  2: { intros k Hk. by apply elem_of_nil in Hk. }
  destruct (Hnew P f HP Hr Hf eq_refl) as (q & Hq & _).
  unfold expected_predicate in Hq. rewrite Hex in Hq.
  destruct (parsed_value f qps P) as [v|] eqn:Hv; [|done].
  apply parsed_value_args in Hv. rewrite Forall_forall in Hv.
  destruct (Hv _ Ha) as [y Hy]. by rewrite Hraise in Hy.
Qed.

(** C10 as the code has it.  Take a request with (a) a key that is not
    reserved and has no descriptor and (b) a key the loop looks up, whose
    descriptor is not excluded and whose parser rejects, with a ValueError,
    one of the values it is called on.  Then the loop never goes through all
    the keys: [parse] ends with what lines 62-96 raise, so that the test for
    unknown names is not reached, wherever the keys stand in the request.
    If moreover every descriptor of the registry keeps to the contract and
    the two pagination values are converted, what [parse] raises is the
    client error (status 400) carrying the message of the first call of a
    parser that fails, that call being the last one made. *)
Theorem invalid_value_precedes_unknown
    (cls : QPTranslatorClass) (qps : QueryParams)
    (U P : str) (f : Filter) (a : pyval) (msg : str) :
  U ∈ qp_keys qps ->
  is_reserved U = false ->
  dict_get U (__filters__ cls) = None ->
  P ∈ qp_keys qps ->
  is_reserved P = false ->
  dict_get P (__filters__ cls) = Some f ->
  excluded f qps = false ->
  a ∈ parser_args f qps P ->
  t_parser f a = Raise (ValueError msg) ->
  (exists tr e,
      parse_keys cls qps = (tr, Raise e) /\ parse cls qps = (tr, Raise e))
  /\ ((forall k g, dict_get k (__filters__ cls) = Some g -> honours_contract g) ->
      (exists l, pagination (qp_get qps (lit "limit")) = Return l) ->
      (exists o, pagination (qp_get qps (lit "offset")) = Return o) ->
      exists tr P' f' a' msg',
        parse cls qps =
          (tr ++ [ParserCall P' a'],
           Raise (HTTPException HTTP_400_BAD_REQUEST msg'))
        /\ dict_get P' (__filters__ cls) = Some f'
        /\ t_parser f' a' = Raise (ValueError msg')
        /\ Forall (event_returns cls) tr).
Proof.
  intros _ _ _ HP Hr Hf Hex Ha Hraise.
  destruct (parse_keys_rejected_raises cls qps P f a _ HP Hr Hf Hex Ha Hraise)
    as (tr & e & Hk).
  split.
  { exists tr, e. split; [done | by apply parse_keys_raise]. }
  intros Hcontract [l Hl] [o Ho].
  destruct (parse_keys_cases cls qps)
    as [(e' & _ & [He'|He'])|(l' & o' & _ & _ & Hk')]; [congruence..|].
  pose proof (parse_loop_shape cls qps (qp_keys qps) ([], ∅)) as Hshape.
  rewrite Hk in Hk'.
  destruct (parse_loop cls qps (qp_keys qps) ([], ∅)) as [tr0 r0].
  cbn [fst snd] in Hk'.
  inversion Hshape as [tr1 st1 Hret|tr1 ev e1 Hret Hev]; subst;
    [discriminate|].
  injection Hk' as -> ->.
  destruct Hev as (f' & Hf' & Hcall).
  destruct (Hcontract _ _ Hf') as [Hparser Hbuilder].
  destruct ev as [P' a'|P' v]; cbn in Hf', Hcall.
  - destruct Hcall as (e0 & Ha' & ->).
    destruct (Hparser _ _ Ha') as [msg' ->].
    exists tr1, P', f', a', msg'. split_and!; try done.
    by apply parse_keys_raise.
  - exfalso. destruct (Hbuilder v) as [q Hq]. by rewrite Hcall in Hq.
Qed.

End InvalidBeforeUnknown.

(** * The definitions on concrete requests *)

Local Open Scope string_scope.
Local Open Scope list_scope.

(** [BaseTranslator] enforces its required [status]; [SubTranslator], which
    inherits the descriptor and declares nothing required itself, does not. *)
Lemma inherited_required_not_enforced :
  dict_get (lit "status") (__filters__ SubTranslator) = Some status_filter
  /\ is_required status_filter = true
  /\ lit "status" ∈ __required_filter_set__ BaseTranslator
  /\ (lit "status" ∉ __required_filter_set__ SubTranslator)
  /\ parse BaseTranslator (request []) =
     ([], Raise (HTTPException HTTP_400_BAD_REQUEST
                   (lit "Required query params: status")))
  /\ parse SubTranslator (request []) =
     ([], Return {| query_list := []; sort := [];
                    limit := None; offset := None |}).
Proof. split_and!; try reflexivity; by_compute. Qed.

(** The end-to-end example of the specification: [id] is excluded by
    [status], which is parsed and satisfies the required check. *)
Lemma parse_excluded_and_required :
  parse BaseTranslator
        (request [("id", "1"); ("id", "2"); ("status", "true")]) =
  ([ParserCall (lit "status") (VStr (lit "true"));
    QFuncCall (lit "status") (VBool true)],
   Return {| query_list := [[]; [(lit "status", VBool true)]]; sort := [];
             limit := None; offset := None |}).
Proof. reflexivity. Qed.

(** Digits are converted, anything else is ignored, and the last occurrence
    of a repeated pagination key is the one that counts. *)
Lemma parse_pagination_examples :
  parse QPTranslator
        (request [("limit", "10"); ("offset", "abc"); ("sort_by", "b");
                  ("sort_by", "a"); ("sort_by", "b")]) =
  ([], Return {| query_list := [];
                 sort := [lit "b"; lit "a"; lit "b"];
                 limit := Some 10; offset := None |})
  /\ parse QPTranslator [(lit "limit", lit "7"); (lit "limit", [])] =
     ([], Return {| query_list := []; sort := [];
                    limit := None; offset := None |}).
Proof. split; reflexivity. Qed.

(** A literal of more than 4300 digits is refused by [int] as well. *)
Lemma pagination_long_literal_raises :
  isdigit (replicate 4301 0x31%N) = true
  /\ pagination (Some (replicate 4301 0x31%N)) =
     Raise (ValueError (int_exceeds_limit 4301)).
Proof. split; vm_compute; reflexivity. Qed.

(** C3 as stated fails: [name] takes one value and is supplied twice, as
    [name=a&name=b]; the first occurrence's value [a] is never given to the
    parser, and the predicate is built from [b], the value of the last. *)
Lemma single_valued_first_occurrence_unused :
  dict_get (lit "name") (__filters__ SubTranslator) = Some name_filter
  /\ many name_filter = false
  /\ qp_getlist (request [("name", "a"); ("name", "b")]) (lit "name") =
     [lit "a"; lit "b"]
  /\ parse SubTranslator (request [("name", "a"); ("name", "b")]) =
     ([ParserCall (lit "name") (VStr (lit "b"));
       QFuncCall (lit "name") (VStr (lit "b"))],
      Return {| query_list := [[(lit "name", VStr (lit "b"))]]; sort := [];
                limit := None; offset := None |})
  /\ ParserCall (lit "name") (VStr (lit "a")) ∉
     (parse SubTranslator (request [("name", "a"); ("name", "b")])).1.
Proof.
  split_and!; try reflexivity.
  intros Hin. vm_compute in Hin.
  apply elem_of_cons in Hin as [Hin|Hin]; [discriminate|].
  apply elem_of_cons in Hin as [Hin|Hin]; [discriminate|].
  by apply elem_of_nil in Hin.
Qed.

(** C10 as stated fails: the request [broken=1&status=maybe&zzz=1] holds the
    unknown name [zzz] and the key [status], whose parser rejects [maybe]
    with a ValueError; but the parser of [broken], called first, raises a
    TypeError, and [parse] ends with the Warning of line 95, which is no
    client error.  With [status] before [broken] the client error is raised:
    the order of the keys matters. *)
Lemma internal_error_hides_invalid_value :
  lit "zzz" ∈ qp_keys (request [("broken", "1"); ("status", "maybe");
                                ("zzz", "1")])
  /\ is_reserved (lit "zzz") = false
  /\ dict_get (lit "zzz") (__filters__ SubTranslator) = None
  /\ lit "status" ∈ qp_keys (request [("broken", "1"); ("status", "maybe");
                                      ("zzz", "1")])
  /\ dict_get (lit "status") (__filters__ SubTranslator) = Some status_filter
  /\ excluded status_filter
       (request [("broken", "1"); ("status", "maybe"); ("zzz", "1")]) = false
  /\ t_parser status_filter (VStr (lit "maybe")) =
     Raise (ValueError bool_parser_message)
  /\ parse SubTranslator
       (request [("broken", "1"); ("status", "maybe"); ("zzz", "1")]) =
     ([ParserCall (lit "broken") (VStr (lit "1"))],
      Raise (Warning t_parser_warning))
  /\ is_HTTPException (Warning t_parser_warning) = false
  /\ parse SubTranslator
       (request [("status", "maybe"); ("broken", "1"); ("zzz", "1")]) =
     ([ParserCall (lit "status") (VStr (lit "maybe"))],
      Raise (HTTPException HTTP_400_BAD_REQUEST bool_parser_message)).
Proof. split_and!; try reflexivity; by_compute. Qed.

(** ** The theorems at concrete inputs *)

Lemma base_descriptors_honour_contract :
  forall k g,
    dict_get k (__filters__ BaseTranslator) = Some g -> honours_contract g.
Proof.
  intros k g Hg. apply dict_get_Some_elem in Hg.
  assert (Hcases : g = status_filter \/ g = id_filter).
  { apply elem_of_cons in Hg as [[= _ ->]|Hg]; [by left|].
    apply elem_of_cons in Hg as [[= _ ->]|Hg]; [by right|].
    by apply elem_of_nil in Hg. }
  destruct Hcases as [-> | ->]; split.
  - intros a e. cbn. unfold bool_parser.
    destruct a; try (intros [= <-]; by eexists).
    destruct (negb _); intros [= <-]. by eexists.
  - intros v. by eexists.
  - intros a e. discriminate.
  - intros v. by eexists.
Qed.

Lemma reserved_key_excludes_witness :
  lit "limit" ∈ reserved_keys
  /\ lit "limit" ∈ exclusions page_filter
  /\ excluded page_filter
       (request [("limit", "1"); ("page", "3"); ("status", "false")]) = true
  /\ (forall a,
         ParserCall (lit "page") a ∉
         (parse SubTranslator
            (request [("limit", "1"); ("page", "3"); ("status", "false")])).1).
Proof.
  assert (H1 : lit "page" ∈ qp_keys (request [("limit", "1"); ("page", "3");
                                              ("status", "false")]))
    by by_compute.
  assert (H2 : lit "limit" ∈ reserved_keys) by by_compute.
  assert (H3 : lit "limit" ∈ exclusions page_filter) by by_compute.
  assert (H4 : lit "limit" ∈ qp_keys (request [("limit", "1"); ("page", "3");
                                               ("status", "false")]))
    by by_compute.
  pose proof (reserved_key_excludes SubTranslator
                (request [("limit", "1"); ("page", "3"); ("status", "false")])
                (lit "page") page_filter (lit "limit")
                H1 eq_refl eq_refl H2 H3 H4) as (Hex & _ & _ & Hp & _).
  split_and!; [exact H2 | exact H3 | exact Hex | exact Hp].
Defined.

Lemma values_parsed_by_multiplicity_witness :
  lit "name" ∈ qp_keys (request [("name", "a"); ("name", "b")])
  /\ (exists s,
         last (qp_getlist (request [("name", "a"); ("name", "b")])
                          (lit "name")) = Some s
         /\ parser_args name_filter (request [("name", "a"); ("name", "b")])
                        (lit "name") = [VStr s])
  /\ (forall v,
         QFuncCall (lit "name") v ∈
         (parse SubTranslator (request [("name", "a"); ("name", "b")])).1 ->
         parsed_value name_filter (request [("name", "a"); ("name", "b")])
                      (lit "name") = Some v).
Proof.
  assert (H1 : lit "name" ∈ qp_keys (request [("name", "a"); ("name", "b")]))
    by by_compute.
  pose proof (values_parsed_by_multiplicity SubTranslator
                (request [("name", "a"); ("name", "b")])
                (lit "name") name_filter H1 eq_refl eq_refl eq_refl)
    as (_ & Hsingle & _ & _ & Hq).
  destruct (Hsingle eq_refl) as (s & Hs & Hargs & _).
  split_and!; [exact H1 | by exists s | exact Hq].
Defined.

Lemma parser_failure_propagates_witness :
  parse BaseTranslator (request [("status", "maybe"); ("zzz", "1")]) =
    ([ParserCall (lit "status") (VStr (lit "maybe"))],
     Raise (HTTPException HTTP_400_BAD_REQUEST bool_parser_message))
  /\ parse_loop BaseTranslator (request [("status", "maybe"); ("zzz", "1")])
       ([] ++ [lit "status"]) ([], ∅) =
     ([ParserCall (lit "status") (VStr (lit "maybe"))],
      Raise (parser_handler (ValueError bool_parser_message))).
Proof.
  assert (H1 : parse BaseTranslator
                 (request [("status", "maybe"); ("zzz", "1")]) =
               ([ParserCall (lit "status") (VStr (lit "maybe"))],
                Raise (HTTPException HTTP_400_BAD_REQUEST bool_parser_message)))
    by reflexivity.
  assert (H2 : ParserCall (lit "status") (VStr (lit "maybe")) ∈
               [ParserCall (lit "status") (VStr (lit "maybe"))]) by left.
  pose proof (parser_failure_propagates BaseTranslator
                (request [("status", "maybe"); ("zzz", "1")]) _ _
                (lit "status") (VStr (lit "maybe")) status_filter
                (ValueError bool_parser_message)
                H1 H2 eq_refl eq_refl) as (_ & _ & Hprefix & _).
  split; [exact H1|].
  exact (Hprefix [] [lit "zzz"] eq_refl).
Defined.

Lemma unknown_params_batched_witness :
  parse BaseTranslator
        (request [("zzz", "1"); ("status", "true"); ("yy", "2")]) =
  ([ParserCall (lit "status") (VStr (lit "true"));
    QFuncCall (lit "status") (VBool true)],
   Raise (HTTPException HTTP_400_BAD_REQUEST
            (lit "Invalid query params: " ++
             str_join (lit ", ")
                      (set_iter (∅ ∪ {[lit "zzz"]} ∪ {[lit "yy"]}))))).
Proof.
  assert (H1 : parse_keys BaseTranslator
                 (request [("zzz", "1"); ("status", "true"); ("yy", "2")]) =
               ([ParserCall (lit "status") (VStr (lit "true"));
                 QFuncCall (lit "status") (VBool true)],
                Return ({| query_list := []; sort := [];
                           limit := None; offset := None |},
                        ([(lit "status", [(lit "status", VBool true)])],
                         ∅ ∪ {[lit "zzz"]} ∪ {[lit "yy"]}))))
    by reflexivity.
  pose proof (unknown_params_batched BaseTranslator _ _ _ _ _ H1)
    as (_ & _ & Hraise).
  assert (H2 : (∅ ∪ {[lit "zzz"]} ∪ {[lit "yy"]} : gset str) <> ∅)
    by by_compute.
  exact (proj1 (Hraise H2)).
Defined.

Lemma invalid_value_precedes_unknown_witness :
  exists tr P' f' a' msg',
    parse BaseTranslator (request [("zzz", "1"); ("status", "maybe")]) =
      (tr ++ [ParserCall P' a'],
       Raise (HTTPException HTTP_400_BAD_REQUEST msg'))
    /\ dict_get P' (__filters__ BaseTranslator) = Some f'
    /\ t_parser f' a' = Raise (ValueError msg')
    /\ Forall (event_returns BaseTranslator) tr.
Proof.
  assert (H1 : lit "zzz" ∈ qp_keys (request [("zzz", "1");
                                             ("status", "maybe")]))
    by by_compute.
  assert (H2 : lit "status" ∈ qp_keys (request [("zzz", "1");
                                                ("status", "maybe")]))
    by by_compute.
  assert (H3 : VStr (lit "maybe") ∈
               parser_args status_filter
                 (request [("zzz", "1"); ("status", "maybe")]) (lit "status"))
    by left.
  pose proof (invalid_value_precedes_unknown BaseTranslator
                (request [("zzz", "1"); ("status", "maybe")])
                (lit "zzz") (lit "status") status_filter
                (VStr (lit "maybe")) bool_parser_message
                H1 eq_refl eq_refl H2 eq_refl eq_refl eq_refl H3 eq_refl)
    as (_ & Hcontract).
  apply Hcontract.
  - exact base_descriptors_honour_contract.
  - by exists None.
  - by exists None.
Defined.

(** * Further properties *)

(** ** The required check *)

Section RequiredCheck.
Context `{SetOrder}.

(** X1.  [_check_required_filters] returns exactly when every required name
    is among the existing ones; otherwise it raises the client error (status
    400) whose detail is 'Required query params: ' followed by the required
    names that are not among the existing ones, each once, joined with
    ', '. *)
Theorem check_required_filters_spec
    (cls : QPTranslatorClass) (existing : list str) :
  (_check_required_filters cls existing = Return tt <->
   forall n, n ∈ __required_filter_set__ cls -> n ∈ existing)
  /\ (forall e,
         _check_required_filters cls existing = Raise e ->
         e = HTTPException HTTP_400_BAD_REQUEST
               (lit "Required query params: " ++
                str_join (lit ", ")
                  (set_iter (__required_filter_set__ cls
                               ∖ list_to_set existing)))
         /\ NoDup (set_iter (__required_filter_set__ cls
                               ∖ list_to_set existing))
         /\ (forall n,
                n ∈ set_iter (__required_filter_set__ cls
                                ∖ list_to_set existing) <->
                n ∈ __required_filter_set__ cls /\ n ∉ existing)
         /\ exists n, n ∈ __required_filter_set__ cls /\ n ∉ existing).
Proof.
  rewrite (check_required_filters_cases cls existing). cbv zeta.
  set (missing := __required_filter_set__ cls ∖ list_to_set existing).
  assert (Hmiss : forall n, n ∈ missing <->
                            n ∈ __required_filter_set__ cls /\ n ∉ existing).
  { intros n. unfold missing.
    by rewrite elem_of_difference, elem_of_list_to_set. }
  destruct (decide (missing = ∅)) as [He|Hne].
  - split.
    + split; [|done]. intros _ n Hn.
      destruct (decide (n ∈ existing)) as [|Hnot]; [done|].
      assert (Hin : n ∈ missing) by (by apply Hmiss).
      rewrite He in Hin. by apply elem_of_empty in Hin.
    + discriminate.
  - assert (Hex : exists n, n ∈ missing).
    { apply set_choose_L. done. }
    destruct Hex as [n Hn]. split.
    + split; [discriminate|]. intros Hall. exfalso.
      apply Hmiss in Hn as [Hreq Hnot]. by apply Hnot, Hall.
    + intros e [= <-]. split_and!.
      * done.
      * apply set_iter_NoDup.
      * intros k. by rewrite elem_of_set_iter.
      * exists n. by apply Hmiss.
Qed.

(** When [parse_keys] returns, the keys of [query] are the request keys that
    are not reserved and have a descriptor. *)
Lemma parse_keys_resolved
    (cls : QPTranslatorClass) (qps : QueryParams) (tr : list event)
    (filter_params : ParseResult) (query : list (str * predicate))
    (invalid_qps : gset str) :
  parse_keys cls qps = (tr, Return (filter_params, (query, invalid_qps))) ->
  forall k,
    k ∈ dict_keys query <->
    k ∈ qp_keys qps /\ is_reserved k = false
    /\ is_Some (dict_get k (__filters__ cls)).
Proof.
  intros Hkeys k. apply parse_keys_return in Hkeys as (Hloop & _).
  apply parse_loop_return in Hloop as (Hdesc & _ & _ & Hnew & Hdom).
  2: { intros k' Hk'. by apply elem_of_nil in Hk'. }
  split.
  - intros Hk. destruct (Hdom k Hk) as [Hnil|[Hin Hr]].
    { by apply elem_of_nil in Hnil. }
    split_and!; [done..|]. by apply Hdesc.
  - intros (Hin & Hr & [f Hf]).
    destruct (Hnew k f Hin Hr Hf eq_refl) as (q & _ & Hq).
    apply dict_get_is_Some. by rewrite Hq.
Qed.

(** X2.  When the loop has gone through the keys and found no unknown name,
    the names [parse] misses are the required names that are not request keys
    the loop looks up (a reserved key does not count); if there is any,
    [parse] raises the client error (status 400) that lists them after
    'Required query params: ', and otherwise it returns the result, with the
    predicates of [query] in order. *)
Theorem parse_missing_required
    (cls : QPTranslatorClass) (qps : QueryParams) (tr : list event)
    (filter_params : ParseResult) (query : list (str * predicate)) :
  parse_keys cls qps = (tr, Return (filter_params, (query, ∅))) ->
  (forall n,
      n ∈ __required_filter_set__ cls ∖ list_to_set (dict_keys query) <->
      n ∈ __required_filter_set__ cls
      /\ ~ (n ∈ qp_keys qps /\ is_reserved n = false))
  /\ (__required_filter_set__ cls ∖ list_to_set (dict_keys query) <> ∅ ->
      parse cls qps =
      (tr, Raise (HTTPException HTTP_400_BAD_REQUEST
                    (lit "Required query params: " ++
                     str_join (lit ", ")
                       (set_iter (__required_filter_set__ cls
                                    ∖ list_to_set (dict_keys query)))))))
  /\ (__required_filter_set__ cls ∖ list_to_set (dict_keys query) = ∅ ->
      parse cls qps =
      (tr, Return {| query_list := dict_values query;
                     sort := sort filter_params;
                     limit := limit filter_params;
                     offset := offset filter_params |})).
Proof.
  intros Hkeys.
  pose proof (parse_keys_resolved cls qps _ _ _ _ Hkeys) as Hres.
  assert (Hknown : forall k, k ∈ qp_keys qps -> is_reserved k = false ->
                             is_Some (dict_get k (__filters__ cls))).
  { intros k Hk Hr. apply not_eq_None_Some. intros Hnone.
    pose proof Hkeys as Hloop.
    apply parse_keys_return in Hloop as (Hloop & _).
    apply parse_loop_return in Hloop as (_ & Hinvalid & _).
    2: { intros k' Hk'. by apply elem_of_nil in Hk'. }
    assert (Hin : k ∈ (∅ : gset str)) by (apply Hinvalid; right; done).
    by apply elem_of_empty in Hin. }
  rewrite (parse_after_keys _ _ _ _ _ _ Hkeys). unfold parse_finish.
  rewrite bool_decide_false by (intros Hne; by apply Hne).
  rewrite (check_required_filters_cases cls (dict_keys query)). cbv zeta.
  split_and!.
  - intros n. rewrite elem_of_difference, elem_of_list_to_set, Hres.
    split.
    + intros [Hreq Hnot]. split; [done|]. intros [Hk Hr]. apply Hnot.
      split_and!; [done..|]. by apply Hknown.
    + intros [Hreq Hnot]. split; [done|]. intros (Hk & Hr & _). by apply Hnot.
  - intros Hne. by destruct (decide _).
  - intros He. by destruct (decide _).
Qed.

(** X3.  A required name that is a reserved key cannot be satisfied: the
    loop never looks a reserved key up, so the name is never in [query], and
    [parse] returns no result on any request. *)
Theorem reserved_required_never_satisfied
    (cls : QPTranslatorClass) (n : str) :
  n ∈ __required_filter_set__ cls ->
  is_reserved n = true ->
  forall qps tr res, parse cls qps <> (tr, Return res).
Proof.
  intros Hreq Hres qps tr res Hparse.
  destruct (parse_keys cls qps)
    as [tr' [[fp [query invalid_qps]]|e]] eqn:Hkeys.
  2: { rewrite (parse_keys_raise _ _ _ _ Hkeys) in Hparse. discriminate. }
  rewrite (parse_after_keys _ _ _ _ _ _ Hkeys) in Hparse.
  unfold parse_finish in Hparse.
  destruct (bool_decide (invalid_qps <> ∅)); [discriminate|].
  rewrite (check_required_filters_cases cls (dict_keys query)) in Hparse.
  cbv zeta in Hparse.
  destruct (decide (__required_filter_set__ cls
                      ∖ list_to_set (dict_keys query) = ∅)) as [He|];
    [|discriminate].
  assert (Hn : n ∈ dict_keys query).
  { destruct (decide (n ∈ dict_keys query)) as [|Hnot]; [done|]. exfalso.
    assert (Hin : n ∈ __required_filter_set__ cls
                      ∖ list_to_set (dict_keys query)).
    { apply elem_of_difference. by rewrite elem_of_list_to_set. }
    rewrite He in Hin. by apply elem_of_empty in Hin. }
  apply (parse_keys_resolved cls qps _ _ _ _ Hkeys) in Hn as (_ & Hr & _).
  congruence.
Qed.

End RequiredCheck.

(** ** Exclusion and the required check *)

Section ExcludedAndRequired.
Context `{SetOrder}.

(** C2.  Let P be a request key the loop looks up in the registry (it is not
    reserved) and finds a descriptor for, some exclusion of which is among
    the request keys.  Then the iteration on P assigns it the empty
    predicate, calling no callback and raising nothing, and no call of
    [parse] ever calls the parser or the predicate builder on behalf of P.
    When the loop has gone through all the keys, P holds the empty predicate
    in [query] and is not among the unknown names; the call of
    [_check_required_filters] on the keys of [query] (line 102) counts P as
    present: if it raises, P is not among the names it reports, and if there
    is no unknown name and every required name other than P is a request key
    the loop looks up, it returns and [parse] returns its result, the empty
    predicate standing for P in [query_list], whether P is required or
    not. *)
Theorem exclusion_gives_empty_predicate
    (cls : QPTranslatorClass) (qps : QueryParams) (P : str) (f : Filter)
    (x : str) :
  P ∈ qp_keys qps ->
  is_reserved P = false ->
  dict_get P (__filters__ cls) = Some f ->
  x ∈ exclusions f ->
  x ∈ qp_keys qps ->
  (forall query invalid_qps,
      dict_contains P query = false ->
      process_param cls qps P (query, invalid_qps) =
      ([], Return (dict_set P [] query, invalid_qps)))
  /\ (forall a, ParserCall P a ∉ (parse cls qps).1)
  /\ (forall v, QFuncCall P v ∉ (parse cls qps).1)
  /\ (forall tr filter_params query invalid_qps,
         parse_keys cls qps =
           (tr, Return (filter_params, (query, invalid_qps))) ->
         dict_get P query = Some []
         /\ (P ∉ invalid_qps)
         /\ (P ∉ __required_filter_set__ cls ∖ list_to_set (dict_keys query))
         /\ (forall e,
               _check_required_filters cls (dict_keys query) = Raise e ->
               e = HTTPException HTTP_400_BAD_REQUEST
                     (required_detail
                        (__required_filter_set__ cls
                           ∖ list_to_set (dict_keys query)))
               /\ P ∉ set_iter (__required_filter_set__ cls
                                  ∖ list_to_set (dict_keys query)))
         /\ (invalid_qps = ∅ ->
             (forall n, n ∈ __required_filter_set__ cls -> n <> P ->
                        n ∈ qp_keys qps /\ is_reserved n = false) ->
             _check_required_filters cls (dict_keys query) = Return tt
             /\ parse cls qps =
                (tr, Return {| query_list := dict_values query;
                               sort := sort filter_params;
                               limit := limit filter_params;
                               offset := offset filter_params |})
             /\ (P, []) ∈ query
             /\ [] ∈ dict_values query)).
Proof.
  intros HP Hr Hf Hx Hxk.
  assert (Hex : excluded f qps = true) by (apply excluded_true; eauto).
  destruct (excluded_param_suppressed cls qps P f HP Hr Hf Hex)
    as (Hstep & Hlog & Hfinal).
  split_and!; [done | | |].
  - intros a Hin. by apply (Hlog _ Hin).
  - intros v Hin. by apply (Hlog _ Hin).
  - intros tr fp query invalid_qps Hkeys.
    destruct (Hfinal _ _ _ _ Hkeys) as [Hget Hnot].
    pose proof (parse_keys_resolved cls qps _ _ _ _ Hkeys) as Hres.
    pose proof Hkeys as Hloop.
    apply parse_keys_return in Hloop as (Hloop & _).
    apply parse_loop_return in Hloop as (_ & Hinvalid & _).
    2: { intros k' Hk'. by apply elem_of_nil in Hk'. }
    pose proof (check_required_filters_cases cls (dict_keys query)) as Hcheck.
    cbv zeta in Hcheck.
    split_and!; [done | | done | |].
    + rewrite Hinvalid. intros [Hin|(_ & _ & Hnone)].
      * by apply elem_of_empty in Hin.
      * congruence.
    + intros e. rewrite Hcheck. destruct (decide _); [done|].
      intros [= <-]. split; [done|]. by rewrite elem_of_set_iter.
    + intros -> Hothers.
      assert (Hempty : __required_filter_set__ cls
                         ∖ list_to_set (dict_keys query) = ∅).
      { apply set_eq. intros n.
        rewrite elem_of_difference, elem_of_list_to_set, elem_of_empty.
        split; [|done]. intros [Hreq Hmiss]. apply Hmiss.
        destruct (decide (n = P)) as [->|Hne].
        - apply dict_get_is_Some. by rewrite Hget.
        - destruct (Hothers n Hreq Hne) as [Hk Hnr].
          apply Hres. split_and!; [done..|].
          apply not_eq_None_Some. intros Hnone.
          assert (Hin : n ∈ (∅ : gset str)) by (apply Hinvalid; right; done).
          by apply elem_of_empty in Hin. }
      assert (Hret : _check_required_filters cls (dict_keys query) = Return tt).
      { rewrite Hcheck. by destruct (decide _). }
      assert (Hentry : (P, []) ∈ query) by (by apply dict_get_Some_elem).
      split_and!; [done | | done |].
      * rewrite (parse_after_keys _ _ _ _ _ _ Hkeys). unfold parse_finish.
        rewrite bool_decide_false by (intros Hne; by apply Hne).
        by rewrite Hret.
      * unfold dict_values. apply list_elem_of_fmap. by exists (P, []).
Qed.

End ExcludedAndRequired.

(** ** What a run over distinct, fresh keys does *)

Lemma dict_set_fresh {V} (k : str) (v : V) (d : list (str * V)) :
  k ∉ dict_keys d -> dict_set k v d = d ++ [(k, v)].
Proof.
  unfold dict_keys. induction d as [|[k' v'] d IH]; intros Hk; [done|].
  cbn [dict_set]. apply not_elem_of_cons in Hk as [Hne Hk].
  destruct (decide (k = k')); [done|]. cbn. by rewrite IH.
Qed.

Lemma dict_contains_not_elem {V} (k : str) (d : list (str * V)) :
  dict_contains k d = false <-> k ∉ dict_keys d.
Proof. unfold dict_contains. apply bool_decide_eq_false. Qed.

Section FreshRuns.
Context (cls : QPTranslatorClass) (qps : QueryParams).

(** An iteration that returns, on a key not yet in [query]. *)
Lemma process_param_fresh (param : str) (query : list (str * predicate))
    (invalid_qps : gset str) tr query1 invalid1 :
  dict_contains param query = false ->
  process_param cls qps param (query, invalid_qps) =
    (tr, Return (query1, invalid1)) ->
  tr = key_events cls qps param
  /\ query1 = query ++ resolved_entry cls qps param.
Proof.
  intros Hfresh. unfold key_events, resolved_entry, expected_predicate.
  pose proof Hfresh as Hnot. apply dict_contains_not_elem in Hnot.
  destruct (process_param_view cls qps param query invalid_qps)
    as [Hskip| Hr _ Hf |f Hr _ Hf Hex|f v Hr _ Hf Hex Hv _
       |f pre a post e ? ? Hf ? Hargs Hpre Ha ?].
  - rewrite Hfresh, orb_false_r in Hskip. rewrite Hskip.
    intros [= <- <- <-]. by rewrite app_nil_r.
  - rewrite Hr, Hf. intros [= <- <- <-]. by rewrite app_nil_r.
  - rewrite Hr, Hf, Hex. intros [= <- <- <-]. by rewrite dict_set_fresh.
  - rewrite Hr, Hf, Hex, Hv.
    destruct (q_func f v) as [q|e]; [|discriminate].
    intros [= <- <- <-]. by rewrite dict_set_fresh.
  - discriminate.
Qed.

Lemma process_param_keys (param : str) (query : list (str * predicate))
    (invalid_qps : gset str) tr query1 invalid1 k :
  process_param cls qps param (query, invalid_qps) =
    (tr, Return (query1, invalid1)) ->
  k ∈ dict_keys query1 -> k = param \/ k ∈ dict_keys query.
Proof.
  intros Hstep Hk. apply process_param_return in Hstep
    as [(-> & _)|[(-> & _)|(f & q & -> & _)]]; [by right..|].
  by apply elem_of_dict_keys_set in Hk.
Qed.

(** A run that returns, over distinct keys none of which is in [query]:
    the log and the additions to [query] are those of the keys, in order. *)
Lemma parse_loop_fresh (params : list str) :
  forall query invalid_qps tr query' invalid',
    NoDup params ->
    (forall k, k ∈ params -> dict_contains k query = false) ->
    parse_loop cls qps params (query, invalid_qps) =
      (tr, Return (query', invalid')) ->
    tr = flat_map (key_events cls qps) params
    /\ query' = query ++ flat_map (resolved_entry cls qps) params.
Proof.
  induction params as [|param rest IH];
    intros query invalid_qps tr query' invalid' Hnd Hfresh.
  - intros [= <- <- <-]. by rewrite app_nil_r.
  - cbn [parse_loop flat_map].
    destruct (process_param cls qps param (query, invalid_qps))
      as [tr1 [[query1 invalid1]|e1]] eqn:Hstep; [|discriminate].
    rewrite bind_Return.
    destruct (parse_loop cls qps rest (query1, invalid1))
      as [tr2 r2] eqn:Hloop. cbn. intros [= <- ->].
    apply NoDup_cons in Hnd as [Hparam Hnd].
    destruct (process_param_fresh _ _ _ _ _ _ (Hfresh param ltac:(left)) Hstep)
      as [-> Hq1].
    assert (Hfresh1 : forall k, k ∈ rest -> dict_contains k query1 = false).
    { intros k Hk. apply dict_contains_not_elem. intros Hin.
      destruct (process_param_keys _ _ _ _ _ _ _ Hstep Hin) as [->|Hin'];
        [done|].
      pose proof (Hfresh k ltac:(by right)) as Hc.
      by apply dict_contains_not_elem in Hc. }
    destruct (IH _ _ _ _ _ Hnd Hfresh1 Hloop) as [-> ->].
    by rewrite Hq1, <- app_assoc.
Qed.

(** Such a run returns as soon as every key the loop looks up and finds a
    descriptor for yields a predicate. *)
Lemma parse_loop_succeeds (params : list str) :
  forall query invalid_qps,
    NoDup params ->
    (forall k, k ∈ params -> dict_contains k query = false) ->
    (forall k f, k ∈ params -> is_reserved k = false ->
                 dict_get k (__filters__ cls) = Some f ->
                 is_Some (expected_predicate f qps k)) ->
    exists tr st, parse_loop cls qps params (query, invalid_qps) =
                  (tr, Return st).
Proof.
  induction params as [|param rest IH];
    intros query invalid_qps Hnd Hfresh Hok.
  - by exists [], (query, invalid_qps).
  - apply NoDup_cons in Hnd as [Hparam Hnd].
    assert (Hstep : exists tr1 query1 invalid1,
               process_param cls qps param (query, invalid_qps) =
               (tr1, Return (query1, invalid1))).
    { pose proof (Hfresh param ltac:(left)) as Hc.
      destruct (is_reserved param) eqn:Hr.
      { rewrite process_param_skip by (by rewrite Hr). by eauto. }
      destruct (dict_get param (__filters__ cls)) as [f|] eqn:Hf.
      2: { rewrite process_param_unknown by done. by eauto. }
      destruct (Hok param f ltac:(left) Hr Hf) as [q Hq].
      unfold expected_predicate in Hq.
      destruct (excluded f qps) eqn:Hex.
      { rewrite (process_param_excluded _ _ _ _ _ f) by done. by eauto. }
      destruct (parsed_value f qps param) as [v|] eqn:Hv; [|done].
      rewrite (process_param_parsed _ _ _ _ _ f v) by done.
      destruct (q_func f v); [by eauto | done]. }
    destruct Hstep as (tr1 & query1 & invalid1 & Hstep).
    destruct (IH query1 invalid1 Hnd) as (tr2 & st & Hloop).
    + intros k Hk. apply dict_contains_not_elem. intros Hin.
      destruct (process_param_keys _ _ _ _ _ _ _ Hstep Hin) as [->|Hin'];
        [done|].
      pose proof (Hfresh k ltac:(by right)) as Hc.
      by apply dict_contains_not_elem in Hc.
    + intros k f Hk. apply Hok. by right.
    + exists (tr1 ++ tr2), st. cbn [parse_loop].
      by rewrite Hstep, bind_Return, Hloop.
Qed.

(** On such a run the test [param in query] of line 73 never holds. *)
Lemma parse_loop_unguarded_fresh (params : list str) :
  forall query invalid_qps,
    NoDup params ->
    (forall k, k ∈ params -> dict_contains k query = false) ->
    parse_loop_unguarded cls qps params (query, invalid_qps) =
    parse_loop cls qps params (query, invalid_qps).
Proof.
  induction params as [|param rest IH];
    intros query invalid_qps Hnd Hfresh; [done|].
  cbn [parse_loop parse_loop_unguarded].
  apply NoDup_cons in Hnd as [Hparam Hnd].
  assert (Hstep : process_param_unguarded cls qps param (query, invalid_qps) =
                  process_param cls qps param (query, invalid_qps)).
  { unfold process_param_unguarded, process_param.
    by rewrite (Hfresh param ltac:(left)), orb_false_r. }
  rewrite Hstep.
  destruct (process_param cls qps param (query, invalid_qps))
    as [tr1 [[query1 invalid1]|e1]] eqn:Hp; [|done].
  rewrite !bind_Return, IH; [done | done |].
  intros k Hk. apply dict_contains_not_elem. intros Hin.
  destruct (process_param_keys _ _ _ _ _ _ _ Hp Hin) as [->|Hin'];
    [done|].
  pose proof (Hfresh k ltac:(by right)) as Hc.
  by apply dict_contains_not_elem in Hc.
Qed.

End FreshRuns.

(** ** When [parse] returns, and what *)

Section ParseReturns.
Context `{SetOrder}.

Lemma parse_return_inv
    (cls : QPTranslatorClass) (qps : QueryParams) (tr : list event)
    (res : ParseResult) :
  parse cls qps = (tr, Return res) ->
  exists filter_params query,
    parse_keys cls qps = (tr, Return (filter_params, (query, ∅)))
    /\ __required_filter_set__ cls ∖ list_to_set (dict_keys query) = ∅
    /\ res = {| query_list := dict_values query;
                sort := sort filter_params;
                limit := limit filter_params;
                offset := offset filter_params |}.
Proof.
  intros Hparse.
  destruct (parse_keys cls qps)
    as [tr' [[fp [query invalid_qps]]|e]] eqn:Hkeys.
  2: { rewrite (parse_keys_raise _ _ _ _ Hkeys) in Hparse. discriminate. }
  rewrite (parse_after_keys _ _ _ _ _ _ Hkeys) in Hparse.
  unfold parse_finish in Hparse.
  destruct (decide (invalid_qps = ∅)) as [->|Hne].
  2: { rewrite bool_decide_true in Hparse by done. discriminate. }
  rewrite bool_decide_false in Hparse by (intros Hne; by apply Hne).
  rewrite (check_required_filters_cases cls (dict_keys query)) in Hparse.
  cbv zeta in Hparse.
  destruct (decide (_ = ∅)) as [He|]; [|discriminate].
  injection Hparse as <- <-. by exists fp, query.
Qed.

(** When [parse_keys] returns with no unknown name, every key of the request
    that is not reserved has a descriptor and has got its predicate. *)
Lemma parse_keys_all_resolved
    (cls : QPTranslatorClass) (qps : QueryParams) (tr : list event)
    (filter_params : ParseResult) (query : list (str * predicate)) :
  parse_keys cls qps = (tr, Return (filter_params, (query, ∅))) ->
  forall k, k ∈ qp_keys qps -> is_reserved k = false ->
            exists f q, dict_get k (__filters__ cls) = Some f
                        /\ expected_predicate f qps k = Some q
                        /\ dict_get k query = Some q.
Proof.
  intros Hkeys k Hk Hr. apply parse_keys_return in Hkeys as (Hloop & _).
  apply parse_loop_return in Hloop as (_ & Hinvalid & _ & Hnew & _).
  2: { intros k' Hk'. by apply elem_of_nil in Hk'. }
  destruct (dict_get k (__filters__ cls)) as [f|] eqn:Hf.
  - destruct (Hnew k f Hk Hr Hf eq_refl) as (q & Hq & Hget). by exists f, q.
  - exfalso. assert (Hin : k ∈ (∅ : gset str)) by (apply Hinvalid; right; done).
    by apply elem_of_empty in Hin.
Qed.

Lemma flat_map_entries_names
    (entry : str -> list (str * predicate)) (keys : list str) :
  (forall k, k ∈ keys ->
             if is_reserved k then entry k = []
             else exists q, entry k = [(k, q)]) ->
  (flat_map entry keys).*1 = filter (fun k => is_reserved k = false) keys.
Proof.
  induction keys as [|k keys IH]; intros Hall; [done|].
  cbn [flat_map]. rewrite fmap_app, IH by (intros k' Hk'; apply Hall; by right).
  pose proof (Hall k ltac:(left)) as Hk.
  destruct (is_reserved k) eqn:Hr.
  - rewrite Hk, filter_cons_False by (by rewrite Hr). done.
  - destruct Hk as [q ->]. by rewrite filter_cons_True.
Qed.

(** X4.  Whenever [parse] returns a result, its [query_list] holds one
    predicate for every request key that is not reserved, in the order in
    which the keys first appear in the request: the empty predicate for
    a key whose descriptor is excluded, what the predicate builder made of
    the parsed value otherwise.  Its [sort] holds all the values given under
    [sort_by], in order and with their repetitions, and its [limit] and
    [offset] are what the conversion made of the two pagination values. *)
Theorem parse_result_contents
    (cls : QPTranslatorClass) (qps : QueryParams) (tr : list event)
    (res : ParseResult) :
  parse cls qps = (tr, Return res) ->
  query_list res = (flat_map (resolved_entry cls qps) (qp_keys qps)).*2
  /\ (flat_map (resolved_entry cls qps) (qp_keys qps)).*1 =
     filter (fun k => is_reserved k = false) (qp_keys qps)
  /\ (forall k, k ∈ qp_keys qps -> is_reserved k = false ->
                exists f q, dict_get k (__filters__ cls) = Some f
                            /\ expected_predicate f qps k = Some q
                            /\ resolved_entry cls qps k = [(k, q)])
  /\ sort res = qp_getlist qps (lit "sort_by")
  /\ pagination (qp_get qps (lit "limit")) = Return (limit res)
  /\ pagination (qp_get qps (lit "offset")) = Return (offset res).
Proof.
  intros Hparse.
  destruct (parse_return_inv _ _ _ _ Hparse) as (fp & query & Hkeys & _ & ->).
  pose proof (parse_keys_all_resolved _ _ _ _ _ Hkeys) as Hall.
  assert (Hentry : forall k, k ∈ qp_keys qps -> is_reserved k = false ->
                exists f q, dict_get k (__filters__ cls) = Some f
                            /\ expected_predicate f qps k = Some q
                            /\ resolved_entry cls qps k = [(k, q)]).
  { intros k Hk Hr. destruct (Hall k Hk Hr) as (f & q & Hf & Hq & _).
    exists f, q. split_and!; [done..|].
    unfold resolved_entry. by rewrite Hr, Hf, Hq. }
  apply parse_keys_return in Hkeys as (Hloop & Hl & Ho & Hs).
  apply parse_loop_fresh in Hloop as [_ ->].
  2: apply qp_keys_NoDup.
  2: { intros k _. by apply dict_contains_not_elem, not_elem_of_nil. }
  cbn. split_and!; try done.
  apply flat_map_entries_names. intros k Hk.
  destruct (is_reserved k) eqn:Hr.
  - unfold resolved_entry. by rewrite Hr.
  - destruct (Hentry k Hk Hr) as (f & q & _ & _ & He). by exists q.
Qed.

(** X5.  Whenever [parse] returns a result, the callbacks have been called
    key by key, in the order in which the keys first appear in the request:
    for a key that is not reserved and whose descriptor is not excluded, the
    parser on each of its arguments in order, then the predicate builder
    once, on the parsed value; for any other key, nothing. *)
Theorem parse_call_log
    (cls : QPTranslatorClass) (qps : QueryParams) (tr : list event)
    (res : ParseResult) :
  parse cls qps = (tr, Return res) ->
  tr = flat_map (key_events cls qps) (qp_keys qps)
  /\ (forall k, k ∈ qp_keys qps ->
        (is_reserved k = true -> key_events cls qps k = [])
        /\ (forall f, is_reserved k = false ->
              dict_get k (__filters__ cls) = Some f ->
              excluded f qps = true -> key_events cls qps k = [])
        /\ (forall f, is_reserved k = false ->
              dict_get k (__filters__ cls) = Some f ->
              excluded f qps = false ->
              exists v, parsed_value f qps k = Some v
                        /\ key_events cls qps k =
                           (ParserCall k <$> parser_args f qps k)
                           ++ [QFuncCall k v])).
Proof.
  intros Hparse.
  destruct (parse_return_inv _ _ _ _ Hparse) as (fp & query & Hkeys & _ & _).
  pose proof (parse_keys_all_resolved _ _ _ _ _ Hkeys) as Hall.
  apply parse_keys_return in Hkeys as (Hloop & _).
  apply parse_loop_fresh in Hloop as [-> _].
  2: apply qp_keys_NoDup.
  2: { intros k _. by apply dict_contains_not_elem, not_elem_of_nil. }
  split; [done|]. intros k Hk. unfold key_events. split_and!.
  - by intros ->.
  - by intros f -> -> ->.
  - intros f Hr Hf Hex. rewrite Hr, Hf, Hex.
    destruct (Hall k Hk Hr) as (f' & q & Hf' & Hq & _).
    assert (f' = f) as -> by congruence.
    unfold expected_predicate in Hq. rewrite Hex in Hq.
    destruct (parsed_value f qps k) as [v|]; [|done]. by exists v.
Qed.

(** X6.  [parse] returns a result exactly when the two pagination values
    are converted without failure, every request key that is not reserved
    has a descriptor which, unless excluded, has all its arguments parsed and
    its predicate built, and every required name is a request key that is
    not reserved. *)
Theorem parse_returns_iff (cls : QPTranslatorClass) (qps : QueryParams) :
  (exists tr res, parse cls qps = (tr, Return res)) <->
  (exists l, pagination (qp_get qps (lit "limit")) = Return l)
  /\ (exists o, pagination (qp_get qps (lit "offset")) = Return o)
  /\ (forall k, k ∈ qp_keys qps -> is_reserved k = false ->
                exists f, dict_get k (__filters__ cls) = Some f
                          /\ is_Some (expected_predicate f qps k))
  /\ (forall n, n ∈ __required_filter_set__ cls ->
                n ∈ qp_keys qps /\ is_reserved n = false).
Proof.
  split.
  - intros (tr & res & Hparse).
    destruct (parse_return_inv _ _ _ _ Hparse)
      as (fp & query & Hkeys & Hmiss & _).
    pose proof (parse_keys_all_resolved _ _ _ _ _ Hkeys) as Hall.
    pose proof (parse_keys_resolved _ _ _ _ _ _ Hkeys) as Hres.
    apply parse_keys_return in Hkeys as (_ & Hl & Ho & _).
    split_and!; [by eauto | by eauto | |].
    + intros k Hk Hr. destruct (Hall k Hk Hr) as (f & q & Hf & Hq & _).
      exists f. by rewrite Hq.
    + intros n Hn.
      destruct (decide (n ∈ dict_keys query)) as [Hin|Hnot].
      { apply Hres in Hin as (? & ? & _). done. }
      exfalso.
      assert (Hin : n ∈ __required_filter_set__ cls
                        ∖ list_to_set (dict_keys query)).
      { apply elem_of_difference. by rewrite elem_of_list_to_set. }
      rewrite Hmiss in Hin. by apply elem_of_empty in Hin.
  - intros ([l Hl] & [o Ho] & Hkeys & Hreq).
    destruct (parse_loop_succeeds cls qps (qp_keys qps) [] ∅)
      as (tr & [query invalid_qps] & Hloop).
    { apply qp_keys_NoDup. }
    { intros k _. by apply dict_contains_not_elem, not_elem_of_nil. }
    { intros k f Hk Hr Hf. destruct (Hkeys k Hk Hr) as (f' & Hf' & Hq).
      by assert (f' = f) as -> by congruence. }
    assert (Hpk : parse_keys cls qps =
                  (tr, Return ({| query_list := [];
                                  sort := qp_getlist qps (lit "sort_by");
                                  limit := l; offset := o |},
                               (query, invalid_qps)))).
    { destruct (parse_keys_cases cls qps)
        as [(e & _ & [He|He])|(l' & o' & Hl' & Ho' & ->)]; [congruence..|].
      rewrite Hloop. cbn. congruence. }
    pose proof Hloop as Hret.
    apply parse_loop_return in Hret as (_ & Hinvalid & _).
    2: { intros k' Hk'. by apply elem_of_nil in Hk'. }
    assert (Hempty : invalid_qps = ∅).
    { apply set_eq. intros k. rewrite Hinvalid, elem_of_empty.
      split; [|done]. intros [Hk|(Hk & Hr & Hnone)]; [done|].
      destruct (Hkeys k Hk Hr) as (f & Hf & _). congruence. }
    subst invalid_qps.
    pose proof (parse_keys_resolved _ _ _ _ _ _ Hpk) as Hres.
    exists tr. eexists.
    rewrite (parse_after_keys _ _ _ _ _ _ Hpk). unfold parse_finish.
    rewrite bool_decide_false by (intros Hne; by apply Hne).
    rewrite (check_required_filters_cases cls (dict_keys query)). cbv zeta.
    destruct (decide (_ = ∅)) as [_|Hne]; [done|].
    exfalso. apply Hne. apply set_eq. intros n.
    rewrite elem_of_difference, elem_of_list_to_set, elem_of_empty.
    split; [|done]. intros [Hn Hnot]. apply Hnot. apply Hres.
    destruct (Hreq n Hn) as [Hk Hr]. split_and!; [done..|].
    destruct (Hkeys n Hk Hr) as (f & -> & _). done.
Qed.

(** X7.  In the loop [parse] runs, the test [param in query] of line 73
    never holds: the request keys are distinct and [query] only holds keys
    already gone through, so that the loop without that test ends in the
    same way, with the same calls. *)
Theorem query_guard_never_holds (cls : QPTranslatorClass) (qps : QueryParams) :
  parse_loop_unguarded cls qps (qp_keys qps) ([], ∅) =
  parse_loop cls qps (qp_keys qps) ([], ∅).
Proof.
  apply parse_loop_unguarded_fresh.
  - apply qp_keys_NoDup.
  - intros k _. by apply dict_contains_not_elem, not_elem_of_nil.
Qed.

End ParseReturns.

(** ** What [parse] raises *)

Section ParseRaises.
Context `{SetOrder}.

(** A failing call of [parse] failed on a pagination value, at its last
    callback call, or after the loop. *)
Lemma parse_raise_cases
    (cls : QPTranslatorClass) (qps : QueryParams) (tr : list event) (e : exn) :
  parse cls qps = (tr, Raise e) ->
  (tr = []
   /\ (pagination (qp_get qps (lit "limit")) = Raise e
       \/ pagination (qp_get qps (lit "offset")) = Raise e))
  \/ (exists pre ev, tr = pre ++ [ev] /\ event_raises cls ev e
                     /\ (exists l, pagination (qp_get qps (lit "limit")) =
                                   Return l)
                     /\ (exists o, pagination (qp_get qps (lit "offset")) =
                                   Return o))
  \/ (exists filter_params query invalid_qps,
         parse_keys cls qps =
           (tr, Return (filter_params, (query, invalid_qps)))
         /\ parse_finish cls filter_params query invalid_qps = Raise e).
Proof.
  intros Hparse.
  destruct (parse_keys cls qps)
    as [tr' [[fp [query invalid_qps]]|e']] eqn:Hkeys.
  - rewrite (parse_after_keys _ _ _ _ _ _ Hkeys) in Hparse.
    injection Hparse as <- Hfin. right. right. by exists fp, query, invalid_qps.
  - rewrite (parse_keys_raise _ _ _ _ Hkeys) in Hparse.
    injection Hparse as <- <-.
    destruct (parse_keys_cases cls qps)
      as [(e & Hk & Hpag)|(l & o & Hl & Ho & Hk)]; rewrite Hkeys in Hk.
    + injection Hk as -> ->. by left.
    + right. left.
      pose proof (parse_loop_shape cls qps (qp_keys qps) ([], ∅)) as Hshape.
      destruct (parse_loop cls qps (qp_keys qps) ([], ∅)) as [tr0 r0].
      cbn [fst snd] in Hk.
      inversion Hshape as [tr1 st1 Hret|tr1 ev e1 Hret Hev]; subst;
        [discriminate|].
      injection Hk as -> ->. exists tr1, ev. split_and!; by eauto.
Qed.

(** X8.  Whatever [parse] raises comes from one of five places: the
    conversion of a pagination value, before any callback is called; the
    last callback call, a parser whose exception went through the handlers
    of lines 89-95; the last callback call, a predicate builder whose
    exception is passed on as it is; the test for unknown names; or the
    check of the required names. *)
Theorem parse_raise_origin
    (cls : QPTranslatorClass) (qps : QueryParams) (tr : list event) (e : exn) :
  parse cls qps = (tr, Raise e) -> raised_by cls qps tr e.
Proof.
  intros Hparse.
  destruct (parse_raise_cases _ _ _ _ Hparse)
    as [[-> Hpag]|[(pre & ev & -> & (f & Hf & Hev) & _)
                  |(fp & query & invalid_qps & Hkeys & Hfin)]].
  - by apply raised_by_pagination.
  - destruct ev as [P a|P v]; cbn in Hf, Hev.
    + destruct Hev as (e0 & Ha & ->). by eapply raised_by_parser.
    + by eapply raised_by_builder.
  - unfold parse_finish in Hfin.
    destruct (decide (invalid_qps = ∅)) as [->|Hne].
    + rewrite bool_decide_false in Hfin by (intros Hne; by apply Hne).
      rewrite (check_required_filters_cases cls (dict_keys query)) in Hfin.
      cbv zeta in Hfin.
      destruct (decide (_ = ∅)) as [|Hmiss]; [discriminate|].
      injection Hfin as <-.
      eapply raised_by_required; [exact Hmiss | | done].
      pose proof (parse_keys_all_resolved _ _ _ _ _ Hkeys) as Hall.
      pose proof (parse_keys_resolved _ _ _ _ _ _ Hkeys) as Hres.
      intros n. rewrite elem_of_difference, elem_of_list_to_set, Hres.
      split.
      * intros [Hreq Hnot]. split; [done|]. intros [Hk Hr]. apply Hnot.
        destruct (Hall n Hk Hr) as (f & _ & -> & _). done.
      * intros [Hreq Hnot]. split; [done|]. intros (Hk & Hr & _).
        by apply Hnot.
    + rewrite bool_decide_true in Hfin by done. injection Hfin as <-.
      eapply raised_by_unknown; [exact Hne | | done].
      apply parse_keys_return in Hkeys as (Hloop & _).
      apply parse_loop_return in Hloop as (_ & Hinvalid & _).
      2: { intros k' Hk'. by apply elem_of_nil in Hk'. }
      intros k. rewrite Hinvalid, elem_of_empty. tauto.
Qed.

(** X9.  With a registry all of whose descriptors keep to the contract
    (the parser fails with ValueError only, the predicate builder does not
    fail), and pagination values that are converted, [parse] fails, if it
    does, with an HTTPException of status 400 and nothing else. *)
Theorem parse_fails_with_400_only
    (cls : QPTranslatorClass) (qps : QueryParams) (tr : list event) (e : exn) :
  (forall k g, dict_get k (__filters__ cls) = Some g -> honours_contract g) ->
  (exists l, pagination (qp_get qps (lit "limit")) = Return l) ->
  (exists o, pagination (qp_get qps (lit "offset")) = Return o) ->
  parse cls qps = (tr, Raise e) ->
  exists detail, e = HTTPException HTTP_400_BAD_REQUEST detail.
Proof.
  intros Hcontract [l Hl] [o Ho] Hparse.
  destruct (parse_raise_cases _ _ _ _ Hparse)
    as [[_ [Hpag|Hpag]]|[(pre & ev & _ & (f & Hf & Hev) & _)
                  |(fp & query & invalid_qps & _ & Hfin)]];
    [congruence.. | |].
  - destruct (Hcontract _ _ Hf) as [Hparser Hbuilder].
    destruct ev as [P a|P v]; cbn in Hf, Hev.
    + destruct Hev as (e0 & Ha & ->).
      destruct (Hparser _ _ Ha) as [msg ->]. by eexists.
    + destruct (Hbuilder v) as [q Hq]. by rewrite Hev in Hq.
  - unfold parse_finish in Hfin.
    destruct (bool_decide (invalid_qps <> ∅)).
    { injection Hfin as <-. by eexists. }
    rewrite (check_required_filters_cases cls (dict_keys query)) in Hfin.
    cbv zeta in Hfin.
    destruct (decide (_ = ∅)); [discriminate|].
    injection Hfin as <-. by eexists.
Qed.

End ParseRaises.

(** ** Pagination values *)

Lemma isdigit_TODECIMAL_nonempty (s : str) (ds : list N) :
  mapM Py_UNICODE_TODECIMAL s = Some ds -> s <> [] -> isdigit s = true.
Proof.
  intros Hds Hne. destruct s as [|c s]; [done|]. unfold isdigit.
  apply forallb_forall. intros x Hx. apply list_elem_of_In in Hx.
  assert (Hall : Forall (fun c => is_Some (Py_UNICODE_TODECIMAL c)) (c :: s)).
  { apply mapM_is_Some_1. by rewrite Hds. }
  rewrite Forall_forall in Hall. destruct (Hall x Hx) as [d Hd].
  unfold Py_UNICODE_ISDIGIT. by rewrite Hd.
Qed.

(** X10.  A pagination field is left unset exactly when its key is absent
    or its value is not made of digits only (the empty value included); it
    is set, to the number the value denotes in base ten, exactly when the
    value is not empty, every character is a decimal digit and there are at
    most 4300 of them; and the conversion raises a ValueError exactly when
    the value is made of digits and either starts with more than 4300
    decimal digits, the message then giving their number, or else holds a
    digit that is not decimal, the message then quoting the value up to the
    200th character of its [repr]. *)
Theorem pagination_spec (v : option str) :
  (pagination v = Return None <->
   v = None \/ exists s, v = Some s /\ isdigit s = false)
  /\ (forall z,
         pagination v = Return (Some z) <->
         exists s ds,
           v = Some s /\ s <> []
           /\ mapM Py_UNICODE_TODECIMAL s = Some ds
           /\ (length s <= int_max_str_digits)%nat
           /\ z = fold_left (fun acc x => 10 * acc + Z.of_N x) ds 0)
  /\ (forall e,
         pagination v = Raise e <->
         exists s,
           v = Some s /\ isdigit s = true
           /\ (((int_max_str_digits < length (leading_decimals s))%nat
                /\ e = ValueError
                         (int_exceeds_limit (length (leading_decimals s))))
               \/ ((length (leading_decimals s) <= int_max_str_digits)%nat
                   /\ mapM Py_UNICODE_TODECIMAL s = None
                   /\ e = ValueError (int_invalid_literal s)))).
Proof.
  destruct v as [s|].
  2: { split_and!.
       - split; [by left | done].
       - intros z. split; [done | by intros (? & ? & ? & _)].
       - intros e. split; [done | by intros (? & ? & _)]. }
  assert (Htruthy : isdigit s = true -> str_truthy s = true).
  { by destruct s. }
  unfold pagination. destruct (isdigit s) eqn:Hd.
  - rewrite Htruthy by done. cbn [andb]. unfold int.
    assert (Hne : s <> []) by (by destruct s).
    destruct (decide (int_max_str_digits < length (leading_decimals s))%nat)
      as [Hgt|Hle].
    + rewrite bool_decide_true by done. split_and!.
      * split; [done|]. intros [?|(s' & [= <-] & ?)]; congruence.
      * intros z. split; [done|].
        intros (s' & ds' & [= <-] & _ & Hds' & Hlen & _).
        rewrite (leading_decimals_all _ _ Hds') in Hgt.
        apply length_mapM in Hds'. lia.
      * intros e. split.
        { intros [= <-]. exists s. split_and!; [done..|]. by left. }
        { intros (s' & [= <-] & _ & [[_ ->]|(? & _)]); [done | lia]. }
    + rewrite bool_decide_false by done.
      destruct (mapM Py_UNICODE_TODECIMAL s) as [ds|] eqn:Hds.
      * assert (Hlen : length s = length ds) by (by eapply length_mapM).
        pose proof (leading_decimals_all _ _ Hds) as Hlead.
        destruct ds as [|d ds]; [by destruct s|]. split_and!.
        { split; [done|]. intros [?|(s' & [= <-] & ?)]; congruence. }
        { intros z. split.
          - intros [= <-]. exists s, (d :: ds).
            rewrite Hlead in Hle. split_and!; [done..|lia|done].
          - intros (s' & ds' & [= <-] & _ & Hds' & _ & ->).
            by assert (ds' = d :: ds) as -> by congruence. }
        { intros e. split; [done|].
          intros (s' & [= <-] & _ & [[? _]|(_ & ? & _)]); [lia | congruence]. }
      * split_and!.
        { split; [done|]. intros [?|(s' & [= <-] & ?)]; congruence. }
        { intros z. split; [done|].
          intros (s' & ds' & [= <-] & _ & ? & _). congruence. }
        { intros e. split.
          - intros [= <-]. exists s. split_and!; [done..|]. right.
            split_and!; [lia | done | done].
          - intros (s' & [= <-] & _ & [[? _]|(_ & _ & ->)]); [lia | done]. }
  - rewrite andb_false_r. split_and!.
    + split; [|done]. intros _. right. by exists s.
    + intros z. split; [done|].
      intros (s' & ds' & [= <-] & Hne & Hds & _).
      by rewrite (isdigit_TODECIMAL_nonempty s ds') in Hd.
    + intros e. split; [done|]. intros (s' & [= <-] & ? & _). congruence.
Qed.

(** ** A subtype that declares nothing *)

Lemma dict_update_fresh {V} (d other : list (str * V)) :
  NoDup (dict_keys (d ++ other)) -> dict_update d other = d ++ other.
Proof.
  unfold dict_update, dict_keys. revert d.
  induction other as [|[k v] other IH]; intros d Hnd.
  - by rewrite app_nil_r.
  - cbn [fold_left fst snd].
    assert (Hk : k ∉ dict_keys d).
    { rewrite fmap_app in Hnd. apply NoDup_app in Hnd as (_ & Hdisj & _).
      intros Hin. apply (Hdisj k Hin). left. }
    rewrite (dict_set_fresh k v d Hk), IH; rewrite <- app_assoc; done.
Qed.

Lemma metaclass_filters_NoDup
    (bases : list base_class) (declared : option (list (str * Filter))) :
  NoDup (dict_keys (__filters__ (QPTranslatorMetaclass_new bases declared))).
Proof.
  unfold QPTranslatorMetaclass_new. cbn.
  apply dict_update_NoDup, merge_bases_NoDup, NoDup_nil_2.
Qed.

(** The loop looks at a class through its [__filters__] only. *)
Lemma parse_loop_ext (c1 c2 : QPTranslatorClass) (qps : QueryParams)
    (params : list str) (st : loop_state) :
  __filters__ c1 = __filters__ c2 ->
  parse_loop c1 qps params st = parse_loop c2 qps params st.
Proof.
  intros Heq. revert st. induction params as [|param rest IH]; intros st;
    [done|].
  cbn [parse_loop].
  assert (Hstep : process_param c1 qps param st = process_param c2 qps param st).
  { unfold process_param. by rewrite Heq. }
  rewrite Hstep. destruct (process_param c2 qps param st) as [tr [st'|e]];
    [|done].
  by rewrite !bind_Return, IH.
Qed.

Section EmptySubtype.
Context `{SetOrder}.

(** X11.  A subtype with one base made by the metaclass and no descriptor
    of its own (no [__filters__] in its body, or an empty one) has the
    registry of its base, names in the same order, and no required name:
    on every request lines 62-96 do for it what they do for the base, and
    where they end without an unknown name the subtype returns the result,
    whatever the base requires. *)
Theorem empty_subtype_registry
    (bases : list base_class) (declared declared' : option (list (str * Filter))) :
  namespace_filters declared' = [] ->
  __filters__ (QPTranslatorMetaclass_new
                 [as_base (QPTranslatorMetaclass_new bases declared)]
                 declared') =
  __filters__ (QPTranslatorMetaclass_new bases declared)
  /\ __required_filter_set__
       (QPTranslatorMetaclass_new
          [as_base (QPTranslatorMetaclass_new bases declared)] declared') = ∅
  /\ (forall qps,
         parse_keys
           (QPTranslatorMetaclass_new
              [as_base (QPTranslatorMetaclass_new bases declared)] declared')
           qps =
         parse_keys (QPTranslatorMetaclass_new bases declared) qps)
  /\ (forall qps tr filter_params query,
         parse_keys (QPTranslatorMetaclass_new bases declared) qps =
           (tr, Return (filter_params, (query, ∅))) ->
         parse
           (QPTranslatorMetaclass_new
              [as_base (QPTranslatorMetaclass_new bases declared)] declared')
           qps =
         (tr, Return {| query_list := dict_values query;
                        sort := sort filter_params;
                        limit := limit filter_params;
                        offset := offset filter_params |})).
Proof.
  intros Hempty.
  set (base := QPTranslatorMetaclass_new bases declared).
  set (sub := QPTranslatorMetaclass_new [as_base base] declared').
  assert (Hf : __filters__ sub = __filters__ base).
  { unfold sub, QPTranslatorMetaclass_new at 1. cbn.
    rewrite Hempty. cbn. apply (dict_update_fresh []).
    apply metaclass_filters_NoDup. }
  assert (Hr : __required_filter_set__ sub = ∅).
  { unfold sub, QPTranslatorMetaclass_new at 1. cbn. by rewrite Hempty. }
  assert (Hk : forall qps, parse_keys sub qps = parse_keys base qps).
  { intros qps. unfold parse_keys.
    by rewrite (parse_loop_ext sub base qps _ _ Hf). }
  split_and!; [done..|].
  intros qps tr fp query Hkeys. rewrite <- Hk in Hkeys.
  rewrite (parse_after_keys _ _ _ _ _ _ Hkeys). unfold parse_finish.
  rewrite bool_decide_false by (intros Hne; by apply Hne).
  unfold _check_required_filters. by rewrite Hr, bool_decide_true.
Qed.

End EmptySubtype.

(** ** Descriptors that exclude each other *)

Section MutualExclusion.
Context `{SetOrder}.

(** X12.  When two keys of a request that the loop looks up have
    descriptors each of which lists the other key among its exclusions, both
    are dropped: no call of [parse] calls a parser or a predicate builder for
    either, and when the loop has gone through the keys both hold the empty
    predicate. *)
Theorem mutual_exclusion_drops_both
    (cls : QPTranslatorClass) (qps : QueryParams)
    (A B : str) (fA fB : Filter) :
  A ∈ qp_keys qps -> is_reserved A = false ->
  B ∈ qp_keys qps -> is_reserved B = false ->
  dict_get A (__filters__ cls) = Some fA ->
  dict_get B (__filters__ cls) = Some fB ->
  B ∈ exclusions fA ->
  A ∈ exclusions fB ->
  (forall ev, ev ∈ (parse cls qps).1 ->
              event_param ev <> A /\ event_param ev <> B)
  /\ (forall tr filter_params query invalid_qps,
         parse_keys cls qps =
           (tr, Return (filter_params, (query, invalid_qps))) ->
         dict_get A query = Some [] /\ dict_get B query = Some []).
Proof.
  intros HA HrA HB HrB HfA HfB HBA HAB.
  assert (HexA : excluded fA qps = true) by (apply excluded_true; eauto).
  assert (HexB : excluded fB qps = true) by (apply excluded_true; eauto).
  destruct (excluded_param_suppressed cls qps A fA HA HrA HfA HexA)
    as (_ & HlogA & HfinA).
  destruct (excluded_param_suppressed cls qps B fB HB HrB HfB HexB)
    as (_ & HlogB & HfinB).
  split.
  - intros ev Hev. split; [by apply HlogA | by apply HlogB].
  - intros tr fp query invalid_qps Hkeys.
    destruct (HfinA _ _ _ _ Hkeys) as [? _].
    destruct (HfinB _ _ _ _ Hkeys) as [? _]. done.
Qed.

End MutualExclusion.

(** ** The parser factories *)

Section ParserFactories.
Context `{SetOrder}.

(** A parser call that raises decides what [parse] raises. *)
Lemma parse_failing_call
    (cls : QPTranslatorClass) (qps : QueryParams)
    (tr : list event) (r : outcome ParseResult)
    (P : str) (a : pyval) (f : Filter) (e0 : exn) :
  parse cls qps = (tr, r) ->
  ParserCall P a ∈ tr ->
  dict_get P (__filters__ cls) = Some f ->
  t_parser f a = Raise e0 ->
  r = Raise (parser_handler e0).
Proof.
  intros Hparse Hin Hf Ha.
  assert (Hlog : (parse_keys cls qps).1 = tr).
  { by rewrite <- parse_log, Hparse. }
  destruct (parse_keys_shape cls qps) as [Hnil|Hshape].
  { rewrite Hnil in Hlog. subst tr. by apply elem_of_nil in Hin. }
  destruct (run_shape_failing_call cls _ P a f e0 Hshape)
    as (Hres & _); [by rewrite Hlog | done | done |].
  destruct (parse_keys cls qps) as [tr' r'] eqn:Hkeys. cbn in Hlog, Hres.
  subst tr' r'. apply parse_keys_raise in Hkeys. congruence.
Qed.

(** X13.  A descriptor whose parser is made by [get_type_parser] keeps to
    the contract as long as the type raises instances of [Exception] only:
    the parser returns what [_type(v)] returns, and when [_type(v)] raises,
    whatever the exception, a call of [parse] that parses [v] for this
    descriptor ends with the client error (status 400) whose detail is
    'Value v is not correct for type T', T being the name of the type. *)
Theorem type_parser_in_parse
    (cls : QPTranslatorClass) (qps : QueryParams)
    (tr : list event) (r : outcome ParseResult)
    (P : str) (f : Filter) (_type : pytype) (v : str) :
  parse cls qps = (tr, r) ->
  ParserCall P (VStr v) ∈ tr ->
  dict_get P (__filters__ cls) = Some f ->
  t_parser f (VStr v) = get_type_parser _type v ->
  (forall x, type_call _type v = Return x -> t_parser f (VStr v) = Return x)
  /\ (forall e0,
         type_call _type v = Raise e0 ->
         is_Exception e0 = true ->
         r = Raise (HTTPException HTTP_400_BAD_REQUEST
                      (lit "Value " ++ v ++ lit " is not correct for type "
                       ++ type_name _type))).
Proof.
  intros Hparse Hin Hf Hp. split.
  - intros x Hx. rewrite Hp. unfold get_type_parser. by rewrite Hx.
  - intros e0 He0 Hexc.
    assert (Hraise : t_parser f (VStr v) =
                     Raise (ValueError (type_parser_message _type v))).
    { rewrite Hp. unfold get_type_parser. by rewrite He0, Hexc. }
    by rewrite (parse_failing_call _ _ _ _ _ _ _ _ Hparse Hin Hf Hraise).
Qed.

(** X14.  A descriptor whose parser is [datetime_parser]: when
    [datetime.fromisoformat] raises an instance of [Exception] on [v], a
    call of [parse] that parses [v] for this descriptor ends with the client
    error (status 400) whose detail is 'Field with date must be in ISO
    format'; when it returns, the parser returns the same value. *)
Theorem datetime_parser_in_parse
    (fromisoformat : str -> outcome pyval)
    (cls : QPTranslatorClass) (qps : QueryParams)
    (tr : list event) (r : outcome ParseResult)
    (P : str) (f : Filter) (v : str) :
  parse cls qps = (tr, r) ->
  ParserCall P (VStr v) ∈ tr ->
  dict_get P (__filters__ cls) = Some f ->
  t_parser f (VStr v) = datetime_parser fromisoformat v ->
  (forall x, fromisoformat v = Return x -> t_parser f (VStr v) = Return x)
  /\ (forall e0,
         fromisoformat v = Raise e0 ->
         is_Exception e0 = true ->
         r = Raise (HTTPException HTTP_400_BAD_REQUEST
                      (lit "Field with date must be in ISO format"))).
Proof.
  intros Hparse Hin Hf Hp. split.
  - intros x Hx. rewrite Hp. unfold datetime_parser. by rewrite Hx.
  - intros e0 He0 Hexc.
    assert (Hraise : t_parser f (VStr v) =
                     Raise (ValueError datetime_parser_message)).
    { rewrite Hp. unfold datetime_parser. by rewrite He0, Hexc. }
    by rewrite (parse_failing_call _ _ _ _ _ _ _ _ Hparse Hin Hf Hraise).
Qed.

End ParserFactories.


Lemma str_items_not_str (i : nat) (pre : list str) (x : pyval)
    (post : list pyval) :
  (forall s, x <> VStr s) ->
  str_items i ((VStr <$> pre) ++ x :: post) =
  Raise (join_type_error (i + length pre) x).
Proof.
  intros Hx. revert i. induction pre as [|s pre IH]; intros i.
  - cbn. rewrite Nat.add_0_r. destruct x; try done. by destruct (Hx s).
  - cbn. rewrite IH. by replace (S i + length pre)%nat
                          with (i + S (length pre))%nat by lia.
Qed.

Lemma find_is_str_value_None (members : list (str * pyval)) (v : str) :
  List.find (fun m => is_str_value m.2 v) members = None <->
  forall m, m ∈ members -> m.2 <> VStr v.
Proof.
  induction members as [|m members IH]; cbn.
  - split; [|done]. intros _ m Hm. by apply elem_of_nil in Hm.
  - destruct (is_str_value m.2 v) eqn:Hm.
    + split; [done|]. intros Hall. exfalso.
      apply (Hall m); [left|]. unfold is_str_value in Hm.
      destruct m.2; try done. by apply bool_decide_eq_true in Hm as ->.
    + rewrite IH. split.
      * intros Hall m' [->|Hin]%elem_of_cons; [|by apply Hall].
        intros Heq. rewrite Heq in Hm. cbn in Hm.
        by rewrite bool_decide_true in Hm.
      * intros Hall m' Hin. apply Hall. by right.
Qed.


Section EnumInParse.
Context `{SetOrder}.

(** X16.  A descriptor whose parser is made by [get_enum_parser] from an
    enumeration one of whose values is not a string (an IntEnum, say) breaks
    the contract: when [parse] calls it on a string that is the value of no
    member, the parser fails with a TypeError and [parse] ends with the
    Warning of line 95, an internal error, where a client error was meant. *)
Theorem non_string_enum_in_parse
    (cls : QPTranslatorClass) (qps : QueryParams)
    (tr : list event) (r : outcome ParseResult)
    (P : str) (f : Filter) (enum : pyenum) (v : str)
    (pre : list str) (x : pyval) (post : list pyval) :
  parse cls qps = (tr, r) ->
  ParserCall P (VStr v) ∈ tr ->
  dict_get P (__filters__ cls) = Some f ->
  (forall e, get_enum_parser enum v = Raise e ->
             t_parser f (VStr v) = Raise e) ->
  (forall m, m ∈ enum_members enum -> m.2 <> VStr v) ->
  (enum_members enum).*2 = (VStr <$> pre) ++ x :: post ->
  (forall s, x <> VStr s) ->
  r = Raise (Warning (lit "t_parser can only raise a ValueError")).
Proof.
  intros Hparse Hin Hf Hp Hnone Hvals Hx.
  assert (Hraise : get_enum_parser enum v =
                   Raise (join_type_error (0 + length pre) x)).
  { apply find_is_str_value_None in Hnone. unfold get_enum_parser.
    rewrite Hnone. unfold enum_type_info, str_join_values.
    by rewrite Hvals, str_items_not_str. }
  apply Hp in Hraise.
  by rewrite (parse_failing_call _ _ _ _ _ _ _ _ Hparse Hin Hf Hraise).
Qed.

End EnumInParse.

(** ** The documentation string *)

Lemma str_prefix_app (p s : str) : str_prefix p (p ++ s) = true.
Proof.
  induction p as [|a p IH]; [done|]. cbn. by rewrite bool_decide_true.
Qed.

Lemma str_contains_app_r (x a s : str) :
  str_contains x s = true -> str_contains x (a ++ s) = true.
Proof.
  intros Hs. induction a as [|c a IH]; [done|].
  cbn. rewrite IH. apply orb_true_r.
Qed.

Lemma str_contains_mid (x a b : str) : str_contains x (a ++ x ++ b) = true.
Proof.
  apply str_contains_app_r. destruct (x ++ b) eqn:Hxb.
  - destruct x; [done | discriminate].
  - rewrite <- Hxb. cbn [str_contains].
    assert (Hp : str_prefix x (x ++ b) = true) by apply str_prefix_app.
    rewrite Hxb in *. cbn [str_contains]. by rewrite Hp.
Qed.

Lemma str_join_item (sep item : str) (items : list str) :
  item ∈ items -> exists a b, str_join sep items = a ++ item ++ b.
Proof.
  induction items as [|y items IH]; intros Hin.
  - by apply elem_of_nil in Hin.
  - apply elem_of_cons in Hin as [->|Hin].
    + destruct items as [|z items].
      * exists [], []. cbn. by rewrite app_nil_r.
      * exists [], (sep ++ str_join sep (z :: items)). done.
    + destruct (IH Hin) as (a & b & Hj).
      destruct items as [|z items]; [by apply elem_of_nil in Hin|].
      exists (y ++ sep ++ a), b. cbn [str_join]. cbn [str_join] in Hj.
      rewrite Hj. by rewrite <- !app_assoc.
Qed.




Section DocsFacts.
Variable generic_args : Filter -> list type_arg.



Lemma docs_items_returns (filters : list (str * Filter)) :
  (exists items, docs_items generic_args filters = Return items) <->
  forall n f, (n, f) ∈ filters ->
              exists info, filter_info generic_args f = Return info.
Proof.
  induction filters as [|[n f] filters IH]; cbn.
  - split; [|by eauto]. intros _ n f Hin. by apply elem_of_nil in Hin.
  - destruct (filter_info generic_args f) as [info|e] eqn:Hinfo.
    + destruct (docs_items generic_args filters) as [items|e] eqn:Hitems.
      * split; [|by eauto]. intros _ n' f' [[= -> ->]|Hin]%elem_of_cons.
        { by eauto. }
        { eapply (proj1 IH); [by eauto | exact Hin]. }
      * split; [by intros [? ?]|]. intros Hall.
        destruct (proj2 IH) as [? ?]; [|done].
        intros n' f' Hin. apply (Hall n' f'). by right.
    + split; [by intros [? ?]|]. intros Hall.
      destruct (Hall n f ltac:(left)) as [? ?]. congruence.
Qed.

(** The generator of lines 47-48 fails at the first descriptor, in registry
    order, on which [filter_info] fails, and with its exception. *)
Lemma docs_items_raises (filters : list (str * Filter)) (e : exn) :
  docs_items generic_args filters = Raise e <->
  exists pre n f post,
    filters = pre ++ (n, f) :: post
    /\ (forall n' f', (n', f') ∈ pre ->
                      exists info, filter_info generic_args f' = Return info)
    /\ filter_info generic_args f = Raise e.
Proof.
  revert e. induction filters as [|[n0 f0] filters IH]; intros e.
  - split; [done|]. intros (pre & n & f & post & Heq & _).
    by destruct pre.
  - cbn [docs_items].
    destruct (filter_info generic_args f0) as [info|e0] eqn:Hinfo.
    + assert (Hstep : docs_items generic_args filters = Raise e <->
                match docs_items generic_args filters with
                | Raise e1 => Raise e1
                | Return items =>
                    Return ((lit "<br><h3>" ++ n0 ++ lit "</h3>" ++ info)
                              :: items)
                end = Raise e).
      { by destruct (docs_items generic_args filters). }
      rewrite <- Hstep, IH. split.
      * intros (pre & n & f & post & -> & Hpre & Hf).
        exists ((n0, f0) :: pre), n, f, post. split_and!; [done| |done].
        intros n' f' [[= -> ->]|Hin]%elem_of_cons; by eauto.
      * intros (pre & n & f & post & Heq & Hpre & Hf).
        destruct pre as [|nf pre].
        { injection Heq as <- <- <-. congruence. }
        injection Heq as <- ->.
        exists pre, n, f, post. split_and!; [done| |done].
        intros n' f' Hin. apply (Hpre n' f'). by right.
    + split.
      * intros [= <-]. exists [], n0, f0, filters. split_and!; [done| |done].
        intros n' f' Hin. by apply elem_of_nil in Hin.
      * intros (pre & n & f & post & Heq & Hpre & Hf).
        destruct pre as [|nf pre].
        { injection Heq as <- <- <-. congruence. }
        injection Heq as <- ->.
        destruct (Hpre n0 f0 ltac:(left)) as [? ?]. congruence.
Qed.

Lemma make_docs_returns (filters : list (str * Filter)) :
  (exists docs, make_docs generic_args filters = Return docs) <->
  exists items, docs_items generic_args filters = Return items.
Proof.
  unfold make_docs. destruct filters as [|nf filters].
  - split; by eauto.
  - destruct (docs_items generic_args (nf :: filters));
      split; intros [? ?]; by eauto.
Qed.

Lemma make_docs_raises (filters : list (str * Filter)) (e : exn) :
  make_docs generic_args filters = Raise e <->
  docs_items generic_args filters = Raise e.
Proof.
  unfold make_docs. destruct filters as [|nf filters]; [done|].
  destruct (docs_items generic_args (nf :: filters)); split; congruence.
Qed.

Lemma new_docs_returns
    (bases : list base_class) (declared : option (list (str * Filter))) :
  (exists docs,
      QPTranslatorMetaclass_new_docs generic_args bases declared =
      Return (QPTranslatorMetaclass_new bases declared, docs))
  <->
  exists items,
    docs_items generic_args
      (__filters__ (QPTranslatorMetaclass_new bases declared)) = Return items.
Proof.
  rewrite <- make_docs_returns. unfold QPTranslatorMetaclass_new_docs.
  destruct (make_docs generic_args _); split; intros [? ?]; by eauto.
Qed.


Lemma new_docs_raises
    (bases : list base_class) (declared : option (list (str * Filter)))
    (e : exn) :
  QPTranslatorMetaclass_new_docs generic_args bases declared = Raise e <->
  docs_items generic_args
    (__filters__ (QPTranslatorMetaclass_new bases declared)) = Raise e.
Proof.
  rewrite <- make_docs_raises. unfold QPTranslatorMetaclass_new_docs.
  destruct (make_docs generic_args _); split; congruence.
Qed.

Lemma docs_items_heading (filters : list (str * Filter)) (items : list str)
    (n : str) :
  docs_items generic_args filters = Return items ->
  n ∈ dict_keys filters ->
  exists info, (lit "<br><h3>" ++ n ++ lit "</h3>" ++ info) ∈ items.
Proof.
  revert items. induction filters as [|[n' f] filters IH]; intros items.
  - intros _ Hn. by apply elem_of_nil in Hn.
  - cbn. destruct (filter_info generic_args f) as [info|]; [|discriminate].
    destruct (docs_items generic_args filters) as [items'|]; [|discriminate].
    intros [= <-] [->|Hn]%elem_of_cons.
    + exists info. left.
    + destruct (IH _ eq_refl Hn) as [info' Hin]. exists info'. by right.
Qed.

(** C7.  The merged descriptor map looks a name up first among the
    descriptors declared on the type itself, then among the bases, the
    last-listed base that has the name winning; a descriptor declared on the
    type is therefore the one registered, with its own parser and predicate
    builder, and the names of the resulting registry are pairwise distinct.
    A collision raises nothing: lines 20-30 are a total function of the
    bases and the declared descriptors; the one part of [__new__] that can
    raise is the documentation string of lines 31-49, and what it raises is
    what [filter_info] raises on a descriptor that is registered, that is
    on the winner under its name; so [__new__] makes the class, with the
    merged registry, as soon as [filter_info] returns on every registered
    descriptor, however many names collide.  ([type.__new__], which line 50
    calls, is taken to accept the bases.) *)
Theorem metaclass_merge
    (bases : list base_class) (declared : option (list (str * Filter))) :
  Forall wf_base bases ->
  NoDup (dict_keys (namespace_filters declared)) ->
  let cls := QPTranslatorMetaclass_new bases declared in
  (forall n,
      dict_get n (__filters__ cls) =
      match dict_get n (namespace_filters declared) with
      | Some f => Some f
      | None => inherited n bases
      end)
  /\ (forall bases' b n,
         bases = bases' ++ [b] ->
         dict_get n (namespace_filters declared) = None ->
         dict_get n (__filters__ cls) =
         match base_get n b with
         | Some f => Some f
         | None => inherited n bases'
         end)
  /\ (forall n f,
         dict_get n (namespace_filters declared) = Some f ->
         exists g, dict_get n (__filters__ cls) = Some g
                   /\ t_parser g = t_parser f /\ q_func g = q_func f)
  /\ NoDup (dict_keys (__filters__ cls))
  /\ (forall e,
         QPTranslatorMetaclass_new_docs generic_args bases declared = Raise e ->
         exists n f,
           dict_get n (__filters__ cls) = Some f
           /\ filter_info generic_args f = Raise e)
  /\ ((forall n f,
          dict_get n (__filters__ cls) = Some f ->
          exists info, filter_info generic_args f = Return info) ->
      exists docs,
        QPTranslatorMetaclass_new_docs generic_args bases declared =
        Return (cls, docs)).
Proof.
  intros Hwf Hnd cls.
  assert (Hget : forall n,
      dict_get n (__filters__ cls) =
      match dict_get n (namespace_filters declared) with
      | Some f => Some f
      | None => inherited n bases
      end).
  { intros n. unfold cls, QPTranslatorMetaclass_new. simpl.
    rewrite dict_get_update by done.
    destruct (dict_get n (namespace_filters declared)); [done|].
    rewrite merge_bases_get by done. by destruct (inherited n bases). }
  assert (Hkeys : NoDup (dict_keys (__filters__ cls)))
    by apply metaclass_filters_NoDup.
  split_and!.
  - exact Hget.
  - intros bases' b n -> Hn. by rewrite Hget, Hn, inherited_snoc.
  - intros n f Hn. exists f. by rewrite Hget, Hn.
  - exact Hkeys.
  - intros e He. apply new_docs_raises, docs_items_raises in He
      as (pre & n & f & post & Heq & _ & Hf).
    exists n, f. split; [|done]. apply dict_elem_get; [done|].
    fold cls in Heq. rewrite Heq. apply elem_of_app. right. left.
  - intros Hall. apply new_docs_returns, docs_items_returns.
    intros n f Hin. apply (Hall n). by apply dict_elem_get.
Qed.

(** X17.  When the metaclass makes a class, its documentation string is
    empty exactly when the merged registry is empty, and otherwise it holds a
    heading [<h3>name</h3>] for every name of the merged registry, the
    inherited ones included; [get_docs] returns that string. *)
Theorem docs_list_every_name
    (bases : list base_class) (declared : option (list (str * Filter)))
    (cls : QPTranslatorClass) (docs : str) :
  QPTranslatorMetaclass_new_docs generic_args bases declared =
    Return (cls, docs) ->
  cls = QPTranslatorMetaclass_new bases declared
  /\ get_docs (cls, docs) = docs
  /\ (docs = [] <-> __filters__ cls = [])
  /\ (forall n,
         n ∈ dict_keys (__filters__ cls) ->
         str_contains (lit "<h3>" ++ n ++ lit "</h3>") docs = true).
Proof.
  unfold QPTranslatorMetaclass_new_docs.
  set (c := QPTranslatorMetaclass_new bases declared).
  destruct (make_docs generic_args (__filters__ c)) as [d|e] eqn:Hd;
    [|discriminate].
  intros [= <- <-]. split; [done|]. split; [done|].
  unfold make_docs in Hd.
  destruct (__filters__ c) as [|nf filters] eqn:Hf.
  - injection Hd as <-. split; [done|].
    intros n Hn. by apply elem_of_nil in Hn.
  - destruct (docs_items generic_args (nf :: filters)) as [items|] eqn:Hitems;
      [|discriminate].
    assert (Hdocs : d = lit "<h2>Filters:</h2>" ++
                        str_join (lit "<br>") items) by congruence.
    clear Hd. subst d. split; [split; discriminate|].
    intros n Hn.
    destruct (docs_items_heading _ _ _ Hitems Hn) as [info Hin].
    destruct (str_join_item (lit "<br>") _ _ Hin) as (a & b & ->).
    replace (lit "<h2>Filters:</h2>" ++
             a ++ (lit "<br><h3>" ++ n ++ lit "</h3>" ++ info) ++ b)
      with ((lit "<h2>Filters:</h2>" ++ a ++ lit "<br>") ++
            (lit "<h3>" ++ n ++ lit "</h3>") ++ (info ++ b)).
    + apply str_contains_mid.
    + change (lit "<br><h3>") with (lit "<br>" ++ lit "<h3>").
      by rewrite <- !app_assoc.
Qed.


End DocsFacts.

(** ** The further properties at concrete inputs *)

Lemma parse_missing_required_witness :
  parse BaseTranslator (request [("id", "3")]) =
  ([ParserCall (lit "id") (VStr (lit "3"));
    QFuncCall (lit "id") (VList [VStr (lit "3")])],
   Raise (HTTPException HTTP_400_BAD_REQUEST
            (lit "Required query params: " ++
             str_join (lit ", ")
               (set_iter (__required_filter_set__ BaseTranslator
                            ∖ list_to_set
                                (dict_keys
                                   [(lit "id",
                                     [(lit "id",
                                       VList [VStr (lit "3")])])])))))).
Proof.
  assert (H1 : parse_keys BaseTranslator (request [("id", "3")]) =
               ([ParserCall (lit "id") (VStr (lit "3"));
                 QFuncCall (lit "id") (VList [VStr (lit "3")])],
                Return ({| query_list := []; sort := [];
                           limit := None; offset := None |},
                        ([(lit "id", [(lit "id", VList [VStr (lit "3")])])],
                         ∅))))
    by reflexivity.
  pose proof (parse_missing_required BaseTranslator _ _ _ _ H1)
    as (_ & Hraise & _).
  apply Hraise. by_compute.
Defined.

Lemma reserved_required_never_satisfied_witness :
  lit "limit" ∈ __required_filter_set__ LimitTranslator
  /\ forall qps tr res, parse LimitTranslator qps <> (tr, Return res).
Proof.
  assert (H1 : lit "limit" ∈ __required_filter_set__ LimitTranslator)
    by by_compute.
  split; [exact H1|].
  exact (reserved_required_never_satisfied LimitTranslator (lit "limit")
           H1 eq_refl).
Defined.

Lemma parse_result_contents_witness :
  query_list
    {| query_list := [[]; [(lit "status", VBool true)]]; sort := [lit "x"];
       limit := Some 5; offset := None |} =
  (flat_map (resolved_entry BaseTranslator
               (request [("id", "1"); ("sort_by", "x"); ("id", "2");
                         ("status", "true"); ("limit", "5")]))
            (qp_keys (request [("id", "1"); ("sort_by", "x"); ("id", "2");
                               ("status", "true"); ("limit", "5")]))).*2.
Proof.
  assert (H1 : parse BaseTranslator
                 (request [("id", "1"); ("sort_by", "x"); ("id", "2");
                           ("status", "true"); ("limit", "5")]) =
               ([ParserCall (lit "status") (VStr (lit "true"));
                 QFuncCall (lit "status") (VBool true)],
                Return {| query_list := [[]; [(lit "status", VBool true)]];
                          sort := [lit "x"];
                          limit := Some 5; offset := None |}))
    by reflexivity.
  exact (proj1 (parse_result_contents BaseTranslator _ _ _ H1)).
Defined.

Lemma parse_call_log_witness :
  [ParserCall (lit "id") (VStr (lit "1"));
   ParserCall (lit "id") (VStr (lit "2"));
   QFuncCall (lit "id") (VList [VStr (lit "1"); VStr (lit "2")]);
   ParserCall (lit "name") (VStr (lit "n"));
   QFuncCall (lit "name") (VStr (lit "n"))] =
  flat_map (key_events SubTranslator
              (request [("id", "1"); ("name", "n"); ("id", "2")]))
           (qp_keys (request [("id", "1"); ("name", "n"); ("id", "2")])).
Proof.
  assert (H1 : parse SubTranslator
                 (request [("id", "1"); ("name", "n"); ("id", "2")]) =
               ([ParserCall (lit "id") (VStr (lit "1"));
                 ParserCall (lit "id") (VStr (lit "2"));
                 QFuncCall (lit "id") (VList [VStr (lit "1"); VStr (lit "2")]);
                 ParserCall (lit "name") (VStr (lit "n"));
                 QFuncCall (lit "name") (VStr (lit "n"))],
                Return {| query_list :=
                            [[(lit "id",
                               VList [VStr (lit "1"); VStr (lit "2")])];
                             [(lit "name", VStr (lit "n"))]];
                          sort := []; limit := None; offset := None |}))
    by reflexivity.
  exact (proj1 (parse_call_log SubTranslator _ _ _ H1)).
Defined.

Lemma parse_raise_origin_witness :
  raised_by SubTranslator
    (request [("broken", "1"); ("status", "maybe"); ("zzz", "1")])
    [ParserCall (lit "broken") (VStr (lit "1"))]
    (Warning t_parser_warning).
Proof.
  assert (H1 : parse SubTranslator
                 (request [("broken", "1"); ("status", "maybe");
                           ("zzz", "1")]) =
               ([ParserCall (lit "broken") (VStr (lit "1"))],
                Raise (Warning t_parser_warning)))
    by reflexivity.
  exact (parse_raise_origin SubTranslator _ _ _ H1).
Defined.

Lemma parse_fails_with_400_only_witness :
  exists detail,
    (parse BaseTranslator (request [("zzz", "1")])).2 =
    Raise (HTTPException HTTP_400_BAD_REQUEST detail).
Proof.
  assert (H1 : parse BaseTranslator (request [("zzz", "1")]) =
               ([], Raise (HTTPException HTTP_400_BAD_REQUEST
                             (lit "Invalid query params: zzz"))))
    by reflexivity.
  assert (H2 : exists l, pagination (qp_get (request [("zzz", "1")])
                                            (lit "limit")) = Return l)
    by (by exists None).
  assert (H3 : exists o, pagination (qp_get (request [("zzz", "1")])
                                            (lit "offset")) = Return o)
    by (by exists None).
  destruct (parse_fails_with_400_only BaseTranslator
              (request [("zzz", "1")]) _ _
              base_descriptors_honour_contract H2 H3 H1) as [detail Hd].
  exists detail. rewrite H1. cbn [snd]. by rewrite Hd.
Defined.

Lemma empty_subtype_registry_witness :
  __filters__ (QPTranslatorMetaclass_new [as_base BaseTranslator] None) =
  __filters__ BaseTranslator
  /\ __required_filter_set__
       (QPTranslatorMetaclass_new [as_base BaseTranslator] None) = ∅.
Proof.
  pose proof (empty_subtype_registry [as_base QPTranslator]
                (Some [(lit "status", status_filter); (lit "id", id_filter)])
                None eq_refl) as (Hf & Hr & _).
  split; [exact Hf | exact Hr].
Defined.

Lemma mutual_exclusion_drops_both_witness :
  lit "b" ∈ exclusions a_filter
  /\ lit "a" ∈ exclusions b_filter
  /\ (forall ev,
         ev ∈ (parse MoreTranslator (request [("a", "1"); ("b", "2")])).1 ->
         event_param ev <> lit "a" /\ event_param ev <> lit "b").
Proof.
  assert (H1 : lit "a" ∈ qp_keys (request [("a", "1"); ("b", "2")]))
    by by_compute.
  assert (H2 : lit "b" ∈ qp_keys (request [("a", "1"); ("b", "2")]))
    by by_compute.
  assert (H3 : lit "b" ∈ exclusions a_filter) by by_compute.
  assert (H4 : lit "a" ∈ exclusions b_filter) by by_compute.
  split_and!; [exact H3 | exact H4 |].
  exact (proj1 (mutual_exclusion_drops_both MoreTranslator
                  (request [("a", "1"); ("b", "2")])
                  (lit "a") (lit "b") a_filter b_filter
                  H1 eq_refl H2 eq_refl eq_refl eq_refl H3 H4)).
Defined.

Lemma type_parser_in_parse_witness :
  (parse MoreTranslator (request [("count", "x1")])).2 =
  Raise (HTTPException HTTP_400_BAD_REQUEST
           (lit "Value " ++ lit "x1" ++ lit " is not correct for type "
            ++ type_name natural_type)).
Proof.
  assert (H1 : parse MoreTranslator (request [("count", "x1")]) =
               ([ParserCall (lit "count") (VStr (lit "x1"))],
                Raise (HTTPException HTTP_400_BAD_REQUEST
                         (lit "Value x1 is not correct for type Natural"))))
    by reflexivity.
  assert (H2 : ParserCall (lit "count") (VStr (lit "x1")) ∈
               [ParserCall (lit "count") (VStr (lit "x1"))]) by left.
  pose proof (type_parser_in_parse MoreTranslator _ _ _ (lit "count")
                count_filter natural_type (lit "x1")
                H1 H2 eq_refl eq_refl) as (_ & Hraise).
  rewrite H1. cbn [snd].
  exact (Hraise (OtherException (lit "TypeError") (lit "not a number"))
                eq_refl eq_refl).
Defined.

Lemma datetime_parser_in_parse_witness :
  (parse MoreTranslator (request [("day", "tomorrow")])).2 =
  Raise (HTTPException HTTP_400_BAD_REQUEST
           (lit "Field with date must be in ISO format")).
Proof.
  assert (H1 : parse MoreTranslator (request [("day", "tomorrow")]) =
               ([ParserCall (lit "day") (VStr (lit "tomorrow"))],
                Raise (HTTPException HTTP_400_BAD_REQUEST
                         (lit "Field with date must be in ISO format"))))
    by reflexivity.
  assert (H2 : ParserCall (lit "day") (VStr (lit "tomorrow")) ∈
               [ParserCall (lit "day") (VStr (lit "tomorrow"))]) by left.
  pose proof (datetime_parser_in_parse no_isoformat MoreTranslator _ _ _
                (lit "day") day_filter (lit "tomorrow")
                H1 H2 eq_refl eq_refl) as (_ & Hraise).
  rewrite H1. cbn [snd].
  exact (Hraise (ValueError (lit "Invalid isoformat string"))
                eq_refl eq_refl).
Defined.

Lemma non_string_enum_in_parse_witness :
  (parse MoreTranslator (request [("level", "1")])).2 =
  Raise (Warning (lit "t_parser can only raise a ValueError")).
Proof.
  assert (H1 : parse MoreTranslator (request [("level", "1")]) =
               ([ParserCall (lit "level") (VStr (lit "1"))],
                Raise (Warning (lit "t_parser can only raise a ValueError"))))
    by reflexivity.
  assert (H2 : ParserCall (lit "level") (VStr (lit "1")) ∈
               [ParserCall (lit "level") (VStr (lit "1"))]) by left.
  assert (H3 : forall e, get_enum_parser level_enum (lit "1") = Raise e ->
                         t_parser level_filter (VStr (lit "1")) = Raise e).
  { intros e He. cbn [t_parser level_filter on_str]. by rewrite He. }
  assert (H4 : forall m, m ∈ enum_members level_enum ->
                         m.2 <> VStr (lit "1")).
  { intros m Hm. cbn in Hm.
    apply elem_of_cons in Hm as [->|Hm]; [discriminate|].
    apply elem_of_cons in Hm as [->|Hm]; [discriminate|].
    by apply elem_of_nil in Hm. }
  assert (H5 : forall s, VInt 1 <> VStr s) by discriminate.
  rewrite H1. cbn [snd].
  exact (non_string_enum_in_parse MoreTranslator _ _ _ (lit "level")
           level_filter level_enum (lit "1") [] (VInt 1) [VInt 2]
           H1 H2 eq_refl H3 H4 eq_refl H5).
Defined.

Lemma docs_list_every_name_witness :
  str_contains (lit "<h3>" ++ lit "b" ++ lit "</h3>")
    (lit "<h2>Filters:</h2><br><h3>a</h3>**ValueType:** str<br>**Many:** False<br>**Is Required:** False<br>**Exclusions:** b<br><br><h3>b</h3>the other one<br><br>**ValueType:** str<br>**Many:** False<br>**Is Required:** False<br>**Exclusions:** a")
  = true.
Proof.
  assert (H1 : QPTranslatorMetaclass_new_docs str_args [as_base QPTranslator]
                 (Some [(lit "a", a_filter); (lit "b", b_filter)]) =
               Return (QPTranslatorMetaclass_new [as_base QPTranslator]
                         (Some [(lit "a", a_filter); (lit "b", b_filter)]),
                       lit "<h2>Filters:</h2><br><h3>a</h3>**ValueType:** str<br>**Many:** False<br>**Is Required:** False<br>**Exclusions:** b<br><br><h3>b</h3>the other one<br><br>**ValueType:** str<br>**Many:** False<br>**Is Required:** False<br>**Exclusions:** a"))
    by reflexivity.
  pose proof (docs_list_every_name str_args _ _ _ _ H1) as (_ & _ & _ & Hall).
  apply Hall. by_compute.
Defined.

(** The only required name of [OwnerTranslator] is [owner]. *)
Lemma owner_only_required (n : str) :
  n ∈ __required_filter_set__ OwnerTranslator -> n = lit "owner".
Proof.
  unfold OwnerTranslator. rewrite elem_of_required_filter_set.
  intros (f & Hin & Hreq). unfold namespace_filters in Hin. cbn [default] in Hin.
  apply elem_of_cons in Hin as [Hin|Hin]; [congruence|].
  apply elem_of_cons in Hin as [Hin|Hin].
  - assert (Hf : f = public_filter) by congruence. subst f. discriminate.
  - by apply elem_of_nil in Hin.
Qed.

(** [owner] is required and excluded by [public]: on [owner=7&public=true]
    nothing is called for [owner], the required check passes and [parse]
    returns, the empty predicate standing for [owner]. *)
Lemma exclusion_gives_empty_predicate_witness :
  lit "owner" ∈ __required_filter_set__ OwnerTranslator
  /\ lit "public" ∈ exclusions owner_filter
  /\ (forall a,
         ParserCall (lit "owner") a ∉
         (parse OwnerTranslator
            (request [("owner", "7"); ("public", "true")])).1)
  /\ _check_required_filters OwnerTranslator [lit "owner"; lit "public"] =
     Return tt
  /\ parse OwnerTranslator (request [("owner", "7"); ("public", "true")]) =
     ([ParserCall (lit "public") (VStr (lit "true"));
       QFuncCall (lit "public") (VBool true)],
      Return {| query_list := [[]; [(lit "public", VBool true)]]; sort := [];
                limit := None; offset := None |}).
Proof.
  assert (H0 : lit "owner" ∈ __required_filter_set__ OwnerTranslator)
    by by_compute.
  assert (H1 : lit "owner" ∈
               qp_keys (request [("owner", "7"); ("public", "true")]))
    by by_compute.
  assert (H2 : lit "public" ∈ exclusions owner_filter) by by_compute.
  assert (H3 : lit "public" ∈
               qp_keys (request [("owner", "7"); ("public", "true")]))
    by by_compute.
  assert (H4 : parse_keys OwnerTranslator
                 (request [("owner", "7"); ("public", "true")]) =
               ([ParserCall (lit "public") (VStr (lit "true"));
                 QFuncCall (lit "public") (VBool true)],
                Return ({| query_list := []; sort := [];
                           limit := None; offset := None |},
                        ([(lit "owner", []);
                          (lit "public", [(lit "public", VBool true)])],
                         ∅))))
    by reflexivity.
  assert (H5 : forall n,
             n ∈ __required_filter_set__ OwnerTranslator ->
             n <> lit "owner" ->
             n ∈ qp_keys (request [("owner", "7"); ("public", "true")])
             /\ is_reserved n = false).
  { intros n Hn Hne. by apply owner_only_required in Hn. }
  pose proof (exclusion_gives_empty_predicate OwnerTranslator
                (request [("owner", "7"); ("public", "true")])
                (lit "owner") owner_filter (lit "public")
                H1 eq_refl eq_refl H2 H3) as (_ & Hp & _ & Hfinal).
  destruct (Hfinal _ _ _ _ H4) as (_ & _ & _ & _ & Hret).
  destruct (Hret eq_refl H5) as (Hcheck & Hparse & _).
  split_and!; [exact H0 | exact H2 | exact Hp | exact Hcheck | exact Hparse].
Defined.

(** Both bases register [id], the second one also [name], which the subtype
    declares again: [id] is the descriptor of the later-listed base, [name]
    the subtype's, with its parser and predicate builder, [status] comes
    from the first base, and the class is made. *)
Lemma metaclass_merge_witness :
  inherited (lit "id") [as_base BaseTranslator] = Some id_filter
  /\ base_get (lit "id") (as_base OtherTranslator) = Some single_id_filter
  /\ inherited (lit "name") [as_base BaseTranslator; as_base OtherTranslator]
     = Some name_filter
  /\ dict_get (lit "id") (__filters__ MergedTranslator) = Some single_id_filter
  /\ dict_get (lit "status") (__filters__ MergedTranslator) =
     Some status_filter
  /\ dict_get (lit "name") (__filters__ MergedTranslator) =
     Some has_name_filter
  /\ (exists g,
         dict_get (lit "name") (__filters__ MergedTranslator) = Some g
         /\ t_parser g = bool_parser
         /\ q_func g = field_predicate (lit "has_name"))
  /\ NoDup (dict_keys (__filters__ MergedTranslator))
  /\ (exists docs,
         QPTranslatorMetaclass_new_docs str_args
           [as_base BaseTranslator; as_base OtherTranslator]
           (Some merged_declared) = Return (MergedTranslator, docs)).
Proof.
  assert (H1 : Forall wf_base [as_base BaseTranslator; as_base OtherTranslator])
    by (repeat constructor; by_compute).
  assert (H2 : NoDup (dict_keys (namespace_filters (Some merged_declared))))
    by by_compute.
  pose proof (metaclass_merge str_args
                [as_base BaseTranslator; as_base OtherTranslator]
                (Some merged_declared) H1 H2)
    as (Hget & Hlast & Hown & Hnd & _ & Hmade).
  split_and!.
  - reflexivity.
  - reflexivity.
  - reflexivity.
  - exact (Hlast [as_base BaseTranslator] (as_base OtherTranslator)
             (lit "id") eq_refl eq_refl).
  - exact (Hlast [as_base BaseTranslator] (as_base OtherTranslator)
             (lit "status") eq_refl eq_refl).
  - exact (Hget (lit "name")).
  - exact (Hown (lit "name") has_name_filter eq_refl).
  - exact Hnd.
  - apply Hmade. intros n f _. unfold filter_info, str_args. by eexists.
Defined.

